(** * vmfs_balance: the inventory-joining and balancing engine

    A shallow embedding of [nannies/vmfs_balance.py]: the datastore model
    ([DS], [DataStores]), the storage view ([NAAggr], [NALun]), the move
    simulator, the join-and-weighting computation and the two balancing
    passes, followed by the properties the specification states about them.

    Conventions of the embedding.
    - A Python [int] is a [Z]. A Python [float] is the rational number it
      denotes, a [Q]; every float operation is the exact operation followed
      by the rounding [rnd], a variable of the development ([binary64] below
      is round-to-nearest-even on 53 bits, [exact] is no rounding at all).
      Infinities and NaN are outside the model: byte counts and percentages
      stay far inside the range of a double.  Comparisons that mix [int] and
      [float] are exact in Python and are exact here.
    - Objects that are mutated and shared ([DS] instances, the list
      [ds_info.elements], the list [args.ds_denylist], the log) live in a
      [World]; code that touches them is written in a state-and-exception
      monad [M].
    - [while True] loops take a fuel argument; running out of fuel is the
      outcome [OutOfFuel], distinct from every Python outcome. *)

From Stdlib Require Import ZArith QArith Qpower Lia List String Ascii Bool.
From Stdlib Require Import Sorted.
From stdpp Require Import base list strings gmap.

Local Open Scope Z_scope.

(** ** Python arithmetic *)

Module Py.

Inductive exn : Type :=
| ZeroDivisionError
| IndexError
| ValueError
| AttributeError.

Inductive outcome (A : Type) : Type :=
| Ok (a : A)
| Raise (e : exn)
| OutOfFuel.

Arguments Ok {A} a.
Arguments Raise {A} e.
Arguments OutOfFuel {A}.

#[export] Instance outcome_ret : MRet outcome := fun A a => Ok a.

#[export] Instance outcome_bind : MBind outcome := fun A B k c =>
  match c with
  | Ok a => k a
  | Raise e => Raise e
  | OutOfFuel => OutOfFuel
  end.

(** [int(z)] seen as a number that can meet a float. *)
Definition of_int (z : Z) : Q := inject_Z z.

Definition Qltb (x y : Q) : bool := negb (Qle_bool y x).

(** [min(a, b)] of Python: [b] when [b < a], else [a]. *)
Definition min (a b : Q) : Q := if Qltb b a then b else a.

(** Nearest integer to [n / d] for [d > 0], ties to even. *)
Definition round_half_even (n d : Z) : Z :=
  let q := n / d in
  let r := n mod d in
  match 2 * r ?= d with
  | Lt => q
  | Gt => q + 1
  | Eq => if Z.even q then q else q + 1
  end.

(** [a / d / 2^e] as a fraction of integers. *)
Definition scaled (a d e : Z) : Z * Z :=
  if 0 <=? e then (a, d * 2 ^ e) else (a * 2 ^ (- e), d).

(** The exponent [e] of [a / d > 0] with a mantissa of 53 bits:
    [2^52 <= a / d / 2^e < 2^53]. *)
Definition exponent (a d : Z) : Z :=
  let e0 := Z.log2 a - Z.log2 d - 52 in
  if fst (scaled a d e0) / snd (scaled a d e0) <? 2 ^ 52 then e0 - 1 else e0.

(** IEEE 754 binary64 rounding of a rational (normal range, no overflow):
    the mantissa [m] has 53 bits, [2^52 <= m <= 2^53], and the result is
    [m * 2^e]. *)
Definition binary64 (x : Q) : Q :=
  let n := Qnum x in
  let d := Z.pos (Qden x) in
  if n =? 0 then 0%Q else
  let a := Z.abs n in
  let e := exponent a d in
  let m := round_half_even (fst (scaled a d e)) (snd (scaled a d e)) in
  let s := Z.sgn n in
  Qred (if 0 <=? e then inject_Z (s * m * 2 ^ e)
        else Qmake (s * m) (Z.to_pos (2 ^ (- e)))).

(** Arithmetic without rounding, the idealisation of a float. *)
Definition exact (x : Q) : Q := x.

Section Float.

Variable rnd : Q -> Q.

Definition add (x y : Q) : Q := rnd (x + y).
Definition sub (x y : Q) : Q := rnd (x - y).
Definition mul (x y : Q) : Q := rnd (x * y).

(** True division [x / y]: [ZeroDivisionError] on a zero divisor. *)
Definition div (x y : Q) : outcome Q :=
  if Qeq_bool y 0 then Raise ZeroDivisionError else Ok (rnd (x / y)).

(** [float(z)]: an [int] that meets a [float] in an operation is converted
    to the nearest float first. *)
Definition to_float (z : Z) : Q := rnd (of_int z).

(** [x / z] for a float [x] and an int [z]: the int is converted first;
    zero, and no other int, converts to [0.0]. *)
Definition div_int (x : Q) (z : Z) : outcome Q :=
  if z =? 0 then Raise ZeroDivisionError else Ok (rnd (x / to_float z)).

End Float.

End Py.

Import Py.

(** ** Log records

    [log.info] and [log.warning] append a record; the message keeps the
    values that the format string receives. *)

Inductive level : Type := INFO | WARNING.

Inductive message : Type :=
| DsZeroCapacity (ds : string)
| ShadowVmWithoutDisk (vm : string)
| ShadowVmMoreThanOneDisk (vm : string)
| NetappHost (host : string)
| AggregateName (aggr : string)
| AggregateUsage (usage : Z)
| DsUsageOnAggr (usage : Q)
| MinAggrUsage (usage : Z) (aggr : string)
| MaxAggrUsage (usage : Z) (aggr : string)
| AvgAggrUsage (usage : Q)
| AggrWithinAutopilotRange
| AggrBalancingRequired
| SourceLun (lun : string)
| NoVmfsDs
| AverageUsage (usage free total : Q)
| DsIgnored (ds : string) (usage free : Q)
| DsLine (ds : string) (usage free : Q)
| ShadowVmLine (vm : string) (size : Q)
| MaxMovesReachedAggr
| EnoughFreedFromAggr
| EnoughFreedFromDs
| NoMoreShadowVmsOnAggr (ds : string)
| MaxMovesReachedDs
| NoMoreShadowVmsOnDs (ds : string)
| MostUsedBelowMax (ds : string) (usage max_usage : Q)
| LeastUsedAboveMin (ds : string) (usage min_usage : Q)
| LeastUsedBelowFreespace (ds : string) (free : Q) (min_freespace : Z)
| UsagesTooClose (most least : string) (min_max_difference : Z)
| MoveVm (vm : string) (size : Q) (source target : string)
| MoveUsage (source_before source_after target_before target_after : Q)
| Svmotion (vm target : string).

Record LogRecord : Type := { levelname : level; msg : message }.

(** ** The virtualization view: VM and DS objects *)

(** A managed-object reference handed out by the vCenter. *)
Abbreviation moref := nat (only parsing).

Inductive device : Type :=
| VirtualDisk (capacityInBytes : Z)
| VirtualEthernetCard
| OtherDevice.

Module VM.

Record t : Type := {
  name : string;
  memoryMB : Z;
  numCPU : Z;
  devices : list device;
  powerState : string;
  handle : moref
}.

Definition is_disk (dev : device) : bool :=
  match dev with VirtualDisk _ => true | _ => false end.

Definition is_nic (dev : device) : bool :=
  match dev with VirtualEthernetCard => true | _ => false end.

(** [get_disksizes]: the sizes in bytes of all attached disks. *)
Definition get_disksizes (self : t) : list Z :=
  omap (fun dev => match dev with VirtualDisk c => Some c | _ => None end)
       (devices self).

(** [get_total_disksize]: [sum(self.get_disksizes())]. *)
Definition get_total_disksize (self : t) : Z :=
  foldr Z.add 0 (get_disksizes self).

(** [is_shadow_vm]: the answer and the warning it logs, if any. *)
Definition is_shadow_vm (self : t) : bool * list LogRecord :=
  if (memoryMB self =? 128) && (numCPU self =? 1)
     && String.eqb (powerState self) "poweredOff"
     && negb (existsb is_nic (devices self))
  then
    let number_of_disks := length (filter (fun dev => is_disk dev = true) (devices self)) in
    if (number_of_disks =? 0)%nat then
      (false, [ {| levelname := WARNING; msg := ShadowVmWithoutDisk (name self) |} ])
    else if (1 <? number_of_disks)%nat then
      (false, [ {| levelname := WARNING; msg := ShadowVmMoreThanOneDisk (name self) |} ])
    else (true, [])
  else (false, []).

End VM.

Module DS.

Record t : Type := {
  name : string;
  freespace : Z;
  capacity : Z;
  used : Z;
  usage : Q;
  vm_handles : list moref;
  ds_handle : moref
}.

(** The property snapshot of one datastore, as the vCenter returns it. *)
Record element : Type := {
  e_name : string;
  e_freeSpace : Z;
  e_capacity : Z;
  e_vm : list moref;
  e_obj : moref
}.

Definition set_freespace (f : Z) (d : t) : t :=
  {| name := name d; freespace := f; capacity := capacity d; used := used d;
     usage := usage d; vm_handles := vm_handles d; ds_handle := ds_handle d |}.

Definition set_usage (u : Q) (d : t) : t :=
  {| name := name d; freespace := freespace d; capacity := capacity d; used := used d;
     usage := u; vm_handles := vm_handles d; ds_handle := ds_handle d |}.

Definition set_vm_handles (hs : list moref) (d : t) : t :=
  {| name := name d; freespace := freespace d; capacity := capacity d; used := used d;
     usage := usage d; vm_handles := hs; ds_handle := ds_handle d |}.

(** [list.remove(x)]: drops the first occurrence, [ValueError] when absent. *)
Fixpoint list_remove (x : moref) (l : list moref) : outcome (list moref) :=
  match l with
  | [] => Raise ValueError
  | y :: l' => if Nat.eqb y x then Ok l' else
                 match list_remove x l' with
                 | Ok r => Ok (y :: r)
                 | Raise e => Raise e
                 | OutOfFuel => OutOfFuel
                 end
  end.

Section Float.

Variable rnd : Q -> Q.

(** [(1 - freespace / capacity) * 100] *)
Definition usage_of (freespace capacity : Z) : outcome Q :=
  q ← div rnd (of_int freespace) (of_int capacity);
  mret (mul rnd (sub rnd (of_int 1) q) (of_int 100)).

(** [DS.__init__] *)
Definition init (ds_element : element) : outcome t :=
  u ← usage_of (e_freeSpace ds_element) (e_capacity ds_element);
  mret {| name := e_name ds_element;
          freespace := e_freeSpace ds_element;
          capacity := e_capacity ds_element;
          used := e_capacity ds_element - e_freeSpace ds_element;
          usage := u;
          vm_handles := e_vm ds_element;
          ds_handle := e_obj ds_element |}.

Definition is_below_usage (self : t) (usage_ : Q) : bool := Qltb (usage self) usage_.

Definition is_above_usage (self : t) (usage_ : Q) : bool := Qltb usage_ (usage self).

Definition is_below_freespace (self : t) (freespace_ : Z) : bool :=
  freespace self <? freespace_ * 1024 ^ 3.

End Float.

End DS.

(** ** The world: shared mutable objects *)

(** A reference to a [DS] object: its index in the heap. *)
Abbreviation ref := nat (only parsing).

Record World : Type := {
  heap : list DS.t;                      (* the DS objects, by reference *)
  elements : list ref;                   (* ds_info.elements *)
  ds_denylist : option (list string);    (* args.ds_denylist: None, or a list object *)
  log : list LogRecord                   (* what was logged, oldest first *)
}.

Definition set_heap (h : list DS.t) (w : World) : World :=
  {| heap := h; elements := elements w; ds_denylist := ds_denylist w; log := log w |}.

Definition set_elements (l : list ref) (w : World) : World :=
  {| heap := heap w; elements := l; ds_denylist := ds_denylist w; log := log w |}.

Definition set_ds_denylist (d : option (list string)) (w : World) : World :=
  {| heap := heap w; elements := elements w; ds_denylist := d; log := log w |}.

Definition set_log (l : list LogRecord) (w : World) : World :=
  {| heap := heap w; elements := elements w; ds_denylist := ds_denylist w; log := l |}.

Definition M (A : Type) : Type := World -> outcome A * World.

#[export] Instance M_ret : MRet M := fun A a w => (Ok a, w).

#[export] Instance M_bind : MBind M := fun A B k c w =>
  match c w with
  | (Ok a, w') => k a w'
  | (Raise e, w') => (Raise e, w')
  | (OutOfFuel, w') => (OutOfFuel, w')
  end.

Definition lift {A : Type} (c : outcome A) : M A := fun w => (c, w).

Definition raise {A : Type} (e : exn) : M A := fun w => (Raise e, w).

Definition get_world : M World := fun w => (Ok w, w).

Definition modify (f : World -> World) : M unit := fun w => (Ok tt, f w).

Definition tell (records : list LogRecord) : M unit :=
  modify (fun w => set_log (log w ++ records) w).

Definition log_info (m : message) : M unit :=
  tell [ {| levelname := INFO; msg := m |} ].

Definition log_warning (m : message) : M unit :=
  tell [ {| levelname := WARNING; msg := m |} ].

(** Reading and writing a [DS] object through its reference.  A reference
    outside the heap does not exist in Python; it is [AttributeError] here
    and the well-formedness [wf] of a world rules it out. *)
Definition deref (r : ref) : M DS.t := fun w =>
  match heap w !! r with
  | Some d => (Ok d, w)
  | None => (Raise AttributeError, w)
  end.

Definition assign (r : ref) (d : DS.t) : M unit :=
  modify (fun w => set_heap (<[r := d]> (heap w)) w).

Definition wf (w : World) : Prop :=
  Forall (fun r => (r < length (heap w))%nat) (elements w).

(** [for x in l: body], threading an accumulator. *)
Fixpoint for_each {A B : Type} (l : list A) (acc : B) (body : A -> B -> M B) : M B :=
  match l with
  | [] => mret acc
  | x :: l' => acc' ← body x acc; for_each l' acc' body
  end.

(** One turn of a [while True] loop: it ends in [break], or the loop goes
    on with new values of its variables. *)
Inductive flow (St : Type) : Type :=
| Break
| Continue (s : St).

Arguments Break {St}.
Arguments Continue {St} s.

(** [while True: body], with fuel for the number of turns. *)
Fixpoint while_true {St : Type} (fuel : nat) (body : St -> M (flow St)) (s : St) : M unit :=
  match fuel with
  | O => fun w => (OutOfFuel, w)
  | S fuel' =>
      r ← body s;
      match r with
      | Break => mret tt
      | Continue s' => while_true fuel' body s'
      end
  end.

(** ** Sorting as Python does it: stable, by key *)

Section Sort.

Context {A K : Type} (leb : K -> K -> bool) (key : A -> K).

Fixpoint insert_sorted (x : A) (l : list A) : list A :=
  match l with
  | [] => [x]
  | y :: l' => if leb (key x) (key y) then x :: y :: l' else y :: insert_sorted x l'
  end.

(** [sorted(l, key=key)]: ascending; equal keys keep their order. *)
Definition sorted (l : list A) : list A := foldr insert_sorted [] l.

(** [sorted(l, key=key, reverse=True)]: CPython reverses the list, sorts
    it ascending and reverses the result, so that equal keys keep their
    order here too. *)
Definition sorted_reverse (l : list A) : list A := rev (sorted (rev l)).

End Sort.

(** [l[-1]] *)
Definition last_item {A : Type} (l : list A) : outcome A :=
  match last l with
  | Some x => Ok x
  | None => Raise IndexError
  end.

(** [l[0]] *)
Definition first_item {A : Type} (l : list A) : outcome A :=
  match l with
  | x :: _ => Ok x
  | [] => Raise IndexError
  end.

(** ** Regular expressions of the balancer, on names *)

Definition newline : ascii := ascii_of_nat 10.

Fixpoint has_newline (s : string) : bool :=
  match s with
  | EmptyString => false
  | String c s' => Ascii.eqb c newline || has_newline s'
  end.

(** The part of [s] before its first newline. *)
Fixpoint first_line (s : string) : string :=
  match s with
  | EmptyString => EmptyString
  | String c s' => if Ascii.eqb c newline then EmptyString else String c (first_line s')
  end.

Definition contains (sub s : string) : bool :=
  match String.index 0 sub s with Some _ => true | None => false end.

(** [s] without one final newline, which [$] lets pass. *)
Fixpoint chomp (s : string) : string :=
  match s with
  | EmptyString => EmptyString
  | String c EmptyString => if Ascii.eqb c newline then EmptyString else s
  | String c s' => String c (chomp s')
  end.

(** [re.compile(r"^.*_ssd_.*$").match(s)], and the same with [_hdd_]:
    [.] stands for any character but a newline. *)
Definition lun_name_re (hdd : bool) (s : string) : bool :=
  negb (has_newline (chomp s))
  && contains (if hdd then "_hdd_" else "_ssd_") (chomp s).

(** [re.match('^(?:vmfs_vc.*_ssd_).*', s)] *)
Definition ds_name_regex_pattern (s : string) : bool :=
  String.prefix "vmfs_vc" s
  && contains "_ssd_" (first_line (String.substring 7 (String.length s - 7) s)).

(** ** The storage-controller view *)

Inductive lun_type : Type := vvol | vmfs.

Module NALun.

Record t : Type := {
  fvol : string;
  host : string;
  used : Z;
  path : string;
  comment : string;
  name : string;
  type : lun_type
}.

End NALun.

Module NAFvol.

Record t : Type := {
  name : string;
  host : string;
  aggr : string;
  capacity : Z;
  used : Z;
  usage : Q;
  type : lun_type
}.

End NAFvol.

Module NAAggr.

Record t : Type := {
  name : string;
  host : string;
  usage : Z;
  capacity : Z;
  fvols : list NAFvol.t;
  luns : list NALun.t
}.

(** [NAAggr.__init__]: the flexvols of the aggregate, and the luns of
    those flexvols, joined by name. *)
Definition init (name_ host_ : string) (usage_ capacity_ : Z)
    (na_fvol_elements : list NAFvol.t) (na_lun_elements : list NALun.t) : t :=
  let fvols_ :=
    filter (fun fvol => NAFvol.aggr fvol = name_) na_fvol_elements in
  {| name := name_; host := host_; usage := usage_; capacity := capacity_;
     fvols := fvols_;
     luns := flat_map (fun fvol =>
               filter (fun lun => NALun.fvol lun = NAFvol.name fvol) na_lun_elements)
             fvols_ |}.

End NAAggr.

Module NA.

Record t : Type := {
  host : string;
  na_aggr_elements : list NAAggr.t
}.

End NA.

(** ** Configuration *)

Record Args : Type := {
  min_usage : Z;
  max_usage : Z;
  min_freespace : Z;
  min_max_difference : Z;
  autopilot : bool;
  autopilot_range : Z;
  max_move_vms : Z;
  print_max : Z;
  aggr_volume_min_size : Z;
  aggr_volume_max_size : Z;
  flexvol_volume_min_size : Z;
  flexvol_volume_max_size : Z;
  hdd : bool
}.

Definition GiB : Z := 1024 ^ 3.

(** [bool(args.ds_denylist)] *)
Definition truthy (l : option (list string)) : bool :=
  match l with
  | Some (_ :: _) => true
  | _ => false
  end.

(** A variable bound to a list of names: the list object of
    [args.ds_denylist] itself, or a list of its own. *)
Inductive listvar : Type :=
| ArgsDenylist
| OwnList (l : list string).

Section Balancer.

Variable rnd : Q -> Q.

(** ** DS methods that mutate the object *)

(** [DS.add_shadow_vm] *)
Definition add_shadow_vm (self : ref) (vm : VM.t) : M unit :=
  d ← deref self;
  let d1 := DS.set_freespace (DS.freespace d - VM.get_total_disksize vm) d in
  let d2 := DS.set_vm_handles (DS.vm_handles d1 ++ [VM.handle vm]) d1 in
  assign self d2;;
  u ← lift (DS.usage_of rnd (DS.freespace d2) (DS.capacity d2));
  assign self (DS.set_usage u d2).

(** [DS.remove_shadow_vm] *)
Definition remove_shadow_vm (self : ref) (vm : VM.t) : M unit :=
  d ← deref self;
  hs ← lift (DS.list_remove (VM.handle vm) (DS.vm_handles d));
  let d1 := DS.set_vm_handles hs d in
  let d2 := DS.set_freespace (DS.freespace d1 + VM.get_total_disksize vm) d1 in
  assign self d2;;
  u ← lift (DS.usage_of rnd (DS.freespace d2) (DS.capacity d2));
  assign self (DS.set_usage u d2).

(** ** DataStores *)

Definition alloc (d : DS.t) : M unit :=
  modify (fun w => set_elements (elements w ++ [length (heap w)])
                     (set_heap (heap w ++ [d]) w)).

(** [DataStores.__init__]: a new [ds_info], without the datastores of
    capacity zero. *)
Definition DataStores_init (ds_elements : list DS.element) : M unit :=
  modify (fun w => set_elements [] (set_heap [] w));;
  for_each ds_elements tt (fun ds_element _ =>
    if DS.e_capacity ds_element =? 0 then
      log_info (DsZeroCapacity (DS.e_name ds_element))
    else
      d ← lift (DS.init rnd ds_element);
      alloc d).

Fixpoint find_by_name (ds_name : string) (l : list ref) : M (option ref) :=
  match l with
  | [] => mret None
  | r :: l' =>
      d ← deref r;
      if String.eqb (DS.name d) ds_name then mret (Some r)
      else find_by_name ds_name l'
  end.

(** [DataStores.get_by_name] *)
Definition get_by_name (ds_name : string) : M (option ref) :=
  w ← get_world;
  find_by_name ds_name (elements w).

Fixpoint filter_refs (keep : DS.t -> bool) (l : list ref) : M (list ref) :=
  match l with
  | [] => mret []
  | r :: l' =>
      d ← deref r;
      rest ← filter_refs keep l';
      mret (if keep d then r :: rest else rest)
  end.

(** [DataStores.vmfs_ds] *)
Definition vmfs_ds (ds_denylist_ : list string) : M unit :=
  w ← get_world;
  l ← filter_refs (fun ds =>
         ds_name_regex_pattern (DS.name ds)
         && negb (match ds_denylist_ with [] => false | _ => true end
                  && bool_decide (DS.name ds ∈ ds_denylist_)))
       (elements w);
  modify (set_elements l).

Fixpoint deref_all (l : list ref) : M (list (ref * DS.t)) :=
  match l with
  | [] => mret []
  | r :: l' => d ← deref r; rest ← deref_all l'; mret ((r, d) :: rest)
  end.

(** [DataStores.sort_by_usage]: by [usage * ds_weight.get(name, 1)],
    largest first. *)
Definition sort_by_usage (ds_weight : gmap string Q) : M unit :=
  w ← get_world;
  ds ← deref_all (elements w);
  modify (set_elements
    (map fst (sorted_reverse Qle_bool
       (fun rd => mul rnd (DS.usage (snd rd))
                    (default (of_int 1) (ds_weight !! DS.name (snd rd))))
       ds))).

Definition sum_of (f : DS.t -> Z) (ds : list (ref * DS.t)) : Z :=
  foldr (fun rd acc => f (snd rd) + acc) 0 ds.

(** [DataStores.get_overall_capacity] *)
Definition get_overall_capacity : M Z :=
  w ← get_world; ds ← deref_all (elements w); mret (sum_of DS.capacity ds).

(** [DataStores.get_overall_freespace] *)
Definition get_overall_freespace : M Z :=
  w ← get_world; ds ← deref_all (elements w); mret (sum_of DS.freespace ds).

(** [DataStores.get_overall_average_usage] *)
Definition get_overall_average_usage : M Q :=
  f ← get_overall_freespace;
  c ← get_overall_capacity;
  lift (DS.usage_of rnd f c).

(** ** VMs *)

(** [VMs.get_shadow_vms]: the shadow vms among the given handles, in the
    order of [vm_info.elements]; [is_shadow_vm] may log on the way. *)
Definition get_shadow_vms (vm_info : list VM.t) (vm_handles : list moref) : M (list VM.t) :=
  let candidates := filter (fun vm => VM.handle vm ∈ vm_handles) vm_info in
  tell (flat_map (fun vm => snd (VM.is_shadow_vm vm)) candidates);;
  mret (filter (fun vm => fst (VM.is_shadow_vm vm) = true) candidates).

(** [sort_vms_by_total_disksize] *)
Definition sort_vms_by_total_disksize (vms : list VM.t) : list VM.t :=
  sorted_reverse Z.leb VM.get_total_disksize vms.

(** [x / c] for a constant [c] that is not zero, as in [/ 1024**3]. *)
Definition div_const (x : Q) (c : Z) : Q := rnd (x / of_int c).

(** ** Move Simulator *)

(** [move_shadow_vm_from_ds_to_ds] *)
Definition move_shadow_vm_from_ds_to_ds (ds1 ds2 : ref) (vm : VM.t) : M unit :=
  source_before ← deref ds1;
  remove_shadow_vm ds1 vm;;
  source_after ← deref ds1;
  target_before ← deref ds2;
  add_shadow_vm ds2 vm;;
  target_after ← deref ds2;
  log_info (MoveVm (VM.name vm)
              (div_const (of_int (VM.get_total_disksize vm)) GiB)
              (DS.name source_after) (DS.name target_after));;
  log_info (MoveUsage (DS.usage source_before) (DS.usage source_after)
              (DS.usage target_before) (DS.usage target_after));;
  log_info (Svmotion (VM.name vm) (DS.name target_after)).

(** ** Cross-system join and weighting *)

(** The body of [for lun in aggr.luns] in [get_aggr_and_ds_stats]. *)
Definition stats_of_lun (aggr : NAAggr.t) (lun : NALun.t)
    (acc : Z * Z * gmap string Q) : M (Z * Z * gmap string Q) :=
  let '(ds_total_capacity, ds_total_used, ds_weight) := acc in
  found ← get_by_name (NALun.name lun);
  match found with
  | Some r =>
      ds ← deref r;
      q ← lift (div rnd (of_int (DS.used ds)) (of_int (DS.capacity ds)));
      weight ← lift (div rnd (of_int (NAAggr.usage aggr)) (mul rnd q (of_int 100)));
      mret (ds_total_capacity + DS.capacity ds,
            ds_total_used + DS.used ds,
            <[NALun.name lun := weight]> ds_weight)
  | None => mret acc
  end.

(** The body of [for aggr in na.na_aggr_elements]. *)
Definition stats_of_aggr (aggr : NAAggr.t) (ds_weight : gmap string Q)
    : M (gmap string Q) :=
  log_info (AggregateName (NAAggr.name aggr));;
  log_info (AggregateUsage (NAAggr.usage aggr));;
  '(ds_total_capacity, ds_total_used, ds_weight') ←
    for_each (NAAggr.luns aggr) (0, 0, ds_weight) (stats_of_lun aggr);
  q ← lift (div rnd (of_int ds_total_used) (of_int ds_total_capacity));
  log_info (DsUsageOnAggr (mul rnd q (of_int 100)));;
  mret ds_weight'.

(** [get_aggr_and_ds_stats] *)
Definition get_aggr_and_ds_stats (na_info : list NA.t) : M (gmap string Q) :=
  for_each na_info ∅ (fun na ds_weight =>
    log_info (NetappHost (NA.host na));;
    for_each (NA.na_aggr_elements na) ds_weight stats_of_aggr).

(** [get_max_usage_aggr]: the most used aggregate and the average usage,
    weighted by capacity. *)
Definition get_max_usage_aggr (na_info : list NA.t) : M (NAAggr.t * Q) :=
  let all_aggr := flat_map NA.na_aggr_elements na_info in
  let total_capacity := foldl (fun acc aggr => acc + NAAggr.capacity aggr) 0 all_aggr in
  let total_used :=
    foldl (fun acc aggr =>
             add rnd acc (mul rnd (div_const (of_int (NAAggr.usage aggr)) 100)
                                  (to_float rnd (NAAggr.capacity aggr))))
          (of_int 0) all_aggr in
  let all_aggr_list := sorted Z.leb NAAggr.usage all_aggr in
  min_usage_aggr ← lift (first_item all_aggr_list);
  max_usage_aggr ← lift (last_item all_aggr_list);
  q ← lift (div_int rnd total_used total_capacity);
  let avg_aggr_usage := mul rnd q (of_int 100) in
  log_info (MinAggrUsage (NAAggr.usage min_usage_aggr) (NAAggr.name min_usage_aggr));;
  log_info (MaxAggrUsage (NAAggr.usage max_usage_aggr) (NAAggr.name max_usage_aggr));;
  log_info (AvgAggrUsage avg_aggr_usage);;
  mret (max_usage_aggr, avg_aggr_usage).

(** [sanity_checks]: written for the datastore-level balancer, whose call
    to it is commented out in the source. *)
Definition sanity_checks (least_used_ds most_used_ds : ref)
    (min_usage_ max_usage_ : Q) (min_freespace_ min_max_difference_ : Z) : M bool :=
  most ← deref most_used_ds;
  least ← deref least_used_ds;
  if DS.is_below_usage most max_usage_ then
    log_info (MostUsedBelowMax (DS.name most) (DS.usage most) max_usage_);;
    mret false
  else if DS.is_above_usage least min_usage_ then
    log_info (LeastUsedAboveMin (DS.name least) (DS.usage least) min_usage_);;
    mret false
  else if DS.is_below_freespace least min_freespace_ then
    log_info (LeastUsedBelowFreespace (DS.name least)
                (div_const (of_int (DS.freespace least)) GiB) min_freespace_);;
    mret false
  else if Qltb (sub rnd (DS.usage most) (DS.usage least)) (of_int min_max_difference_) then
    log_info (UsagesTooClose (DS.name most) (DS.name least) min_max_difference_);;
    mret false
  else mret true.

(** ** Parts shared by the two balancing passes *)

(** The loop that logs every datastore with its largest shadow vms. *)
Fixpoint log_ds_and_shadow_vms (vm_info : list VM.t) (args : Args) (l : list ref) : M unit :=
  match l with
  | [] => mret tt
  | i :: l' =>
      d ← deref i;
      w ← get_world;
      if truthy (ds_denylist w)
         && bool_decide (DS.name d ∈ default [] (ds_denylist w))
      then
        log_info (DsIgnored (DS.name d) (DS.usage d)
                    (div_const (of_int (DS.freespace d)) GiB))
      else
        log_info (DsLine (DS.name d) (DS.usage d)
                    (div_const (of_int (DS.freespace d)) GiB));;
        shadow_vms ← get_shadow_vms vm_info (DS.vm_handles d);
        for_each (sort_vms_by_total_disksize shadow_vms) 0 (fun j printed =>
          if printed <? print_max args then
            log_info (ShadowVmLine (VM.name j)
                        (div_const (of_int (VM.get_total_disksize j)) GiB));;
            mret (printed + 1)
          else mret printed);;
        log_ds_and_shadow_vms vm_info args l'
  end.

(** [l.extend(names)] on the list a variable is bound to. *)
Definition extend (v : listvar) (names : list string) : M listvar :=
  match v with
  | ArgsDenylist =>
      modify (fun w => set_ds_denylist (option_map (fun l => l ++ names) (ds_denylist w)) w);;
      mret ArgsDenylist
  | OwnList l => mret (OwnList (l ++ names))
  end.

Definition read (v : listvar) : M (list string) :=
  match v with
  | ArgsDenylist => w ← get_world; mret (default [] (ds_denylist w))
  | OwnList l => mret l
  end.

(** The deny list of a pass: [args.ds_denylist] itself when it is given,
    else a new list, extended by the luns of the most used aggregate. *)
Definition extended_ds_denylist (max_usage_aggr : NAAggr.t) : M (list string) :=
  w ← get_world;
  let v := if truthy (ds_denylist w) then ArgsDenylist else OwnList [] in
  v' ← extend v (map NALun.name (NAAggr.luns max_usage_aggr));
  read v'.

(** What a pass returns: [False], or nothing. *)
Inductive retval : Type := ReturnFalse | ReturnNone.

(** ** Pool-level balancer *)

(** [balancing_source_ds.sort(key=lambda ds: ds.usage)]: the keys are read
    first, and [None] has no [usage]. *)
Fixpoint source_keys (l : list (option ref)) : M (list (ref * DS.t)) :=
  match l with
  | [] => mret []
  | None :: _ => raise AttributeError
  | Some r :: l' => d ← deref r; rest ← source_keys l'; mret ((r, d) :: rest)
  end.

(** The datastores behind the luns of the most used aggregate that are
    vmfs and of the wanted medium, least used first. *)
Definition find_balancing_source_ds (args : Args) (max_usage_aggr : NAAggr.t)
    : M (list ref) :=
  balancing_source_ds ←
    for_each (NAAggr.luns max_usage_aggr) [] (fun lun acc =>
      match NALun.type lun with
      | vvol => mret acc
      | vmfs =>
          if lun_name_re (hdd args) (NALun.name lun) then
            log_info (SourceLun (NALun.name lun));;
            found ← get_by_name (NALun.name lun);
            mret (acc ++ [found])
          else mret acc
      end);
  keyed ← source_keys balancing_source_ds;
  mret (map fst (sorted Qle_bool (fun rd => DS.usage (snd rd)) keyed)).

(** Is this shadow vm of a size the pool-level balancer may move? *)
Definition aggr_movable (args : Args) (least_used_ds_free_space : Z) (vm : VM.t) : bool :=
  let vm_disksize := div_const (of_int (VM.get_total_disksize vm)) GiB in
  Qle_bool (of_int (aggr_volume_min_size args)) vm_disksize
  && Qle_bool vm_disksize
       (min (div_const (of_int least_used_ds_free_space) GiB)
            (of_int (aggr_volume_max_size args))).

(** One turn of the balancing loop of [vmfs_aggr_balancing]; the loop's
    variables are [moves_done] and [moved_size]. *)
Definition aggr_balancing_step (vm_info : list VM.t) (args : Args)
    (ds_weight : gmap string Q) (size_to_free_on_max_used_aggr : Q)
    (most_used_ds_on_most_used_aggr : ref) (ds_overall_average_usage : Q)
    (vars : Z * Z) : M (flow (Z * Z)) :=
  let moves_done := fst vars in
  let moved_size := snd vars in
  if max_move_vms args <? moves_done then
    log_info MaxMovesReachedAggr;; mret Break
  else if Qltb size_to_free_on_max_used_aggr (of_int moved_size) then
    log_info EnoughFreedFromAggr;; mret Break
  else
    source ← deref most_used_ds_on_most_used_aggr;
    if Qltb (DS.usage source)
            (sub rnd ds_overall_average_usage (of_int (4 * autopilot_range args)))
    then log_info EnoughFreedFromDs;; mret Break
    else
      sort_by_usage ds_weight;;
      w ← get_world;
      least_used_ds ← lift (last_item (elements w));
      least ← deref least_used_ds;
      let least_used_ds_free_space := DS.freespace least - min_freespace args * GiB in
      shadow_vms ← get_shadow_vms vm_info (DS.vm_handles source);
      match filter (fun vm => aggr_movable args least_used_ds_free_space vm = true)
                   shadow_vms with
      | [] => log_warning (NoMoreShadowVmsOnAggr (DS.name source));; mret Break
      | vm :: vms =>
          largest ← lift (first_item (sort_vms_by_total_disksize (vm :: vms)));
          move_shadow_vm_from_ds_to_ds most_used_ds_on_most_used_aggr
                                       least_used_ds largest;;
          sort_by_usage ∅;;
          mret (Continue (moves_done + 1, moved_size + VM.get_total_disksize largest))
      end.

(** The balancing loop of [vmfs_aggr_balancing]. *)
Definition aggr_balancing_loop (fuel : nat) (vm_info : list VM.t) (args : Args)
    (ds_weight : gmap string Q) (size_to_free_on_max_used_aggr : Q)
    (most_used_ds_on_most_used_aggr : ref) (ds_overall_average_usage : Q)
    (moves_done moved_size : Z) : M unit :=
  while_true fuel
    (aggr_balancing_step vm_info args ds_weight size_to_free_on_max_used_aggr
       most_used_ds_on_most_used_aggr ds_overall_average_usage)
    (moves_done, moved_size).

(** What both passes do between the first [vmfs_ds()] and the loop: the
    average usage, the listing, the deny list and the second [vmfs_ds]. *)
Definition prepare_pass (vm_info : list VM.t) (args : Args) (max_usage_aggr : NAAggr.t)
    : M Q :=
  ds_overall_average_usage ← get_overall_average_usage;
  f ← get_overall_freespace;
  c ← get_overall_capacity;
  log_info (AverageUsage ds_overall_average_usage
              (div_const (of_int f) GiB) (div_const (of_int c) GiB));;
  w ← get_world;
  log_ds_and_shadow_vms vm_info args (elements w);;
  denylist ← extended_ds_denylist max_usage_aggr;
  vmfs_ds denylist;;
  mret ds_overall_average_usage.

(** [vmfs_aggr_balancing] *)
Definition vmfs_aggr_balancing (fuel : nat) (na_info : list NA.t)
    (vm_info : list VM.t) (args : Args) : M retval :=
  ds_weight ← get_aggr_and_ds_stats na_info;
  '(max_usage_aggr, avg_aggr_usage) ← get_max_usage_aggr na_info;
  let size_to_free_on_max_used_aggr :=
    div_const (mul rnd (sub rnd (of_int (NAAggr.usage max_usage_aggr)) avg_aggr_usage)
                       (to_float rnd (NAAggr.capacity max_usage_aggr))) 100 in
  if Qltb (of_int (NAAggr.usage max_usage_aggr))
          (add rnd avg_aggr_usage (of_int (autopilot_range args)))
  then
    log_info AggrWithinAutopilotRange;;
    mret ReturnFalse
  else
    log_info AggrBalancingRequired;;
    balancing_source_ds ← find_balancing_source_ds args max_usage_aggr;
    most_used_ds_on_most_used_aggr ← lift (last_item balancing_source_ds);
    vmfs_ds [];;
    sort_by_usage ∅;;
    w ← get_world;
    match elements w with
    | [] => log_warning NoVmfsDs;; mret ReturnNone
    | _ :: _ =>
        ds_overall_average_usage ← prepare_pass vm_info args max_usage_aggr;
        aggr_balancing_loop fuel vm_info args ds_weight
          size_to_free_on_max_used_aggr most_used_ds_on_most_used_aggr
          ds_overall_average_usage 0 0;;
        mret ReturnNone
    end.

(** ** Datastore-level balancer *)

(** Is this shadow vm of a size the datastore-level balancer may move?
    The maximum shrinks with the gap of free space between the two
    datastores. *)
Definition vm_maxdisksize (args : Args) (least_free most_free : Z) : Q :=
  min (div_const (of_int (least_free - most_free)) (2 * GiB))
      (of_int (flexvol_volume_max_size args)).

Definition ds_movable (args : Args) (least_free most_free : Z) (vm : VM.t) : bool :=
  let vm_disksize := div_const (of_int (VM.get_total_disksize vm)) GiB in
  Qle_bool (of_int (flexvol_volume_min_size args)) vm_disksize
  && Qle_bool vm_disksize (vm_maxdisksize args least_free most_free).

(** One turn of the balancing loop of [vmfs_ds_balancing]; the loop's
    variable is [moves_done]. *)
Definition ds_balancing_step (vm_info : list VM.t) (args : Args)
    (ds_weight : gmap string Q) (moves_done : Z) : M (flow Z) :=
  if max_move_vms args <? moves_done then
    log_info MaxMovesReachedDs;; mret Break
  else
    w ← get_world;
    most_used_ds ← lift (first_item (elements w));
    sort_by_usage ds_weight;;
    w' ← get_world;
    least_used_ds ← lift (last_item (elements w'));
    most ← deref most_used_ds;
    least ← deref least_used_ds;
    shadow_vms ← get_shadow_vms vm_info (DS.vm_handles most);
    match filter (fun vm => ds_movable args (DS.freespace least) (DS.freespace most) vm = true)
                 shadow_vms with
    | [] => log_warning (NoMoreShadowVmsOnDs (DS.name most));; mret Break
    | vm :: vms =>
        largest ← lift (first_item (sort_vms_by_total_disksize (vm :: vms)));
        move_shadow_vm_from_ds_to_ds most_used_ds least_used_ds largest;;
        sort_by_usage ∅;;
        mret (Continue (moves_done + 1))
    end.

(** The balancing loop of [vmfs_ds_balancing]. *)
Definition ds_balancing_loop (fuel : nat) (vm_info : list VM.t) (args : Args)
    (ds_weight : gmap string Q) (moves_done : Z) : M unit :=
  while_true fuel (ds_balancing_step vm_info args ds_weight) moves_done.

(** The corridor [min_usage, max_usage] of [vmfs_ds_balancing]. *)
Definition corridor (args : Args) (ds_overall_average_usage : Q) : Q * Q :=
  if autopilot args then
    (sub rnd ds_overall_average_usage (of_int (autopilot_range args)),
     add rnd ds_overall_average_usage (of_int (autopilot_range args)))
  else (of_int (min_usage args), of_int (max_usage args)).

(** [vmfs_ds_balancing] *)
Definition vmfs_ds_balancing (fuel : nat) (na_info : list NA.t)
    (vm_info : list VM.t) (args : Args) : M retval :=
  ds_weight ← get_aggr_and_ds_stats na_info;
  '(max_usage_aggr, avg_aggr_usage) ← get_max_usage_aggr na_info;
  vmfs_ds [];;
  sort_by_usage ∅;;
  w ← get_world;
  match elements w with
  | [] => log_warning NoVmfsDs;; mret ReturnNone
  | _ :: _ =>
      ds_overall_average_usage ← prepare_pass vm_info args max_usage_aggr;
      let '(min_usage_, max_usage_) := corridor args ds_overall_average_usage in
      ds_balancing_loop fuel vm_info args ds_weight 0;;
      mret ReturnNone
  end.

(** ** Control loop *)

(** What one pass fetches from the vCenter and the storage controllers. *)
Record Inventory : Type := {
  inv_vms : list VM.t;
  inv_datastores : list DS.element;
  inv_netapps : list NA.t
}.

(** One run of the body of [check_loop]: both passes, each on an inventory
    fetched just before it. *)
Definition check_loop_run (fuel : nat) (args : Args) (first second : Inventory) : M unit :=
  DataStores_init (inv_datastores first);;
  vmfs_aggr_balancing fuel (inv_netapps first) (inv_vms first) args;;
  DataStores_init (inv_datastores second);;
  vmfs_ds_balancing fuel (inv_netapps second) (inv_vms second) args;;
  mret tt.

(** [check_loop], for as many runs as there are inventories. *)
Fixpoint check_loop (fuel : nat) (args : Args) (fetched : list (Inventory * Inventory))
    : M unit :=
  match fetched with
  | [] => mret tt
  | (first, second) :: rest =>
      check_loop_run fuel args first second;;
      check_loop fuel args rest
  end.

End Balancer.

(** * Vocabulary of the properties *)

Section Vocabulary.

Variable rnd : Q -> Q.

(** The value of [(1 - freespace / capacity) * 100] when it has one. *)
Definition usage_value (freespace capacity : Z) : Q :=
  mul rnd (sub rnd (of_int 1) (rnd (of_int freespace / of_int capacity))) (of_int 100).

(** The invariant of a datastore: its usage is the one its free space and
    capacity give. *)
Definition usage_recomputed (d : DS.t) : Prop :=
  DS.usage_of rnd (DS.freespace d) (DS.capacity d) = Ok (DS.usage d).

(** The object after [add_shadow_vm], before its usage is recomputed. *)
Definition with_vm (vm : VM.t) (d : DS.t) : DS.t :=
  DS.set_vm_handles (DS.vm_handles d ++ [VM.handle vm])
    (DS.set_freespace (DS.freespace d - VM.get_total_disksize vm) d).

(** The object after [remove_shadow_vm], before its usage is recomputed. *)
Definition without_vm (vm : VM.t) (hs : list moref) (d : DS.t) : DS.t :=
  DS.set_freespace (DS.freespace d + VM.get_total_disksize vm)
    (DS.set_vm_handles hs d).

(** The free space of all datastores together. *)
Definition total_freespace (h : list DS.t) : Z :=
  foldr (fun d acc => DS.freespace d + acc) 0 h.

(** The datastore [get_by_name] finds: the first of the given references
    whose object has the name. *)
Fixpoint ds_named (h : list DS.t) (ds_name : string) (l : list ref)
    : option (ref * DS.t) :=
  match l with
  | [] => None
  | r :: l' =>
      match h !! r with
      | Some d => if String.eqb (DS.name d) ds_name then Some (r, d)
                  else ds_named h ds_name l'
      | None => None
      end
  end.

(** A lun is matched when a datastore has its name. *)
Definition lun_matched (h : list DS.t) (els : list ref) (lun : NALun.t) : bool :=
  match ds_named h (NALun.name lun) els with Some _ => true | None => false end.

(** The datastore that matches a lun, if any, has used bytes. *)
Definition lun_used_nonzero (h : list DS.t) (els : list ref) (lun : NALun.t) : bool :=
  match ds_named h (NALun.name lun) els with
  | Some (_, d) => negb (DS.used d =? 0)
  | None => true
  end.

(** The precondition of [get_aggr_and_ds_stats] on one aggregate and on
    all of them: every matched datastore has used bytes, and every
    aggregate has a matched lun. *)
Definition aggr_precondition (h : list DS.t) (els : list ref) (aggr : NAAggr.t) : bool :=
  forallb (lun_used_nonzero h els) (NAAggr.luns aggr)
  && existsb (lun_matched h els) (NAAggr.luns aggr).

Definition stats_precondition (h : list DS.t) (els : list ref) (na_info : list NA.t) : bool :=
  forallb (fun na => forallb (aggr_precondition h els) (NA.na_aggr_elements na)) na_info.

(** The body of the loop over the luns of an aggregate, as a function of
    the store it reads. *)
Definition lun_stats (h : list DS.t) (els : list ref) (aggr : NAAggr.t) (lun : NALun.t)
    (acc : Z * Z * gmap string Q) : outcome (Z * Z * gmap string Q) :=
  match ds_named h (NALun.name lun) els with
  | Some (_, ds) =>
      q ← div rnd (of_int (DS.used ds)) (of_int (DS.capacity ds));
      weight ← div rnd (of_int (NAAggr.usage aggr)) (mul rnd q (of_int 100));
      mret (acc.1.1 + DS.capacity ds, acc.1.2 + DS.used ds,
            <[NALun.name lun := weight]> acc.2)
  | None => Ok acc
  end.

Fixpoint luns_stats (h : list DS.t) (els : list ref) (aggr : NAAggr.t)
    (luns : list NALun.t) (acc : Z * Z * gmap string Q)
    : outcome (Z * Z * gmap string Q) :=
  match luns with
  | [] => Ok acc
  | lun :: luns' =>
      match lun_stats h els aggr lun acc with
      | Ok acc' => luns_stats h els aggr luns' acc'
      | Raise e => Raise e
      | OutOfFuel => OutOfFuel
      end
  end.

(** The data model: capacities are positive numbers of bytes. *)
Definition positive_capacities (h : list DS.t) : Prop :=
  Forall (fun d => 0 < DS.capacity d) h.

(** Rounding is sane at zero: it rounds zero, and only zero, to zero. *)
Definition sane_at_zero : Prop :=
  forall x : Q, (rnd x == 0)%Q <-> (x == 0)%Q.

(** [w'] is [w] with more records in the log, and nothing else changed. *)
Definition logged (w w' : World) : Prop :=
  exists l, w' = set_log (log w ++ l) w.

(** The records of a decision: the three that a move logs. *)
Definition is_decision (r : LogRecord) : bool :=
  match msg r with
  | MoveVm _ _ _ _ | MoveUsage _ _ _ _ | Svmotion _ _ => true
  | _ => false
  end.

(** The number of moves a log tells of: one [svmotion] command each. *)
Fixpoint moves_in (l : list LogRecord) : nat :=
  match l with
  | [] => 0
  | r :: l' => (match msg r with Svmotion _ _ => 1 | _ => 0 end + moves_in l')%nat
  end.

(** From [w] to [w'] no object changed its name, [ds_info.elements] got no
    new member, and the log grew by records that are not decisions. *)
Definition quietly (w w' : World) : Prop :=
  (DS.name <$> heap w') = (DS.name <$> heap w)
  /\ elements w' ⊆ elements w
  /\ exists l, log w' = log w ++ l /\ List.filter is_decision l = [].

(** The same, and [args.ds_denylist] is as it was. *)
Definition calmly (w w' : World) : Prop :=
  quietly w w' /\ ds_denylist w' = ds_denylist w.

(** A computation that ends, and ends calmly, whatever its outcome. *)
Definition calm {A : Type} (c : M A) : Prop :=
  forall w, fst (c w) <> OutOfFuel /\ calmly w (snd (c w)).

Definition quiet {A : Type} (c : M A) : Prop :=
  forall w, fst (c w) <> OutOfFuel /\ quietly w (snd (c w)).

(** A computation that only reads the world, and ends. *)
Definition reads {A : Type} (c : M A) : Prop :=
  forall w, fst (c w) <> OutOfFuel /\ snd (c w) = w.

(** The three records of a move of [vm] from the datastore named [n1] to
    the one named [n2]. *)
Definition decision_records (vm : string) (size : Q) (n1 n2 : string)
    (u1 u2 u3 u4 : Q) : list LogRecord :=
  [ {| levelname := INFO; msg := MoveVm vm size n1 n2 |};
    {| levelname := INFO; msg := MoveUsage u1 u2 u3 u4 |};
    {| levelname := INFO; msg := Svmotion vm n2 |} ].

(** What one turn of a balancing loop does: it ends; no object changes its
    name, [ds_info.elements] gets no new member and [args.ds_denylist] is
    untouched; and either no decision is logged and the loop does not go
    on, or the cap was not passed, one move from a source to a member of
    [ds_info.elements] is logged, and the loop, if it goes on, does so
    with one move more on its count. *)
Definition turn {St : Type} (moves_done : St -> Z) (cap : Z)
    (is_source : World -> ref -> Prop) (s : St)
    (w : World) (o : outcome (flow St)) (w' : World) : Prop :=
  o <> OutOfFuel
  /\ (DS.name <$> heap w') = (DS.name <$> heap w)
  /\ elements w' ⊆ elements w
  /\ ds_denylist w' = ds_denylist w
  /\ exists l, log w' = log w ++ l
     /\ ((List.filter is_decision l = [] /\ forall s', o <> Ok (Continue s'))
         \/ (exists src tgt vm size n1 n2 u1 u2 u3 u4,
               moves_done s <= cap
               /\ (forall s', o = Ok (Continue s') -> moves_done s' = moves_done s + 1)
               /\ is_source w src
               /\ tgt ∈ elements w
               /\ (DS.name <$> heap w) !! src = Some n1
               /\ (DS.name <$> heap w) !! tgt = Some n2
               /\ List.filter is_decision l
                  = decision_records vm size n1 n2 u1 u2 u3 u4)).

(** A record of a move goes from a source to a member of
    [ds_info.elements], by the names the objects have in [w]. *)
Definition move_between (is_source : World -> ref -> Prop) (w : World) (r : LogRecord)
    : Prop :=
  match msg r with
  | MoveVm _ _ n1 n2 =>
      exists src tgt,
        is_source w src /\ tgt ∈ elements w
        /\ (DS.name <$> heap w) !! src = Some n1
        /\ (DS.name <$> heap w) !! tgt = Some n2
  | _ => True
  end.

(** What a balancing loop does, from a world [w] on: it ends when the fuel
    is more than [bound]; it logs at most [bound] moves, each between a
    source and a member of [ds_info.elements]. *)
Definition loop_effect (bound : nat) (is_source : World -> ref -> Prop)
    (w : World) (o : outcome unit) (w' : World) : Prop :=
  o <> OutOfFuel
  /\ (DS.name <$> heap w') = (DS.name <$> heap w)
  /\ elements w' ⊆ elements w
  /\ ds_denylist w' = ds_denylist w
  /\ exists l, log w' = log w ++ l
     /\ (moves_in l <= bound)%nat
     /\ Forall (move_between is_source w) l.

(** A computation that ends, and calmly so when it raises. *)
Definition fails_calmly {A : Type} (c : M A) : Prop :=
  forall w, fst (c w) <> OutOfFuel
            /\ ((exists a, fst (c w) = Ok a) \/ calmly w (snd (c w))).

(** The most used aggregate: the last of all aggregates, sorted by usage. *)
Definition max_usage_aggr_of (na_info : list NA.t) : option NAAggr.t :=
  last (sorted Z.leb NAAggr.usage (flat_map NA.na_aggr_elements na_info)).

(** The names of the luns of the most used aggregate. *)
Definition max_usage_luns (na_info : list NA.t) : list string :=
  match max_usage_aggr_of na_info with
  | Some aggr => map NALun.name (NAAggr.luns aggr)
  | None => []
  end.

(** The derived deny list of a pass: the configured one, when it is given
    and not empty, and then the given names. *)
Definition derived_denylist (configured : option (list string)) (names : list string)
    : list string :=
  (if truthy configured then default [] configured else []) ++ names.

(** What the deny-list step does to [args.ds_denylist]: the given names
    are appended to the list when it is given and not empty, and nothing
    changes otherwise. *)
Definition denylist_extended (configured : option (list string)) (names : list string)
    : option (list string) :=
  if truthy configured then option_map (fun l => l ++ names) configured else configured.

(** The datastore the filter [vmfs_ds] keeps. *)
Definition kept_by_vmfs_ds (ds_denylist_ : list string) (ds : DS.t) : bool :=
  ds_name_regex_pattern (DS.name ds)
  && negb (match ds_denylist_ with [] => false | _ => true end
           && bool_decide (DS.name ds ∈ ds_denylist_)).

(** A record of a move whose source is on the deny list and whose target
    is not. *)
Definition from_denied_to_allowed (denylist : list string) (r : LogRecord) : Prop :=
  match msg r with
  | MoveVm _ _ n1 n2 => (n1 ∈ denylist) /\ (n2 ∉ denylist)
  | _ => True
  end.

(** A record of a move whose source and target are both off the deny list. *)
Definition between_allowed (denylist : list string) (r : LogRecord) : Prop :=
  match msg r with
  | MoveVm _ _ n1 n2 => (n1 ∉ denylist) /\ (n2 ∉ denylist)
  | _ => True
  end.

(** What a balancing pass does: it ends; [args.ds_denylist] is as before or
    extended by the names; the log grows, by at most [bound] moves, each of
    which is [good]. *)
Definition pass_effect (bound : nat) (good : LogRecord -> Prop) (names : list string)
    {A : Type} (w : World) (o : outcome A) (w' : World) : Prop :=
  o <> OutOfFuel
  /\ (ds_denylist w' = ds_denylist w
      \/ ds_denylist w' = denylist_extended (ds_denylist w) names)
  /\ exists l, log w' = log w ++ l
     /\ (moves_in l <= bound)%nat
     /\ Forall good l.

(** A datastore behind a lun of the aggregate, by the names in [w]. *)
Definition behind_lun_of (max_usage_aggr : NAAggr.t) (w : World) (r : ref) : Prop :=
  exists n, (DS.name <$> heap w) !! r = Some n
            /\ n ∈ map NALun.name (NAAggr.luns max_usage_aggr).

(** The moves a log tells of: the vm, the source and the target of each. *)
Definition moves_of (l : list LogRecord) : list (string * string * string) :=
  omap (fun r => match msg r with
                 | MoveVm vm _ n1 n2 => Some (vm, n1, n2)
                 | _ => None
                 end) l.

(** The log of [w'] is the log of [w] and, after it, [l]. *)
Definition log_since (w w' : World) (l : list LogRecord) : Prop :=
  log w' = log w ++ l.

(** The [DS] object of a datastore the vCenter returned, field by field:
    its usage is [(1 - freeSpace / capacity) * 100]. *)
Definition built_from (e : DS.element) : DS.t :=
  {| DS.name := DS.e_name e;
     DS.freespace := DS.e_freeSpace e;
     DS.capacity := DS.e_capacity e;
     DS.used := DS.e_capacity e - DS.e_freeSpace e;
     DS.usage := usage_value (DS.e_freeSpace e) (DS.e_capacity e);
     DS.vm_handles := DS.e_vm e;
     DS.ds_handle := DS.e_obj e |}.

(** The records [DataStores.__init__] logs: one for each datastore of
    capacity zero, in their order. *)
Definition zero_capacity_records (ds_elements : list DS.element) : list LogRecord :=
  map (fun e => {| levelname := INFO; msg := DsZeroCapacity (DS.e_name e) |})
      (filter (fun e => DS.e_capacity e = 0) ds_elements).

(** The key [sort_by_usage] sorts by: the usage, times the weight of the
    datastore when it has one. *)
Definition weighted_usage (ds_weight : gmap string Q) (d : DS.t) : Q :=
  mul rnd (DS.usage d) (default (of_int 1) (ds_weight !! DS.name d)).

(** The sum of a quantity over [ds_info.elements]. *)
Definition overall (f : DS.t -> Z) (w : World) : Z :=
  foldr (fun r acc => from_option f 0 (heap w !! r) + acc) 0 (elements w).

(** A computation that returns, and does nothing but log. *)
Definition only_logs {A : Type} (c : M A) : Prop :=
  forall w, exists a l, c w = (Ok a, set_log (log w ++ l) w).

(** All aggregates of all storage controllers, and their capacity. *)
Definition all_aggregates (na_info : list NA.t) : list NAAggr.t :=
  flat_map NA.na_aggr_elements na_info.

Definition total_aggr_capacity (na_info : list NA.t) : Z :=
  foldr (fun aggr acc => NAAggr.capacity aggr + acc) 0 (all_aggregates na_info).

(** A lun the source search of the pool-level pass takes up: a vmfs lun
    of the medium asked for. *)
Definition source_candidate (args : Args) (lun : NALun.t) : bool :=
  match NALun.type lun with
  | vvol => false
  | vmfs => lun_name_re (hdd args) (NALun.name lun)
  end.

(** A record of a move that leaves the datastore of the given name. *)
Definition moved_from (source : string) (r : LogRecord) : Prop :=
  match msg r with
  | MoveVm _ _ n1 _ => n1 = source
  | _ => True
  end.

(** A computation that, whatever its outcome, leaves the world as it was
    but for records added to the log. *)
Definition keeps_store {A : Type} (c : M A) : Prop :=
  forall w, logged w (snd (c w)).

(** The datastore named [source] is the most used one the source search
    of the pool-level pass can find in [w]: it is the datastore of its
    name that [get_by_name] finds, for a vmfs lun of the wanted medium of
    a most used aggregate (the last of those of the highest usage), and
    no datastore found for such a lun of this aggregate has a higher
    usage. *)
Definition most_used_source (na_info : list NA.t) (args : Args) (w : World)
    (source : string) : Prop :=
  exists aggr before after lun r d,
    all_aggregates na_info = before ++ aggr :: after
    /\ (forall a, a ∈ before -> NAAggr.usage a <= NAAggr.usage aggr)
    /\ (forall a, a ∈ after -> NAAggr.usage a < NAAggr.usage aggr)
    /\ lun ∈ NAAggr.luns aggr
    /\ source_candidate args lun = true
    /\ NALun.name lun = source
    /\ ds_named (heap w) source (elements w) = Some (r, d)
    /\ forall lun' r' d',
         lun' ∈ NAAggr.luns aggr -> source_candidate args lun' = true ->
         ds_named (heap w) (NALun.name lun') (elements w) = Some (r', d') ->
         (DS.usage d' <= DS.usage d)%Q.
(** The average usage of the aggregates in percent, weighted by capacity:
    the used share of each aggregate times its capacity, summed up in the
    order of the inventory, over the sum of the capacities; every
    operation is one of floats. *)
Definition average_aggr_usage (na_info : list NA.t) : Q :=
  let total_used :=
    foldl (fun acc aggr =>
             add rnd acc (mul rnd (div_const rnd (of_int (NAAggr.usage aggr)) 100)
                                  (to_float rnd (NAAggr.capacity aggr))))
          (of_int 0) (all_aggregates na_info) in
  mul rnd (rnd (total_used / to_float rnd (total_aggr_capacity na_info))) (of_int 100).

(** The three records of [get_max_usage_aggr]: the least and the most used
    aggregate, and the average. *)
Definition max_usage_records (least most : NAAggr.t) (average : Q) : list LogRecord :=
  [ {| levelname := INFO; msg := MinAggrUsage (NAAggr.usage least) (NAAggr.name least) |};
    {| levelname := INFO; msg := MaxAggrUsage (NAAggr.usage most) (NAAggr.name most) |};
    {| levelname := INFO; msg := AvgAggrUsage average |} ].

(** The records of a pool-level pass that stops at its gate, after those
    of the first statistics: these three, and the verdict. *)
Definition gate_records (least most : NAAggr.t) (average : Q) : list LogRecord :=
  max_usage_records least most average
  ++ [ {| levelname := INFO; msg := AggrWithinAutopilotRange |} ].


(** The damped maximum of the datastore-level balancer, in GiB, for a gap
    of free space in bytes between the least and the most used
    datastore: half the gap, but not more than the configured size. *)
Definition damped_maximum (gap max_size : Z) : Q :=
  min (rnd (of_int gap / of_int (2 * GiB))) (of_int max_size).

(** Rounding keeps the order, as rounding to the nearest float does. *)
Definition monotone_rounding : Prop :=
  forall x y : Q, (x <= y)%Q -> (rnd x <= rnd y)%Q.

(** The usages a log tells of: of the source before and after, and of the
    target before and after each move. *)
Definition usages_of (l : list LogRecord) : list (Q * Q * Q * Q) :=
  omap (fun r => match msg r with
                 | MoveUsage u1 u2 u3 u4 => Some (u1, u2, u3, u4)
                 | _ => None
                 end) l.

(** What [binary64] makes of a positive fraction [a / d]: the mantissa
    times two to the exponent. *)
Definition magnitude (a d : Z) : Q :=
  (inject_Z (round_half_even (fst (scaled a d (exponent a d)))
                             (snd (scaled a d (exponent a d))))
   * Qpower 2 (exponent a d))%Q.

End Vocabulary.

(** * Concrete inventories

    Small inventories on which the engine is run below, with [binary64]
    as the arithmetic of floats. *)

Definition GB (n : Z) : Z := n * GiB.

Definition datastore (name : string) (free capacity : Z) (vms : list moref) (obj : moref)
    : DS.element :=
  {| DS.e_name := name; DS.e_freeSpace := free; DS.e_capacity := capacity;
     DS.e_vm := vms; DS.e_obj := obj |}.

(** A shadow vm: 128 MB, one CPU, powered off, one disk, no network card. *)
Definition shadow_vm (name : string) (size : Z) (obj : moref) : VM.t :=
  {| VM.name := name; VM.memoryMB := 128; VM.numCPU := 1;
     VM.devices := [VirtualDisk size]; VM.powerState := "poweredOff";
     VM.handle := obj |}.

Definition vmfs_lun (name : string) : NALun.t :=
  {| NALun.fvol := "vmfs_flexvol"; NALun.host := "stnpca1-bb001";
     NALun.used := 0; NALun.path := "/vol/vmfs_flexvol/" ++ name;
     NALun.comment := ""; NALun.name := name; NALun.type := vmfs |}.

Definition aggregate (name : string) (usage capacity : Z) (luns : list string) : NAAggr.t :=
  {| NAAggr.name := name; NAAggr.host := "stnpca1-bb001"; NAAggr.usage := usage;
     NAAggr.capacity := capacity; NAAggr.fvols := [];
     NAAggr.luns := map vmfs_lun luns |}.

Definition netapp (aggrs : list NAAggr.t) : NA.t :=
  {| NA.host := "stnpca1-bb001"; NA.na_aggr_elements := aggrs |}.

(** The defaults of the command line. *)
Definition default_args : Args :=
  {| min_usage := 60; max_usage := 0; min_freespace := 2500; min_max_difference := 2;
     autopilot := false; autopilot_range := 5; max_move_vms := 5; print_max := 10;
     aggr_volume_min_size := 0; aggr_volume_max_size := 2500;
     flexvol_volume_min_size := 0; flexvol_volume_max_size := 2500; hdd := false |}.

Definition empty_world : World :=
  {| heap := []; elements := []; ds_denylist := None; log := [] |}.

Definition run_on {A : Type} (w : World) (c : M A) : outcome A * World := c w.

Definition ds_001 : string := "vmfs_vc_a_0_p_ssd_bb001_001".
Definition ds_002 : string := "vmfs_vc_a_0_p_ssd_bb001_002".
Definition ds_003 : string := "vmfs_vc_a_0_p_ssd_bb001_003".
Definition ds_004 : string := "vmfs_vc_a_0_p_ssd_bb001_004".
Definition ds_005 : string := "vmfs_vc_a_0_p_ssd_bb001_005".

(** Two datastores of 1000 GB, the first 90% used and home of a shadow vm
    of 50 GB, the second 40% used. *)
Definition volume_50 : VM.t := shadow_vm "volume-50" (GB 50) 7%nat.

Definition two_datastores : World :=
  snd (run_on empty_world
         (DataStores_init binary64
            [datastore ds_001 (GB 100) (GB 1000) [7%nat] 1%nat;
             datastore ds_002 (GB 600) (GB 1000) [] 2%nat])).

(** Three datastores of 1000 GB: 90% and 40% used, and one that is empty. *)
Definition three_datastores : World :=
  snd (run_on empty_world
         (DataStores_init binary64
            [datastore ds_001 (GB 100) (GB 1000) [7%nat] 1%nat;
             datastore ds_002 (GB 600) (GB 1000) [] 2%nat;
             datastore ds_003 (GB 1000) (GB 1000) [] 3%nat])).

(** Two pools whose luns are the first two datastores. *)
Definition pools_matched : list NA.t :=
  [netapp [aggregate "aggr_ssd_01" 70 (GB 2000) [ds_001];
           aggregate "aggr_ssd_02" 40 (GB 2000) [ds_002]]].

(** A pool whose lun is the empty datastore. *)
Definition pool_of_empty_datastore : list NA.t :=
  [netapp [aggregate "aggr_ssd_03" 10 (GB 2000) [ds_003]]].

(** A pool whose only lun has the name of no datastore. *)
Definition pool_unmatched : list NA.t :=
  [netapp [aggregate "aggr_ssd_04" 50 (GB 2000) ["vmfs_vc_a_0_p_ssd_bb009_001"]]].

(** An inventory for the pool-level pass: the pool [aggr_ssd_01] is 80%
    used and backs the datastores 001 and 004; the most used of the two,
    001, is home of two shadow vms of 50 GB and 20 GB. *)
Definition volume_20 : VM.t := shadow_vm "volume-20" (GB 20) 8%nat.

Definition pool_inventory : Inventory :=
  {| inv_vms := [volume_50; volume_20];
     inv_datastores :=
       [datastore ds_001 (GB 100) (GB 1000) [7%nat; 8%nat] 1%nat;
        datastore ds_002 (GB 5000) (GB 10000) [] 2%nat;
        datastore ds_003 (GB 6000) (GB 10000) [] 3%nat;
        datastore ds_004 (GB 300) (GB 1000) [] 4%nat];
     inv_netapps :=
       [netapp [aggregate "aggr_ssd_01" 80 (GB 1000) [ds_001; ds_004];
                aggregate "aggr_ssd_02" 40 (GB 3000) [ds_002; ds_003]]] |}.

(** A world whose configured deny list names one datastore, which is not
    in the inventory. *)
Definition configured_world : World :=
  {| heap := []; elements := []; ds_denylist := Some ["vmfs_vc_a_0_p_ssd_bb001_099"];
     log := [] |}.

Definition pool_pass_run : outcome retval * World :=
  run_on configured_world
    (DataStores_init binary64 (inv_datastores pool_inventory);;
     vmfs_aggr_balancing binary64 10 (inv_netapps pool_inventory)
       (inv_vms pool_inventory) default_args).

(** Two cycles of the control loop, each fetching the same inventory
    before each of its passes. *)
Definition two_cycles_run : outcome unit * World :=
  run_on configured_world
    (check_loop binary64 10 default_args
       [(pool_inventory, pool_inventory); (pool_inventory, pool_inventory)]).

(** The inventory of the pool-level pass again, but for the usage of the
    pools, which is 50% and 48%: with the range of 5, the most used pool
    is within the range above the average. *)
Definition balanced_pools : list NA.t :=
  [netapp [aggregate "aggr_ssd_01" 50 (GB 1000) [ds_001; ds_004];
           aggregate "aggr_ssd_02" 48 (GB 3000) [ds_002; ds_003]]].

Definition balanced_pools_world : World :=
  snd (run_on configured_world (DataStores_init binary64 (inv_datastores pool_inventory))).

Definition balanced_pools_run : outcome retval * World :=
  run_on balanced_pools_world
    (vmfs_aggr_balancing binary64 10 balanced_pools (inv_vms pool_inventory) default_args).

(** The two statistics of that pass, run on their own. *)
Definition balanced_pools_stats : outcome (gmap string Q) * World :=
  run_on balanced_pools_world (get_aggr_and_ds_stats binary64 balanced_pools).

Definition balanced_pools_most : outcome (NAAggr.t * Q) * World :=
  run_on (snd balanced_pools_stats) (get_max_usage_aggr binary64 balanced_pools).

(** The result of a computation that is known to have one. *)
Definition result_of {A : Type} (d : A) (o : outcome A) : A :=
  match o with
  | Ok a => a
  | _ => d
  end.

(** The three datastores, with the second of them on the configured deny
    list. *)
Definition listed_world : World :=
  set_ds_denylist (Some [ds_002]) three_datastores.

(** The command line with [--hdd]. *)
Definition hdd_args : Args :=
  {| min_usage := 60; max_usage := 0; min_freespace := 2500; min_max_difference := 2;
     autopilot := false; autopilot_range := 5; max_move_vms := 5; print_max := 10;
     aggr_volume_min_size := 0; aggr_volume_max_size := 2500;
     flexvol_volume_min_size := 0; flexvol_volume_max_size := 2500; hdd := true |}.

(** The two statistics on the inventory of the pool-level pass. *)
Definition pool_stats : outcome (gmap string Q) * World :=
  run_on balanced_pools_world (get_aggr_and_ds_stats binary64 (inv_netapps pool_inventory)).

Definition pool_most : outcome (NAAggr.t * Q) * World :=
  run_on (snd pool_stats) (get_max_usage_aggr binary64 (inv_netapps pool_inventory)).

(** An inventory without a vmfs datastore of the vCenter's naming: one
    datastore of another name, and the pool behind it. *)
Definition legacy_world : World :=
  snd (run_on empty_world
         (DataStores_init binary64
            [datastore "vmfs_legacy_001" (GB 100) (GB 1000) [] 1%nat])).

Definition legacy_pools : list NA.t :=
  [netapp [aggregate "aggr_legacy" 50 (GB 1000) ["vmfs_legacy_001"]]].

Definition legacy_stats : outcome (gmap string Q) * World :=
  run_on legacy_world (get_aggr_and_ds_stats binary64 legacy_pools).

Definition legacy_most : outcome (NAAggr.t * Q) * World :=
  run_on (snd legacy_stats) (get_max_usage_aggr binary64 legacy_pools).

(** The command line with [--min-freespace 100]. *)
Definition roomy_args : Args :=
  {| min_usage := 60; max_usage := 0; min_freespace := 100; min_max_difference := 2;
     autopilot := false; autopilot_range := 5; max_move_vms := 5; print_max := 10;
     aggr_volume_min_size := 0; aggr_volume_max_size := 2500;
     flexvol_volume_min_size := 0; flexvol_volume_max_size := 2500; hdd := false |}.

(** One turn of each balancing loop on the two datastores. *)
Definition pool_turn_run : outcome (flow (Z * Z)) * World :=
  aggr_balancing_step binary64 [volume_50] roomy_args ∅ 1000 0 65 (0, 0) two_datastores.

Definition ds_turn_run : outcome (flow Z) * World :=
  ds_balancing_step binary64 [volume_50] default_args ∅ 0 two_datastores.








(** An inventory for the damping of the datastore-level pass: the most
    used pool backs the datastore 001; the datastore 002, of 128 GB and
    87.5% used, is home of two shadow vms of 50 GB and 20 GB; 003, of
    200 GB, is 12.5% used, and 004, of 10000 GB, is 25% used. *)
Definition damping_datastores : list DS.element :=
  [datastore ds_001 (GB 500) (GB 1000) [] 1%nat;
   datastore ds_002 (GB 16) (GB 128) [7%nat; 8%nat] 2%nat;
   datastore ds_003 (GB 175) (GB 200) [] 3%nat;
   datastore ds_004 (GB 7500) (GB 10000) [] 4%nat].

Definition damping_pools : list NA.t :=
  [netapp [aggregate "aggr_ssd_01" 80 (GB 1000) [ds_001];
           aggregate "aggr_ssd_02" 70 (GB 128) [ds_002];
           aggregate "aggr_ssd_03" 12 (GB 200) [ds_003];
           aggregate "aggr_ssd_04" 25 (GB 10000) [ds_004]]].

(** The command line with [--max-move-vms 1]: two moves at most. *)
Definition damping_args : Args :=
  {| min_usage := 60; max_usage := 0; min_freespace := 2500; min_max_difference := 2;
     autopilot := false; autopilot_range := 5; max_move_vms := 1; print_max := 10;
     aggr_volume_min_size := 0; aggr_volume_max_size := 2500;
     flexvol_volume_min_size := 0; flexvol_volume_max_size := 2500; hdd := false |}.

Definition damping_world : World :=
  snd (run_on empty_world (DataStores_init binary64 damping_datastores)).

Definition damping_run : outcome retval * World :=
  run_on damping_world
    (vmfs_ds_balancing binary64 10 damping_pools [volume_50; volume_20] damping_args).

(** The world at the entry of the loop of that pass: where the pass stops
    when it has no fuel for the loop; the weights of the pass; and the
    first two turns of the loop. *)
Definition damping_start : World :=
  snd (run_on damping_world
         (vmfs_ds_balancing binary64 0 damping_pools [volume_50; volume_20] damping_args)).

Definition damping_weights : gmap string Q :=
  result_of ∅ (fst (get_aggr_and_ds_stats binary64 damping_pools damping_world)).

Definition damping_first_turn : outcome (flow Z) * World :=
  run_on damping_start
    (ds_balancing_step binary64 [volume_50; volume_20] damping_args damping_weights 0).

Definition damping_second_turn : outcome (flow Z) * World :=
  run_on (snd damping_first_turn)
    (ds_balancing_step binary64 [volume_50; volume_20] damping_args damping_weights 1).

(** * Properties *)

(** ** Running the monad *)

Lemma bind_run {A B : Type} (c : M A) (k : A -> M B) (w : World) :
  (c ≫= k) w =
  match c w with
  | (Ok a, w') => k a w'
  | (Raise e, w') => (Raise e, w')
  | (OutOfFuel, w') => (OutOfFuel, w')
  end.
Proof. reflexivity. Qed.

Lemma bind_Ok {A B : Type} (c : M A) (k : A -> M B) (w w' : World) (a : A) :
  c w = (Ok a, w') -> (c ≫= k) w = k a w'.
Proof. intros H. rewrite bind_run, H. reflexivity. Qed.

Lemma bind_Ok_inv {A B : Type} (c : M A) (k : A -> M B) (w w2 : World) (b : B) :
  (c ≫= k) w = (Ok b, w2) ->
  exists a w1, c w = (Ok a, w1) /\ k a w1 = (Ok b, w2).
Proof.
  rewrite bind_run. destruct (c w) as [[a | e |] w1]; intros H.
  - exists a, w1. split; [reflexivity | exact H].
  - discriminate H.
  - discriminate H.
Qed.

Lemma deref_Some (w : World) (r : ref) (d : DS.t) :
  heap w !! r = Some d -> deref r w = (Ok d, w).
Proof. intros H. unfold deref. rewrite H. reflexivity. Qed.

Lemma deref_Ok_inv (w w' : World) (r : ref) (d : DS.t) :
  deref r w = (Ok d, w') -> heap w !! r = Some d /\ w' = w.
Proof.
  unfold deref. destruct (heap w !! r) as [d0 |]; intros H.
  - injection H as -> ->. split; reflexivity.
  - discriminate H.
Qed.

Lemma of_int_nonzero (c : Z) : c <> 0 -> Qeq_bool (of_int c) 0 = false.
Proof.
  intros Hc. destruct (Qeq_bool (of_int c) 0) eqn:E; [| reflexivity].
  apply Qeq_bool_eq in E. unfold Qeq, of_int in E. simpl in E. lia.
Qed.

Lemma of_int_zero : Qeq_bool (of_int 0) 0 = true.
Proof. reflexivity. Qed.

Section MoveSimulator.

Variable rnd : Q -> Q.

Lemma div_by_int (x : Q) (c : Z) :
  c <> 0 -> div rnd x (of_int c) = Ok (rnd (x / of_int c)).
Proof. intros Hc. unfold div. rewrite of_int_nonzero by exact Hc. reflexivity. Qed.

Lemma div_by_zero (x : Q) : div rnd x (of_int 0) = Raise ZeroDivisionError.
Proof. reflexivity. Qed.

Lemma usage_of_nonzero (freespace capacity : Z) :
  capacity <> 0 ->
  DS.usage_of rnd freespace capacity = Ok (usage_value rnd freespace capacity).
Proof.
  intros Hc. unfold DS.usage_of. rewrite div_by_int by exact Hc. reflexivity.
Qed.

Lemma usage_of_zero (freespace : Z) :
  DS.usage_of rnd freespace 0 = Raise ZeroDivisionError.
Proof. reflexivity. Qed.

Lemma usage_of_Ok_inv (freespace capacity : Z) (u : Q) :
  DS.usage_of rnd freespace capacity = Ok u ->
  capacity <> 0 /\ u = usage_value rnd freespace capacity.
Proof.
  intros H. destruct (Z.eq_dec capacity 0) as [-> | Hc].
  - rewrite usage_of_zero in H. discriminate H.
  - rewrite usage_of_nonzero in H by exact Hc. injection H as <-. split; [exact Hc | reflexivity].
Qed.

Lemma add_shadow_vm_run (self : ref) (vm : VM.t) (w : World) (d : DS.t) :
  heap w !! self = Some d ->
  add_shadow_vm rnd self vm w =
  match DS.usage_of rnd (DS.freespace d - VM.get_total_disksize vm) (DS.capacity d) with
  | Ok u => (Ok tt, set_heap (<[self := DS.set_usage u (with_vm vm d)]> (heap w)) w)
  | Raise e => (Raise e, set_heap (<[self := with_vm vm d]> (heap w)) w)
  | OutOfFuel => (OutOfFuel, set_heap (<[self := with_vm vm d]> (heap w)) w)
  end.
Proof.
  intros H. unfold add_shadow_vm.
  rewrite (bind_Ok _ _ _ _ _ (deref_Some _ _ _ H)).
  rewrite bind_run. cbn [assign modify].
  rewrite bind_run. unfold lift. cbn [DS.freespace DS.capacity DS.set_vm_handles DS.set_freespace].
  destruct (DS.usage_of rnd _ _) as [u | e |]; try reflexivity.
  unfold assign, modify, set_heap. cbn [heap elements ds_denylist log].
  rewrite list_insert_insert_eq. reflexivity.
Qed.

Lemma remove_shadow_vm_run (self : ref) (vm : VM.t) (w : World) (d : DS.t) :
  heap w !! self = Some d ->
  remove_shadow_vm rnd self vm w =
  match DS.list_remove (VM.handle vm) (DS.vm_handles d) with
  | Ok hs =>
      match DS.usage_of rnd (DS.freespace d + VM.get_total_disksize vm) (DS.capacity d) with
      | Ok u => (Ok tt, set_heap (<[self := DS.set_usage u (without_vm vm hs d)]> (heap w)) w)
      | Raise e => (Raise e, set_heap (<[self := without_vm vm hs d]> (heap w)) w)
      | OutOfFuel => (OutOfFuel, set_heap (<[self := without_vm vm hs d]> (heap w)) w)
      end
  | Raise e => (Raise e, w)
  | OutOfFuel => (OutOfFuel, w)
  end.
Proof.
  intros H. unfold remove_shadow_vm.
  rewrite (bind_Ok _ _ _ _ _ (deref_Some _ _ _ H)).
  rewrite bind_run. unfold lift.
  destruct (DS.list_remove _ _) as [hs | e |]; try reflexivity.
  rewrite bind_run. cbn [assign modify].
  rewrite bind_run. cbn [DS.freespace DS.capacity DS.set_vm_handles DS.set_freespace].
  destruct (DS.usage_of rnd _ _) as [u | e |]; try reflexivity.
  unfold assign, modify, set_heap. cbn [heap elements ds_denylist log].
  rewrite list_insert_insert_eq. reflexivity.
Qed.

End MoveSimulator.

Section MoveSimulatorFacts.

Variable rnd : Q -> Q.

Lemma list_remove_elem (x : moref) (l : list moref) :
  x ∈ l -> exists hs, DS.list_remove x l = Ok hs.
Proof.
  induction l as [| y l IH]; intros Hin.
  - inversion Hin.
  - simpl. destruct (Nat.eqb y x) eqn:E.
    + exists l. reflexivity.
    + apply Nat.eqb_neq in E.
      assert (Hl : x ∈ l).
      { apply elem_of_cons in Hin. destruct Hin as [-> | Hin]; [congruence | exact Hin]. }
      destruct (IH Hl) as [hs ->]. exists (y :: hs). reflexivity.
Qed.

Lemma list_remove_Ok_elem (x : moref) (l hs : list moref) :
  DS.list_remove x l = Ok hs -> x ∈ l.
Proof.
  revert hs. induction l as [| y l IH]; intros hs H; simpl in H.
  - discriminate H.
  - destruct (Nat.eqb y x) eqn:E.
    + apply Nat.eqb_eq in E. subst y. apply list_elem_of_here.
    + destruct (DS.list_remove x l) as [r | e |] eqn:Er; try discriminate H.
      apply list_elem_of_further. exact (IH r eq_refl).
Qed.

Lemma add_shadow_vm_Ok_inv (self : ref) (vm : VM.t) (w w' : World) :
  add_shadow_vm rnd self vm w = (Ok tt, w') ->
  exists d u,
    heap w !! self = Some d
    /\ DS.usage_of rnd (DS.freespace d - VM.get_total_disksize vm) (DS.capacity d) = Ok u
    /\ w' = set_heap (<[self := DS.set_usage u (with_vm vm d)]> (heap w)) w.
Proof.
  intros H. destruct (heap w !! self) as [d |] eqn:Hd.
  - rewrite (add_shadow_vm_run rnd _ _ _ _ Hd) in H.
    destruct (DS.usage_of rnd _ _) as [u | e |] eqn:Hu; try discriminate H.
    injection H as <-. exists d, u. repeat split; assumption.
  - unfold add_shadow_vm in H. rewrite bind_run in H. unfold deref in H.
    rewrite Hd in H. discriminate H.
Qed.

Lemma remove_shadow_vm_Ok_inv (self : ref) (vm : VM.t) (w w' : World) :
  remove_shadow_vm rnd self vm w = (Ok tt, w') ->
  exists d hs u,
    heap w !! self = Some d
    /\ DS.list_remove (VM.handle vm) (DS.vm_handles d) = Ok hs
    /\ DS.usage_of rnd (DS.freespace d + VM.get_total_disksize vm) (DS.capacity d) = Ok u
    /\ w' = set_heap (<[self := DS.set_usage u (without_vm vm hs d)]> (heap w)) w.
Proof.
  intros H. destruct (heap w !! self) as [d |] eqn:Hd.
  - rewrite (remove_shadow_vm_run rnd _ _ _ _ Hd) in H.
    destruct (DS.list_remove _ _) as [hs | e |] eqn:Hr; try discriminate H.
    destruct (DS.usage_of rnd _ _) as [u | e |] eqn:Hu; try discriminate H.
    injection H as <-. exists d, hs, u. repeat split; assumption.
  - unfold remove_shadow_vm in H. rewrite bind_run in H. unfold deref in H.
    rewrite Hd in H. discriminate H.
Qed.

Lemma total_freespace_insert (h : list DS.t) (i : nat) (d d' : DS.t) :
  h !! i = Some d ->
  total_freespace (<[i := d']> h) = total_freespace h - DS.freespace d + DS.freespace d'.
Proof.
  revert i. induction h as [| x h IH]; intros i Hi.
  - discriminate Hi.
  - destruct i as [| i]; simpl in Hi.
    + injection Hi as ->. cbn. lia.
    + specialize (IH i Hi).
      change (<[S i := d']> (x :: h)) with (x :: <[i := d']> h).
      unfold total_freespace in *. simpl. rewrite IH. lia.
Qed.

Lemma lookup_after_insert (h : list DS.t) (i : nat) (d d' : DS.t) :
  h !! i = Some d -> <[i := d']> h !! i = Some d'.
Proof. intros Hi. apply list_lookup_insert_eq. eapply lookup_lt_Some, Hi. Qed.

(** What a move does to the world, told in full. *)
Lemma move_Ok_inv (ds1 ds2 : ref) (vm : VM.t) (w w' : World) :
  move_shadow_vm_from_ds_to_ds rnd ds1 ds2 vm w = (Ok tt, w') ->
  exists d1 hs u1 d2 u2,
    heap w !! ds1 = Some d1
    /\ DS.list_remove (VM.handle vm) (DS.vm_handles d1) = Ok hs
    /\ DS.usage_of rnd (DS.freespace d1 + VM.get_total_disksize vm) (DS.capacity d1) = Ok u1
    /\ <[ds1 := DS.set_usage u1 (without_vm vm hs d1)]> (heap w) !! ds2 = Some d2
    /\ DS.usage_of rnd (DS.freespace d2 - VM.get_total_disksize vm) (DS.capacity d2) = Ok u2
    /\ heap w' = <[ds2 := DS.set_usage u2 (with_vm vm d2)]>
                   (<[ds1 := DS.set_usage u1 (without_vm vm hs d1)]> (heap w))
    /\ elements w' = elements w
    /\ ds_denylist w' = ds_denylist w
    /\ log w' = log w ++
         [ {| levelname := INFO;
              msg := MoveVm (VM.name vm)
                       (div_const rnd (of_int (VM.get_total_disksize vm)) GiB)
                       (DS.name d1) (DS.name d2) |};
           {| levelname := INFO;
              msg := MoveUsage (DS.usage d1) u1 (DS.usage d2) u2 |};
           {| levelname := INFO; msg := Svmotion (VM.name vm) (DS.name d2) |} ].
Proof.
  unfold move_shadow_vm_from_ds_to_ds. intros H.
  apply bind_Ok_inv in H. destruct H as (d1 & w1 & Hd1 & H).
  apply deref_Ok_inv in Hd1. destruct Hd1 as [Hd1 ->].
  apply bind_Ok_inv in H. destruct H as ([] & w2 & Hrm & H).
  apply remove_shadow_vm_Ok_inv in Hrm.
  destruct Hrm as (d1' & hs & u1 & Hd1' & Hhs & Hu1 & ->).
  rewrite Hd1 in Hd1'. injection Hd1' as <-.
  apply bind_Ok_inv in H. destruct H as (d1a & w3 & Hd1a & H).
  apply deref_Ok_inv in Hd1a. destruct Hd1a as [Hd1a ->].
  cbn [heap set_heap] in Hd1a. rewrite (lookup_after_insert _ _ _ _ Hd1) in Hd1a.
  injection Hd1a as <-.
  apply bind_Ok_inv in H. destruct H as (d2 & w4 & Hd2 & H).
  apply deref_Ok_inv in Hd2. destruct Hd2 as [Hd2 ->]. cbn [heap set_heap] in Hd2.
  apply bind_Ok_inv in H. destruct H as ([] & w5 & Hadd & H).
  apply add_shadow_vm_Ok_inv in Hadd.
  destruct Hadd as (d2' & u2 & Hd2' & Hu2 & ->).
  cbn [heap set_heap] in Hd2'. rewrite Hd2 in Hd2'. injection Hd2' as <-.
  apply bind_Ok_inv in H. destruct H as (d2a & w6 & Hd2a & H).
  apply deref_Ok_inv in Hd2a. destruct Hd2a as [Hd2a ->].
  cbn [heap set_heap] in Hd2a. rewrite (lookup_after_insert _ _ _ _ Hd2) in Hd2a.
  injection Hd2a as <-.
  exists d1, hs, u1, d2, u2.
  repeat (split; [assumption |]).
  unfold log_info, tell, modify in H. rewrite !bind_run in H.
  injection H as <-. cbn. rewrite <- !app_assoc. repeat split.
Qed.

End MoveSimulatorFacts.

Section MoveSimulatorTheorems.

Variable rnd : Q -> Q.

Lemma move_succeeds (ds1 ds2 : ref) (vm : VM.t) (w : World) (d1 d2 : DS.t) :
  ds1 <> ds2 ->
  heap w !! ds1 = Some d1 ->
  heap w !! ds2 = Some d2 ->
  DS.capacity d1 <> 0 ->
  DS.capacity d2 <> 0 ->
  VM.handle vm ∈ DS.vm_handles d1 ->
  exists w', move_shadow_vm_from_ds_to_ds rnd ds1 ds2 vm w = (Ok tt, w').
Proof.
  intros Hne H1 H2 Hc1 Hc2 Hin.
  destruct (list_remove_elem _ _ Hin) as [hs Hhs].
  unfold move_shadow_vm_from_ds_to_ds.
  rewrite (bind_Ok _ _ _ _ _ (deref_Some _ _ _ H1)).
  rewrite bind_run, (remove_shadow_vm_run rnd _ _ _ _ H1), Hhs.
  rewrite usage_of_nonzero by exact Hc1.
  set (d1' := DS.set_usage _ (without_vm vm hs d1)).
  set (w1 := set_heap _ w).
  assert (H1' : heap w1 !! ds1 = Some d1') by (apply (lookup_after_insert _ _ _ _ H1)).
  assert (H2' : heap w1 !! ds2 = Some d2).
  { unfold w1. cbn [heap set_heap]. rewrite list_lookup_insert_ne by exact Hne. exact H2. }
  rewrite (bind_Ok _ _ _ _ _ (deref_Some _ _ _ H1')).
  rewrite (bind_Ok _ _ _ _ _ (deref_Some _ _ _ H2')).
  rewrite bind_run, (add_shadow_vm_run rnd _ _ _ _ H2').
  rewrite usage_of_nonzero by exact Hc2.
  set (d2' := DS.set_usage _ (with_vm vm d2)).
  set (w2 := set_heap _ w1).
  assert (H2'' : heap w2 !! ds2 = Some d2') by (apply (lookup_after_insert _ _ _ _ H2')).
  rewrite (bind_Ok _ _ _ _ _ (deref_Some _ _ _ H2'')).
  unfold log_info, tell, modify. rewrite !bind_run. eexists. reflexivity.
Qed.

(** C1, as amended: a move of unit [u] from datastore [A] to a distinct
    datastore [B], both of nonzero capacity, gives the size of [u] back to
    the free space of [A] and takes it from the free space of [B]; the free
    space of all datastores together is unchanged. *)
Theorem move_conserves_free_space (A B : ref) (u : VM.t) (w : World) (dA dB : DS.t) :
  A <> B ->
  heap w !! A = Some dA ->
  heap w !! B = Some dB ->
  DS.capacity dA <> 0 ->
  DS.capacity dB <> 0 ->
  VM.handle u ∈ DS.vm_handles dA ->
  exists w' dA' dB',
    move_shadow_vm_from_ds_to_ds rnd A B u w = (Ok tt, w')
    /\ heap w' !! A = Some dA'
    /\ heap w' !! B = Some dB'
    /\ DS.freespace dA' = DS.freespace dA + VM.get_total_disksize u
    /\ DS.freespace dB' = DS.freespace dB - VM.get_total_disksize u
    /\ total_freespace (heap w') = total_freespace (heap w).
Proof.
  intros Hne HA HB HcA HcB Hin.
  destruct (move_succeeds A B u w dA dB Hne HA HB HcA HcB Hin) as [w' Hrun].
  destruct (move_Ok_inv rnd _ _ _ _ _ Hrun)
    as (d1 & hs & u1 & d2 & u2 & H1 & Hhs & Hu1 & H2 & Hu2 & Hheap & _).
  rewrite HA in H1. injection H1 as <-.
  rewrite list_lookup_insert_ne in H2 by exact Hne.
  rewrite HB in H2. injection H2 as <-.
  exists w', (DS.set_usage u1 (without_vm u hs dA)), (DS.set_usage u2 (with_vm u dB)).
  split; [exact Hrun |].
  assert (HA' : <[A := DS.set_usage u1 (without_vm u hs dA)]> (heap w) !! B = Some dB).
  { rewrite list_lookup_insert_ne by exact Hne. exact HB. }
  rewrite Hheap. repeat split.
  - rewrite list_lookup_insert_ne by (intros E; apply Hne; symmetry; exact E).
    apply (lookup_after_insert _ _ _ _ HA).
  - apply (lookup_after_insert _ _ _ _ HA').
  - rewrite (total_freespace_insert _ _ _ _ HA'), (total_freespace_insert _ _ _ _ HA).
    cbn. lia.
Qed.

End MoveSimulatorTheorems.

Lemma move_conserves_free_space_witness :
  exists w' dA' dB',
    move_shadow_vm_from_ds_to_ds binary64 0 1 volume_50 two_datastores = (Ok tt, w')
    /\ heap w' !! 0%nat = Some dA'
    /\ heap w' !! 1%nat = Some dB'
    /\ DS.freespace dA' = GB 100 + GB 50
    /\ DS.freespace dB' = GB 600 - GB 50
    /\ total_freespace (heap w') = total_freespace (heap two_datastores).
Proof.
  assert (HA : exists dA, heap two_datastores !! 0%nat = Some dA
                 /\ DS.freespace dA = GB 100 /\ DS.capacity dA <> 0
                 /\ VM.handle volume_50 ∈ DS.vm_handles dA).
  { vm_compute. eexists. split; [reflexivity |].
    split; [reflexivity |]. split; [discriminate | apply list_elem_of_here]. }
  assert (HB : exists dB, heap two_datastores !! 1%nat = Some dB
                 /\ DS.freespace dB = GB 600 /\ DS.capacity dB <> 0).
  { vm_compute. eexists. split; [reflexivity |]. split; [reflexivity | discriminate]. }
  destruct HA as (dA & HA & HfA & HcA & Hin).
  destruct HB as (dB & HB & HfB & HcB).
  rewrite <- HfA, <- HfB.
  apply (move_conserves_free_space binary64 0%nat 1%nat volume_50 two_datastores dA dB);
    [lia | assumption ..].
Defined.

(** C1 as the specification states it fails: after the move of a unit of
    50 GB the source has 150 GB free, not 100 GB - 50 GB, and the target
    has 550 GB free, not 600 GB + 50 GB. *)
Lemma move_free_space_counterexample :
  let w' := snd (move_shadow_vm_from_ds_to_ds binary64 0 1 volume_50 two_datastores) in
  fst (move_shadow_vm_from_ds_to_ds binary64 0 1 volume_50 two_datastores) = Ok tt
  /\ (DS.freespace <$> heap two_datastores !! 0%nat) = Some (GB 100)
  /\ (DS.freespace <$> heap two_datastores !! 1%nat) = Some (GB 600)
  /\ VM.get_total_disksize volume_50 = GB 50
  /\ (DS.freespace <$> heap w' !! 0%nat) = Some (GB 150)
  /\ (DS.freespace <$> heap w' !! 1%nat) = Some (GB 550)
  /\ GB 150 <> GB 100 - GB 50
  /\ GB 550 <> GB 600 + GB 50.
Proof. vm_compute. repeat split; discriminate. Qed.

Section UsageInvariant.

Variable rnd : Q -> Q.

Lemma init_recomputed (e : DS.element) :
  DS.e_capacity e <> 0 ->
  exists d, DS.init rnd e = Ok d /\ usage_recomputed rnd d
            /\ DS.usage d = usage_value rnd (DS.e_freeSpace e) (DS.e_capacity e).
Proof.
  intros Hc. unfold DS.init. rewrite usage_of_nonzero by exact Hc.
  eexists. split; [reflexivity |]. split; [| reflexivity].
  unfold usage_recomputed. cbn. apply usage_of_nonzero. exact Hc.
Qed.

Lemma init_usage (e : DS.element) :
  DS.e_capacity e <> 0 ->
  exists d, DS.init rnd e = Ok d
            /\ DS.freespace d = DS.e_freeSpace e
            /\ DS.capacity d = DS.e_capacity e
            /\ DS.usage d = usage_value rnd (DS.freespace d) (DS.capacity d).
Proof.
  intros Hc. unfold DS.init. rewrite usage_of_nonzero by exact Hc.
  eexists. split; [reflexivity |]. cbn. repeat split.
Qed.

Lemma add_shadow_vm_usage (self : ref) (vm : VM.t) (w : World) (d : DS.t) :
  heap w !! self = Some d ->
  DS.capacity d <> 0 ->
  exists w' d',
    add_shadow_vm rnd self vm w = (Ok tt, w')
    /\ heap w' !! self = Some d'
    /\ DS.capacity d' = DS.capacity d
    /\ DS.freespace d' = DS.freespace d - VM.get_total_disksize vm
    /\ DS.usage d' = usage_value rnd (DS.freespace d') (DS.capacity d').
Proof.
  intros Hd Hc. rewrite (add_shadow_vm_run rnd _ _ _ _ Hd).
  rewrite usage_of_nonzero by exact Hc.
  eexists _, _. split; [reflexivity |]. split.
  - apply (lookup_after_insert _ _ _ _ Hd).
  - cbn. repeat split.
Qed.

Lemma remove_shadow_vm_usage (self : ref) (vm : VM.t) (w : World) (d : DS.t) :
  heap w !! self = Some d ->
  DS.capacity d <> 0 ->
  VM.handle vm ∈ DS.vm_handles d ->
  exists w' d',
    remove_shadow_vm rnd self vm w = (Ok tt, w')
    /\ heap w' !! self = Some d'
    /\ DS.capacity d' = DS.capacity d
    /\ DS.freespace d' = DS.freespace d + VM.get_total_disksize vm
    /\ DS.usage d' = usage_value rnd (DS.freespace d') (DS.capacity d').
Proof.
  intros Hd Hc Hin. rewrite (remove_shadow_vm_run rnd _ _ _ _ Hd).
  destruct (list_remove_elem _ _ Hin) as [hs ->].
  rewrite usage_of_nonzero by exact Hc.
  eexists _, _. split; [reflexivity |]. split.
  - apply (lookup_after_insert _ _ _ _ Hd).
  - cbn. repeat split.
Qed.

Lemma move_keeps_usage (ds1 ds2 : ref) (vm : VM.t) (w w' : World) :
  Forall (fun d => DS.usage d = usage_value rnd (DS.freespace d) (DS.capacity d)) (heap w) ->
  move_shadow_vm_from_ds_to_ds rnd ds1 ds2 vm w = (Ok tt, w') ->
  Forall (fun d => DS.usage d = usage_value rnd (DS.freespace d) (DS.capacity d)) (heap w').
Proof.
  intros Hall Hrun.
  destruct (move_Ok_inv rnd _ _ _ _ _ Hrun)
    as (d1 & hs & u1 & d2 & u2 & H1 & Hhs & Hu1 & H2 & Hu2 & -> & _).
  apply usage_of_Ok_inv in Hu1 as [_ ->]. apply usage_of_Ok_inv in Hu2 as [_ ->].
  apply Forall_insert; [apply Forall_insert; [exact Hall |] |]; reflexivity.
Qed.

(** C5: the usage of a datastore of nonzero capacity is
    [(1 - freespace / capacity) * 100], of the free space and the capacity
    it then has, when the object is built, again after [add_shadow_vm] and
    after [remove_shadow_vm], whatever it was before, and so for every
    datastore before and after every move. *)
Theorem usage_recomputation_invariant :
  (forall e : DS.element, DS.e_capacity e <> 0 ->
     exists d, DS.init rnd e = Ok d
               /\ DS.freespace d = DS.e_freeSpace e
               /\ DS.capacity d = DS.e_capacity e
               /\ DS.usage d = usage_value rnd (DS.freespace d) (DS.capacity d))
  /\ (forall (self : ref) (vm : VM.t) (w : World) (d : DS.t),
        heap w !! self = Some d -> DS.capacity d <> 0 ->
        exists w' d', add_shadow_vm rnd self vm w = (Ok tt, w')
                      /\ heap w' !! self = Some d'
                      /\ DS.capacity d' = DS.capacity d
                      /\ DS.freespace d' = DS.freespace d - VM.get_total_disksize vm
                      /\ DS.usage d' = usage_value rnd (DS.freespace d') (DS.capacity d'))
  /\ (forall (self : ref) (vm : VM.t) (w : World) (d : DS.t),
        heap w !! self = Some d -> DS.capacity d <> 0 ->
        VM.handle vm ∈ DS.vm_handles d ->
        exists w' d', remove_shadow_vm rnd self vm w = (Ok tt, w')
                      /\ heap w' !! self = Some d'
                      /\ DS.capacity d' = DS.capacity d
                      /\ DS.freespace d' = DS.freespace d + VM.get_total_disksize vm
                      /\ DS.usage d' = usage_value rnd (DS.freespace d') (DS.capacity d'))
  /\ (forall (ds1 ds2 : ref) (vm : VM.t) (w w' : World),
        Forall (fun d => DS.usage d = usage_value rnd (DS.freespace d) (DS.capacity d))
               (heap w) ->
        move_shadow_vm_from_ds_to_ds rnd ds1 ds2 vm w = (Ok tt, w') ->
        Forall (fun d => DS.usage d = usage_value rnd (DS.freespace d) (DS.capacity d))
               (heap w')).
Proof.
  split; [| split; [| split]].
  - exact init_usage.
  - exact add_shadow_vm_usage.
  - exact remove_shadow_vm_usage.
  - exact move_keeps_usage.
Qed.

End UsageInvariant.

Lemma two_datastores_usage :
  Forall (fun d => DS.usage d = usage_value binary64 (DS.freespace d) (DS.capacity d))
         (heap two_datastores).
Proof. repeat constructor. Qed.

(** The usages of the two datastores, 90.0 and 40.0, and after the move
    of the 50 GB: 85.0 and 44.99999999999999, the float next below 45. *)
Example usages_before_and_after_a_move :
  map DS.usage (heap two_datastores) = [90; 40]%Q
  /\ map DS.usage
       (heap (snd (move_shadow_vm_from_ds_to_ds binary64 0 1 volume_50 two_datastores)))
     = [85; 6333186975989759 # 140737488355328]%Q.
Proof. split; vm_compute; reflexivity. Qed.

Lemma usage_recomputation_invariant_witness :
  (exists d, DS.init binary64 (datastore ds_001 (GB 100) (GB 1000) [7%nat] 1%nat) = Ok d
             /\ DS.freespace d = GB 100 /\ DS.capacity d = GB 1000
             /\ DS.usage d = usage_value binary64 (DS.freespace d) (DS.capacity d))
  /\ Forall (fun d => DS.usage d = usage_value binary64 (DS.freespace d) (DS.capacity d))
       (heap (snd (move_shadow_vm_from_ds_to_ds binary64 0 1 volume_50 two_datastores))).
Proof.
  split.
  - apply (proj1 (usage_recomputation_invariant binary64)
             (datastore ds_001 (GB 100) (GB 1000) [7%nat] 1%nat)).
    vm_compute. discriminate.
  - apply (proj2 (proj2 (proj2 (usage_recomputation_invariant binary64)))
             0%nat 1%nat volume_50 two_datastores).
    + exact two_datastores_usage.
    + vm_compute. reflexivity.
Defined.

(** ** The join: [get_by_name] and [get_aggr_and_ds_stats] *)

Lemma wf_set_log (w : World) (l : list LogRecord) : wf w -> wf (set_log l w).
Proof. intros H. exact H. Qed.

Lemma ds_named_Some (h : list DS.t) (ds_name : string) (l : list ref) (r : ref) (d : DS.t) :
  ds_named h ds_name l = Some (r, d) ->
  r ∈ l /\ h !! r = Some d /\ DS.name d = ds_name.
Proof.
  induction l as [| r0 l IH]; simpl; intros H.
  - discriminate H.
  - destruct (h !! r0) as [d0 |] eqn:Hr0; [| discriminate H].
    destruct (String.eqb (DS.name d0) ds_name) eqn:E.
    + injection H as <- <-. apply String.eqb_eq in E.
      split; [apply list_elem_of_here | split; assumption].
    + destruct (IH H) as (Hin & Hd & Hn).
      split; [apply list_elem_of_further; exact Hin | split; assumption].
Qed.

Section Join.

Variable rnd : Q -> Q.

Lemma find_by_name_run (ds_name : string) (l : list ref) (w : World) :
  Forall (fun r => (r < length (heap w))%nat) l ->
  find_by_name ds_name l w = (Ok (fst <$> ds_named (heap w) ds_name l), w).
Proof.
  induction l as [| r l IH]; intros Hl.
  - reflexivity.
  - apply Forall_cons in Hl. destruct Hl as [Hr Hl].
    destruct (lookup_lt_is_Some_2 _ _ Hr) as [d Hd].
    cbn [find_by_name ds_named]. rewrite (bind_Ok _ _ _ _ _ (deref_Some _ _ _ Hd)), Hd.
    destruct (String.eqb (DS.name d) ds_name); [reflexivity | exact (IH Hl)].
Qed.

Lemma get_by_name_run (ds_name : string) (w : World) :
  wf w ->
  get_by_name ds_name w = (Ok (fst <$> ds_named (heap w) ds_name (elements w)), w).
Proof.
  intros Hwf. unfold get_by_name. rewrite bind_run. cbn [get_world].
  apply find_by_name_run. exact Hwf.
Qed.

Lemma stats_of_lun_run (aggr : NAAggr.t) (lun : NALun.t)
    (acc : Z * Z * gmap string Q) (w : World) :
  wf w ->
  stats_of_lun rnd aggr lun acc w = (lun_stats rnd (heap w) (elements w) aggr lun acc, w).
Proof.
  intros Hwf. destruct acc as [[c u] wt]. unfold stats_of_lun, lun_stats.
  rewrite (bind_Ok _ _ _ _ _ (get_by_name_run _ _ Hwf)).
  destruct (ds_named (heap w) (NALun.name lun) (elements w)) as [[r d] |] eqn:Hn.
  - destruct (ds_named_Some _ _ _ _ _ Hn) as (_ & Hd & _).
    cbn [fmap option_fmap option_map fst].
    rewrite (bind_Ok _ _ _ _ _ (deref_Some _ _ _ Hd)).
    rewrite bind_run. unfold lift.
    destruct (div rnd (of_int (DS.used d)) (of_int (DS.capacity d))) as [q | e |];
      try reflexivity.
    rewrite bind_run. cbn [mbind outcome_bind].
    destruct (div rnd (of_int (NAAggr.usage aggr)) (mul rnd q (of_int 100))) as [x | e |];
      reflexivity.
  - reflexivity.
Qed.

Lemma luns_loop_run (aggr : NAAggr.t) (luns : list NALun.t)
    (acc : Z * Z * gmap string Q) (w : World) :
  wf w ->
  for_each luns acc (stats_of_lun rnd aggr) w
  = (luns_stats rnd (heap w) (elements w) aggr luns acc, w).
Proof.
  intros Hwf. revert acc. induction luns as [| lun luns IH]; intros acc.
  - reflexivity.
  - cbn [for_each luns_stats]. rewrite bind_run, (stats_of_lun_run _ _ _ _ Hwf).
    destruct (lun_stats rnd (heap w) (elements w) aggr lun acc) as [acc' | e |];
      [apply IH | reflexivity | reflexivity].
Qed.

End Join.

Lemma logged_refl (w : World) : logged w w.
Proof. exists []. destruct w. unfold set_log. cbn. rewrite app_nil_r. reflexivity. Qed.

Lemma logged_trans (w1 w2 w3 : World) : logged w1 w2 -> logged w2 w3 -> logged w1 w3.
Proof.
  intros [l1 ->] [l2 ->]. exists (l1 ++ l2). unfold set_log. cbn.
  rewrite app_assoc. reflexivity.
Qed.

Lemma logged_tell (w : World) (l : list LogRecord) : logged w (snd (tell l w)).
Proof. exists l. reflexivity. Qed.

Lemma logged_store (w w' : World) :
  logged w w' ->
  heap w' = heap w /\ elements w' = elements w /\ ds_denylist w' = ds_denylist w.
Proof. intros [l ->]. repeat split. Qed.

Lemma logged_wf (w w' : World) : logged w w' -> wf w -> wf w'.
Proof.
  intros H Hwf. destruct (logged_store _ _ H) as (Hh & He & _).
  unfold wf. rewrite Hh, He. exact Hwf.
Qed.

Lemma log_info_run (m : message) (w : World) :
  log_info m w = (Ok tt, set_log (log w ++ [ {| levelname := INFO; msg := m |} ]) w).
Proof. reflexivity. Qed.


Lemma Qeq_bool_zero_iff (x : Q) : Qeq_bool x 0 = true <-> (x == 0)%Q.
Proof. apply Qeq_bool_iff. Qed.

Lemma quotient_zero_iff (a c : Z) :
  c <> 0 -> (of_int a / of_int c == 0)%Q <-> a = 0.
Proof.
  intros Hc. unfold of_int, Qdiv, Qinv, Qmult, Qeq, inject_Z. cbn.
  destruct c as [| p | p]; [congruence | |]; cbn; split; intros H; nia.
Qed.

Lemma times_100_zero_iff (q : Q) : (q * of_int 100 == 0)%Q <-> (q == 0)%Q.
Proof.
  split; intros H.
  - apply Qmult_integral in H. destruct H as [H | H]; [exact H | discriminate H].
  - rewrite H. reflexivity.
Qed.

Section JoinPrecondition.

Variable rnd : Q -> Q.
Hypothesis sane : sane_at_zero rnd.

Lemma percent_zero_iff (a c : Z) :
  c <> 0 ->
  Qeq_bool (mul rnd (rnd (of_int a / of_int c)) (of_int 100)) 0 = true <-> a = 0.
Proof.
  intros Hc. unfold mul. split; intros H.
  - apply (proj1 (Qeq_bool_zero_iff _)) in H.
    apply (proj1 (sane _)) in H.
    apply (proj1 (times_100_zero_iff _)) in H.
    apply (proj1 (sane _)) in H.
    apply (proj1 (quotient_zero_iff a c Hc)). exact H.
  - apply (proj2 (Qeq_bool_zero_iff _)).
    apply (proj2 (sane _)).
    apply (proj2 (times_100_zero_iff _)).
    apply (proj2 (sane _)).
    apply (proj2 (quotient_zero_iff a c Hc)). exact H.
Qed.

Lemma lun_stats_nonzero (h : list DS.t) (els : list ref) (aggr : NAAggr.t)
    (lun : NALun.t) (acc : Z * Z * gmap string Q) :
  positive_capacities h ->
  lun_used_nonzero h els lun = true ->
  exists acc',
    lun_stats rnd h els aggr lun acc = Ok acc'
    /\ (lun_matched h els lun = true -> acc.1.1 < acc'.1.1)
    /\ (lun_matched h els lun = false -> acc' = acc).
Proof.
  intros Hpos Hnz. unfold lun_stats, lun_used_nonzero, lun_matched in *.
  destruct (ds_named h (NALun.name lun) els) as [[r d] |] eqn:Hn.
  - destruct (ds_named_Some _ _ _ _ _ Hn) as (_ & Hd & _).
    assert (Hc : 0 < DS.capacity d).
    { unfold positive_capacities in Hpos. rewrite Forall_lookup in Hpos. exact (Hpos _ _ Hd). }
    rewrite div_by_int by lia. cbn [mbind outcome_bind].
    unfold div at 1.
    destruct (Qeq_bool _ 0) eqn:E.
    + apply percent_zero_iff in E; [| lia].
      rewrite E in Hnz. discriminate Hnz.
    + eexists. split; [reflexivity |]. split; [| discriminate]. intros _. cbn. lia.
  - exists acc. split; [reflexivity |]. split; [discriminate | reflexivity].
Qed.

Lemma lun_stats_zero (h : list DS.t) (els : list ref) (aggr : NAAggr.t)
    (lun : NALun.t) (acc : Z * Z * gmap string Q) :
  positive_capacities h ->
  lun_used_nonzero h els lun = false ->
  lun_stats rnd h els aggr lun acc = Raise ZeroDivisionError.
Proof.
  intros Hpos Hz. unfold lun_stats, lun_used_nonzero in *.
  destruct (ds_named h (NALun.name lun) els) as [[r d] |] eqn:Hn; [| discriminate Hz].
  destruct (ds_named_Some _ _ _ _ _ Hn) as (_ & Hd & _).
  assert (Hc : 0 < DS.capacity d).
  { unfold positive_capacities in Hpos. rewrite Forall_lookup in Hpos. exact (Hpos _ _ Hd). }
  rewrite div_by_int by lia. cbn [mbind outcome_bind].
  unfold div.
  assert (E : Qeq_bool (mul rnd (rnd (of_int (DS.used d) / of_int (DS.capacity d)))
                          (of_int 100)) 0 = true).
  { apply percent_zero_iff; [lia |]. apply negb_false_iff, Z.eqb_eq in Hz. exact Hz. }
  rewrite E. reflexivity.
Qed.

Lemma luns_stats_nonzero (h : list DS.t) (els : list ref) (aggr : NAAggr.t)
    (luns : list NALun.t) (acc : Z * Z * gmap string Q) :
  positive_capacities h ->
  forallb (lun_used_nonzero h els) luns = true ->
  exists acc',
    luns_stats rnd h els aggr luns acc = Ok acc'
    /\ (existsb (lun_matched h els) luns = true -> acc.1.1 < acc'.1.1)
    /\ (existsb (lun_matched h els) luns = false -> acc' = acc).
Proof.
  intros Hpos. revert acc. induction luns as [| lun luns IH]; intros acc Hall.
  - exists acc. split; [reflexivity |]. split; [discriminate | reflexivity].
  - cbn [forallb] in Hall. apply andb_true_iff in Hall. destruct Hall as [Hlun Hall].
    cbn [luns_stats].
    destruct (lun_stats_nonzero h els aggr lun acc Hpos Hlun) as (acc1 & -> & Hlt & Heq).
    destruct (IH acc1 Hall) as (acc2 & -> & Hlt2 & Heq2).
    exists acc2. split; [reflexivity |]. cbn [existsb].
    destruct (lun_matched h els lun) eqn:Em; cbn [orb].
    + split; [| discriminate]. intros _. specialize (Hlt eq_refl).
      destruct (existsb (lun_matched h els) luns) eqn:Ex.
      * specialize (Hlt2 eq_refl). lia.
      * rewrite (Heq2 eq_refl). exact Hlt.
    + rewrite (Heq eq_refl) in *. split; assumption.
Qed.

Lemma luns_stats_zero (h : list DS.t) (els : list ref) (aggr : NAAggr.t)
    (luns : list NALun.t) (acc : Z * Z * gmap string Q) :
  positive_capacities h ->
  forallb (lun_used_nonzero h els) luns = false ->
  luns_stats rnd h els aggr luns acc = Raise ZeroDivisionError.
Proof.
  intros Hpos. revert acc. induction luns as [| lun luns IH]; intros acc Hall.
  - discriminate Hall.
  - cbn [forallb luns_stats] in *.
    destruct (lun_used_nonzero h els lun) eqn:Hlun.
    + destruct (lun_stats_nonzero h els aggr lun acc Hpos Hlun) as (acc1 & -> & _).
      apply IH. exact Hall.
    + rewrite (lun_stats_zero h els aggr lun acc Hpos Hlun). reflexivity.
Qed.

End JoinPrecondition.

Section JoinTotal.

Variable rnd : Q -> Q.
Hypothesis sane : sane_at_zero rnd.

Lemma stats_of_aggr_run (aggr : NAAggr.t) (ds_weight : gmap string Q) (w : World) :
  wf w ->
  positive_capacities (heap w) ->
  exists w', logged w w'
    /\ if aggr_precondition (heap w) (elements w) aggr
       then exists ds_weight', stats_of_aggr rnd aggr ds_weight w = (Ok ds_weight', w')
       else stats_of_aggr rnd aggr ds_weight w = (Raise ZeroDivisionError, w').
Proof.
  intros Hwf Hpos. unfold stats_of_aggr, aggr_precondition.
  rewrite bind_run, log_info_run, bind_run, log_info_run.
  set (w2 := set_log _ (set_log _ w)).
  assert (Hlog : logged w w2).
  { eapply logged_trans; [| eexists; reflexivity]. eexists; reflexivity. }
  assert (Hwf2 : wf w2) by exact Hwf.
  rewrite bind_run, (luns_loop_run rnd _ _ _ _ Hwf2).
  change (heap w2) with (heap w). change (elements w2) with (elements w).
  destruct (forallb (lun_used_nonzero (heap w) (elements w)) (NAAggr.luns aggr)) eqn:Hall.
  - destruct (luns_stats_nonzero rnd sane (heap w) (elements w) aggr (NAAggr.luns aggr)
                (0, 0, ds_weight) Hpos Hall) as (acc' & -> & Hlt & Heq).
    destruct (existsb (lun_matched (heap w) (elements w)) (NAAggr.luns aggr)) eqn:Hex.
    + specialize (Hlt eq_refl). destruct acc' as [[c u] wt']. cbn in Hlt.
      rewrite bind_run. unfold lift. rewrite div_by_int by lia.
      rewrite bind_run, log_info_run.
      eexists. split; [| exists wt'; reflexivity].
      eapply logged_trans; [exact Hlog | eexists; reflexivity].
    + rewrite (Heq eq_refl). rewrite bind_run. unfold lift.
      exists w2. split; [exact Hlog | reflexivity].
  - rewrite (luns_stats_zero rnd sane _ _ _ _ _ Hpos Hall).
    exists w2. split; [exact Hlog | reflexivity].
Qed.

Lemma aggrs_loop_run (aggrs : list NAAggr.t) (ds_weight : gmap string Q) (w : World) :
  wf w ->
  positive_capacities (heap w) ->
  exists w', logged w w'
    /\ if forallb (aggr_precondition (heap w) (elements w)) aggrs
       then exists ds_weight', for_each aggrs ds_weight (stats_of_aggr rnd) w = (Ok ds_weight', w')
       else for_each aggrs ds_weight (stats_of_aggr rnd) w = (Raise ZeroDivisionError, w').
Proof.
  revert ds_weight w. induction aggrs as [| aggr aggrs IH]; intros ds_weight w Hwf Hpos.
  - exists w. split; [apply logged_refl |]. exists ds_weight. reflexivity.
  - cbn [for_each forallb]. rewrite bind_run.
    destruct (stats_of_aggr_run aggr ds_weight w Hwf Hpos) as (w1 & Hlog1 & Hrun).
    destruct (aggr_precondition (heap w) (elements w) aggr); cbn [andb].
    + destruct Hrun as [wt1 ->].
      destruct (logged_store _ _ Hlog1) as (Hh & He & _).
      assert (Hpos1 : positive_capacities (heap w1)) by (rewrite Hh; exact Hpos).
      destruct (IH wt1 w1 (logged_wf _ _ Hlog1 Hwf) Hpos1) as (w2 & Hlog2 & Hrun2).
      rewrite Hh, He in Hrun2.
      exists w2. split; [eapply logged_trans; eassumption | exact Hrun2].
    + rewrite Hrun. exists w1. split; [exact Hlog1 | reflexivity].
Qed.

Lemma get_aggr_and_ds_stats_run_from (na_info : list NA.t) (ds_weight : gmap string Q)
    (w : World) :
  wf w ->
  positive_capacities (heap w) ->
  exists w', logged w w'
    /\ if stats_precondition (heap w) (elements w) na_info
       then exists ds_weight',
              for_each na_info ds_weight (fun na ds_weight =>
                log_info (NetappHost (NA.host na));;
                for_each (NA.na_aggr_elements na) ds_weight (stats_of_aggr rnd)) w
              = (Ok ds_weight', w')
       else for_each na_info ds_weight (fun na ds_weight =>
                log_info (NetappHost (NA.host na));;
                for_each (NA.na_aggr_elements na) ds_weight (stats_of_aggr rnd)) w
            = (Raise ZeroDivisionError, w').
Proof.
  revert ds_weight w. induction na_info as [| na na_info IH]; intros ds_weight w Hwf Hpos.
  - exists w. split; [apply logged_refl |]. exists ds_weight. reflexivity.
  - cbn [for_each stats_precondition forallb]. rewrite bind_run, bind_run, log_info_run.
    set (w0 := set_log _ w).
    assert (Hlog0 : logged w w0) by (eexists; reflexivity).
    destruct (aggrs_loop_run (NA.na_aggr_elements na) ds_weight w0 Hwf Hpos)
      as (w1 & Hlog1 & Hrun).
    change (heap w0) with (heap w) in Hrun. change (elements w0) with (elements w) in Hrun.
    assert (Hlog01 : logged w w1) by (eapply logged_trans; eassumption).
    destruct (forallb (aggr_precondition (heap w) (elements w)) (NA.na_aggr_elements na));
      cbn [andb].
    + destruct Hrun as [wt1 ->].
      destruct (logged_store _ _ Hlog01) as (Hh & He & _).
      assert (Hpos1 : positive_capacities (heap w1)) by (rewrite Hh; exact Hpos).
      destruct (IH wt1 w1 (logged_wf _ _ Hlog01 Hwf) Hpos1) as (w2 & Hlog2 & Hrun2).
      unfold stats_precondition in Hrun2. rewrite Hh, He in Hrun2.
      exists w2. split; [eapply logged_trans; eassumption | exact Hrun2].
    + rewrite Hrun. exists w1. split; [exact Hlog01 | reflexivity].
Qed.

(** C10: [get_aggr_and_ds_stats] returns a weight map exactly when every
    datastore matched by a lun has used bytes and every pool has a matched
    lun; on every other input it raises [ZeroDivisionError]. *)
Theorem stats_total_under_precondition (na_info : list NA.t) (w : World) :
  wf w ->
  positive_capacities (heap w) ->
  exists w', logged w w'
    /\ if stats_precondition (heap w) (elements w) na_info
       then exists ds_weight, get_aggr_and_ds_stats rnd na_info w = (Ok ds_weight, w')
       else get_aggr_and_ds_stats rnd na_info w = (Raise ZeroDivisionError, w').
Proof.
  intros Hwf Hpos. exact (get_aggr_and_ds_stats_run_from na_info ∅ w Hwf Hpos).
Qed.

End JoinTotal.

(** ** The arithmetic [binary64] is sane at zero *)

Lemma round_half_even_pos (n d : Z) : 0 < d -> d <= n -> 0 < round_half_even n d.
Proof.
  intros Hd Hn. unfold round_half_even.
  assert (Hq : 1 <= n / d) by (apply Z.div_le_lower_bound; lia).
  destruct (2 * (n mod d) ?= d); [destruct (Z.even (n / d)) | |]; lia.
Qed.

Lemma pow2_pos (e : Z) : 0 <= e -> 0 < 2 ^ e.
Proof. intros He. apply Z.pow_pos_nonneg; lia. Qed.

Lemma scaled_dominates (a d e : Z) :
  0 < a -> 0 < d -> e <= Z.log2 a - Z.log2 d - 52 ->
  0 < snd (scaled a d e) /\ snd (scaled a d e) <= fst (scaled a d e).
Proof.
  intros Ha Hd He. unfold scaled.
  destruct (Z.log2_spec a Ha) as [Ha1 Ha2].
  destruct (Z.log2_spec d Hd) as [Hd1 Hd2].
  pose proof (Z.log2_nonneg a) as HA. pose proof (Z.log2_nonneg d) as HD.
  destruct (0 <=? e) eqn:E; cbn [fst snd].
  - apply Z.leb_le in E. pose proof (pow2_pos e E) as Hp. split; [nia |].
    assert (H1 : d * 2 ^ e <= 2 ^ Z.succ (Z.log2 d) * 2 ^ e) by nia.
    rewrite <- Z.pow_add_r in H1 by lia.
    assert (H2 : 2 ^ (Z.succ (Z.log2 d) + e) <= 2 ^ Z.log2 a)
      by (apply Z.pow_le_mono_r; lia).
    lia.
  - apply Z.leb_gt in E. split; [lia |].
    assert (Hp : 0 < 2 ^ (- e)) by (apply pow2_pos; lia).
    assert (H1 : 2 ^ Z.log2 a * 2 ^ (- e) <= a * 2 ^ (- e)) by nia.
    rewrite <- Z.pow_add_r in H1 by lia.
    assert (H2 : 2 ^ Z.succ (Z.log2 d) <= 2 ^ (Z.log2 a + - e))
      by (apply Z.pow_le_mono_r; lia).
    lia.
Qed.

Lemma exponent_le (a d : Z) : exponent a d <= Z.log2 a - Z.log2 d - 52.
Proof. unfold exponent. cbv zeta. destruct (_ <? _); lia. Qed.

Lemma binary64_sane : sane_at_zero binary64.
Proof.
  intros x. unfold binary64. cbv zeta.
  destruct (Qnum x =? 0) eqn:En.
  - apply Z.eqb_eq in En. split; intros _; [| reflexivity].
    unfold Qeq. cbn. lia.
  - apply Z.eqb_neq in En.
    assert (Hx : ~ (x == 0)%Q) by (unfold Qeq; cbn; lia).
    split; [| intros H; contradiction].
    intros H. exfalso.
    assert (Ha : 0 < Z.abs (Qnum x)) by lia.
    assert (Hd : 0 < Z.pos (Qden x)) by lia.
    pose proof (exponent_le (Z.abs (Qnum x)) (Z.pos (Qden x))) as He.
    destruct (scaled_dominates _ _ _ Ha Hd He) as [Hs1 Hs2].
    pose proof (round_half_even_pos _ _ Hs1 Hs2) as Hm.
    set (e := exponent (Z.abs (Qnum x)) (Z.pos (Qden x))) in *.
    set (m := round_half_even _ _) in *.
    assert (Hs : Z.sgn (Qnum x) * m <> 0) by (destruct (Qnum x); cbn; lia).
    rewrite Qred_correct in H.
    destruct (0 <=? e) eqn:E.
    + apply Z.leb_le in E. pose proof (pow2_pos e E) as Hp.
      unfold Qeq, inject_Z in H. cbn [Qnum Qden] in H. nia.
    + unfold Qeq in H. cbn [Qnum Qden] in H. lia.
Qed.

Lemma exact_sane : sane_at_zero exact.
Proof. intros x. reflexivity. Qed.

Lemma three_datastores_wf : wf three_datastores.
Proof. unfold wf. vm_compute. repeat constructor. Qed.

Lemma three_datastores_positive : positive_capacities (heap three_datastores).
Proof. unfold positive_capacities. vm_compute. repeat constructor. Qed.

Lemma stats_total_under_precondition_witness :
  (exists w' ds_weight,
     get_aggr_and_ds_stats binary64 pools_matched three_datastores = (Ok ds_weight, w'))
  /\ (exists w',
        get_aggr_and_ds_stats binary64 pool_of_empty_datastore three_datastores
        = (Raise ZeroDivisionError, w'))
  /\ (exists w',
        get_aggr_and_ds_stats binary64 pool_unmatched three_datastores
        = (Raise ZeroDivisionError, w')).
Proof.
  split; [| split].
  - destruct (stats_total_under_precondition binary64 binary64_sane pools_matched
                three_datastores three_datastores_wf three_datastores_positive)
      as (w' & _ & Hrun).
    replace (stats_precondition _ _ pools_matched) with true in Hrun
      by (vm_compute; reflexivity).
    destruct Hrun as [ds_weight Hrun]. exists w', ds_weight. exact Hrun.
  - destruct (stats_total_under_precondition binary64 binary64_sane pool_of_empty_datastore
                three_datastores three_datastores_wf three_datastores_positive)
      as (w' & _ & Hrun).
    replace (stats_precondition _ _ pool_of_empty_datastore) with false in Hrun
      by (vm_compute; reflexivity).
    exists w'. exact Hrun.
  - destruct (stats_total_under_precondition binary64 binary64_sane pool_unmatched
                three_datastores three_datastores_wf three_datastores_positive)
      as (w' & _ & Hrun).
    replace (stats_precondition _ _ pool_unmatched) with false in Hrun
      by (vm_compute; reflexivity).
    exists w'. exact Hrun.
Defined.

(** C4, where the code fails it: a pool whose only lun has the name of no
    datastore makes [get_aggr_and_ds_stats] raise [ZeroDivisionError], at
    the line that logs the usage of the datastores on the pool. *)
Theorem stats_unmatched_lun_raises :
  ds_named (heap three_datastores) "vmfs_vc_a_0_p_ssd_bb009_001" (elements three_datastores)
  = None
  /\ fst (get_aggr_and_ds_stats binary64 pool_unmatched three_datastores)
     = Raise ZeroDivisionError
  /\ log (snd (get_aggr_and_ds_stats binary64 pool_unmatched three_datastores))
     = [ {| levelname := INFO; msg := NetappHost "stnpca1-bb001" |};
         {| levelname := INFO; msg := AggregateName "aggr_ssd_04" |};
         {| levelname := INFO; msg := AggregateUsage 50 |} ].
Proof. vm_compute. repeat split. Qed.

(** ** Computations that decide nothing *)

Lemma quietly_refl (w : World) : quietly w w.
Proof.
  split; [reflexivity |]. split; [intros x Hx; exact Hx |].
  exists []. split; [rewrite app_nil_r; reflexivity | reflexivity].
Qed.

Lemma quietly_trans (w1 w2 w3 : World) : quietly w1 w2 -> quietly w2 w3 -> quietly w1 w3.
Proof.
  intros (Hn1 & He1 & l1 & Hl1 & Hd1) (Hn2 & He2 & l2 & Hl2 & Hd2).
  split; [congruence |]. split; [intros x Hx; apply He1, He2, Hx |].
  exists (l1 ++ l2). split.
  - rewrite Hl2, Hl1, app_assoc. reflexivity.
  - rewrite List.filter_app, Hd1, Hd2. reflexivity.
Qed.

Lemma calmly_refl (w : World) : calmly w w.
Proof. split; [apply quietly_refl | reflexivity]. Qed.

Lemma calmly_trans (w1 w2 w3 : World) : calmly w1 w2 -> calmly w2 w3 -> calmly w1 w3.
Proof.
  intros [Hq1 Hd1] [Hq2 Hd2]. split; [eapply quietly_trans; eassumption | congruence].
Qed.

Lemma calm_quiet {A : Type} (c : M A) : calm c -> quiet c.
Proof. intros H w. destruct (H w) as [Hf [Hq _]]. split; assumption. Qed.

Lemma calm_ret {A : Type} (a : A) : calm (mret a).
Proof. intros w. split; [discriminate | apply calmly_refl]. Qed.

Lemma calm_raise {A : Type} (e : exn) : calm (raise e : M A).
Proof. intros w. split; [discriminate | apply calmly_refl]. Qed.

Lemma calm_lift {A : Type} (c : outcome A) : c <> OutOfFuel -> calm (lift c).
Proof. intros Hc w. split; [exact Hc | apply calmly_refl]. Qed.

Lemma calm_get_world : calm get_world.
Proof. intros w. split; [discriminate | apply calmly_refl]. Qed.

Lemma calm_deref (r : ref) : calm (deref r).
Proof.
  intros w. unfold deref. destruct (heap w !! r); (split; [discriminate | apply calmly_refl]).
Qed.

Lemma calm_tell (l : list LogRecord) : List.filter is_decision l = [] -> calm (tell l).
Proof.
  intros Hl w. split; [discriminate |]. split; [| reflexivity].
  split; [reflexivity |]. split; [intros x Hx; exact Hx |].
  exists l. split; [reflexivity | exact Hl].
Qed.

Lemma calm_log_info (m : message) :
  is_decision {| levelname := INFO; msg := m |} = false -> calm (log_info m).
Proof. intros Hm. apply calm_tell. cbn [List.filter]. rewrite Hm. reflexivity. Qed.

Lemma calm_log_warning (m : message) :
  is_decision {| levelname := WARNING; msg := m |} = false -> calm (log_warning m).
Proof. intros Hm. apply calm_tell. cbn [List.filter]. rewrite Hm. reflexivity. Qed.

Lemma calm_set_elements (f : World -> list ref) :
  (forall w, f w ⊆ elements w) -> calm (modify (fun w => set_elements (f w) w)).
Proof.
  intros Hf w. split; [discriminate |]. split; [| reflexivity].
  split; [reflexivity |]. split; [apply Hf |].
  exists []. split; [cbn; rewrite app_nil_r; reflexivity | reflexivity].
Qed.

Lemma calm_bind {A B : Type} (c : M A) (k : A -> M B) :
  calm c -> (forall a, calm (k a)) -> calm (c ≫= k).
Proof.
  intros Hc Hk w. rewrite bind_run. destruct (Hc w) as [Hf Hw].
  destruct (c w) as [[a | e |] w1]; cbn [fst snd] in *.
  - destruct (Hk a w1) as [Hf1 Hw1]. split; [exact Hf1 |].
    eapply calmly_trans; eassumption.
  - split; [discriminate | exact Hw].
  - contradiction.
Qed.

Lemma quiet_bind {A B : Type} (c : M A) (k : A -> M B) :
  quiet c -> (forall a, quiet (k a)) -> quiet (c ≫= k).
Proof.
  intros Hc Hk w. rewrite bind_run. destruct (Hc w) as [Hf Hw].
  destruct (c w) as [[a | e |] w1]; cbn [fst snd] in *.
  - destruct (Hk a w1) as [Hf1 Hw1]. split; [exact Hf1 |].
    eapply quietly_trans; eassumption.
  - split; [discriminate | exact Hw].
  - contradiction.
Qed.

Lemma calm_for_each {A B : Type} (l : list A) (acc : B) (body : A -> B -> M B) :
  (forall x acc', calm (body x acc')) -> calm (for_each l acc body).
Proof.
  intros Hb. revert acc. induction l as [| x l IH]; intros acc.
  - apply calm_ret.
  - cbn [for_each]. apply calm_bind; [apply Hb | intros a; apply IH].
Qed.

Create HintDb calm discriminated.

#[local] Hint Resolve calm_ret calm_raise calm_get_world calm_deref calm_for_each : calm.

(** Breaks a goal [calm c] down along the shape of [c]. *)
Ltac calm_step :=
  lazymatch goal with
  | |- calm (mbind _ _) => apply calm_bind; [| intros ?]
  | |- calm (mret _) => apply calm_ret
  | |- calm (raise _) => apply calm_raise
  | |- calm get_world => apply calm_get_world
  | |- calm (deref _) => apply calm_deref
  | |- calm (log_info _) => apply calm_log_info; reflexivity
  | |- calm (log_warning _) => apply calm_log_warning; reflexivity
  | |- calm (for_each _ _ _) => apply calm_for_each; intros ? ?
  | |- calm (if ?b then _ else _) => destruct b
  | |- calm (match ?x with _ => _ end) => destruct x
  | |- calm (let _ := _ in _) => cbv zeta
  | |- _ => solve [eauto with calm]
  end.

Ltac calm_auto := repeat calm_step.

Lemma reads_calm {A : Type} (c : M A) : reads c -> calm c.
Proof.
  intros H w. destruct (H w) as [Hf Hw]. split; [exact Hf |].
  rewrite Hw. apply calmly_refl.
Qed.

Lemma reads_ret {A : Type} (a : A) : reads (mret a).
Proof. intros w. split; [discriminate | reflexivity]. Qed.

Lemma reads_raise {A : Type} (e : exn) : reads (raise e : M A).
Proof. intros w. split; [discriminate | reflexivity]. Qed.

Lemma reads_lift {A : Type} (c : outcome A) : c <> OutOfFuel -> reads (lift c).
Proof. intros Hc w. split; [exact Hc | reflexivity]. Qed.

Lemma reads_get_world : reads get_world.
Proof. intros w. split; [discriminate | reflexivity]. Qed.

Lemma reads_deref (r : ref) : reads (deref r).
Proof.
  intros w. unfold deref. destruct (heap w !! r); (split; [discriminate | reflexivity]).
Qed.

Lemma reads_bind {A B : Type} (c : M A) (k : A -> M B) :
  reads c -> (forall a, reads (k a)) -> reads (c ≫= k).
Proof.
  intros Hc Hk w. rewrite bind_run. destruct (Hc w) as [Hf Hw].
  destruct (c w) as [[a | e |] w1]; cbn [fst snd] in *; subst w1.
  - apply Hk.
  - split; [discriminate | reflexivity].
  - contradiction.
Qed.

Ltac reads_step :=
  lazymatch goal with
  | |- reads (mbind _ _) => apply reads_bind; [| intros ?]
  | |- reads (mret _) => apply reads_ret
  | |- reads (raise _) => apply reads_raise
  | |- reads get_world => apply reads_get_world
  | |- reads (deref _) => apply reads_deref
  | |- reads (if ?b then _ else _) => destruct b
  | |- reads (match ?x with _ => _ end) => destruct x
  | |- _ => solve [eauto with calm]
  end.

Ltac reads_auto := repeat reads_step.

Lemma reads_run {A : Type} (c : M A) (w w' : World) (o : outcome A) :
  reads c -> c w = (o, w') -> w' = w /\ o <> OutOfFuel.
Proof.
  intros H Hrun. destruct (H w) as [Hf Hw]. rewrite Hrun in Hf, Hw. cbn in Hf, Hw.
  split; [exact Hw | exact Hf].
Qed.

Lemma div_ends (rnd : Q -> Q) (x y : Q) : div rnd x y <> OutOfFuel.
Proof. unfold div. destruct (Qeq_bool y 0); discriminate. Qed.

Lemma div_int_ends (rnd : Q -> Q) (x : Q) (z : Z) : div_int rnd x z <> OutOfFuel.
Proof. unfold div_int. destruct (z =? 0); discriminate. Qed.

Lemma usage_of_ends (rnd : Q -> Q) (f c : Z) : DS.usage_of rnd f c <> OutOfFuel.
Proof.
  unfold DS.usage_of, div. destruct (Qeq_bool (of_int c) 0); discriminate.
Qed.

Lemma last_item_ends {A : Type} (l : list A) : last_item l <> OutOfFuel.
Proof. unfold last_item. destruct (last l); discriminate. Qed.

Lemma first_item_ends {A : Type} (l : list A) : first_item l <> OutOfFuel.
Proof. destruct l; discriminate. Qed.

Lemma list_remove_ends (x : moref) (l : list moref) : DS.list_remove x l <> OutOfFuel.
Proof.
  induction l as [| y l IH]; simpl; [discriminate |].
  destruct (Nat.eqb y x); [discriminate |].
  destruct (DS.list_remove x l); [discriminate | discriminate | contradiction].
Qed.

Lemma last_item_elem {A : Type} (l : list A) (x : A) : last_item l = Ok x -> x ∈ l.
Proof.
  unfold last_item. destruct (last l) as [y |] eqn:E; intros H; [| discriminate H].
  injection H as ->. apply last_Some in E. destruct E as [l' ->].
  apply elem_of_app. right. apply list_elem_of_here.
Qed.

Lemma first_item_elem {A : Type} (l : list A) (x : A) : first_item l = Ok x -> x ∈ l.
Proof.
  destruct l as [| y l]; intros H; [discriminate H |].
  injection H as ->. apply list_elem_of_here.
Qed.

#[local] Hint Resolve reads_ret reads_raise reads_get_world reads_deref
  div_ends div_int_ends usage_of_ends last_item_ends first_item_ends list_remove_ends : calm.

#[local] Hint Extern 1 (calm (lift _)) => apply calm_lift : calm.
#[local] Hint Extern 1 (reads (lift _)) => apply reads_lift : calm.

Section ReadOnly.

Variable rnd : Q -> Q.

Lemma reads_find_by_name (ds_name : string) (l : list ref) : reads (find_by_name ds_name l).
Proof. induction l as [| r l IH]; cbn [find_by_name]; reads_auto. Qed.

Lemma reads_get_by_name (ds_name : string) : reads (get_by_name ds_name).
Proof. unfold get_by_name. reads_auto. apply reads_find_by_name. Qed.

Lemma reads_filter_refs (keep : DS.t -> bool) (l : list ref) : reads (filter_refs keep l).
Proof. induction l as [| r l IH]; cbn [filter_refs]; reads_auto. Qed.

Lemma reads_deref_all (l : list ref) : reads (deref_all l).
Proof. induction l as [| r l IH]; cbn [deref_all]; reads_auto. Qed.

Lemma reads_source_keys (l : list (option ref)) : reads (source_keys l).
Proof. induction l as [| [r |] l IH]; cbn [source_keys]; reads_auto. Qed.

Lemma reads_get_overall_capacity : reads get_overall_capacity.
Proof. unfold get_overall_capacity. reads_auto. apply reads_deref_all. Qed.

Lemma reads_get_overall_freespace : reads get_overall_freespace.
Proof. unfold get_overall_freespace. reads_auto. apply reads_deref_all. Qed.

Lemma reads_get_overall_average_usage : reads (get_overall_average_usage rnd).
Proof.
  unfold get_overall_average_usage. reads_auto.
  - apply reads_get_overall_freespace.
  - apply reads_get_overall_capacity.
Qed.

End ReadOnly.

#[local] Hint Resolve reads_find_by_name reads_get_by_name reads_filter_refs
  reads_deref_all reads_source_keys reads_get_overall_capacity
  reads_get_overall_freespace reads_get_overall_average_usage : calm.

#[local] Hint Extern 5 (calm _) => apply reads_calm : calm.

(** ** Sorting rearranges *)

Section SortFacts.

Context {A K : Type} (leb : K -> K -> bool) (key : A -> K).

Lemma insert_sorted_perm (x : A) (l : list A) : insert_sorted leb key x l ≡ₚ x :: l.
Proof.
  induction l as [| y l IH]; cbn [insert_sorted].
  - reflexivity.
  - destruct (leb (key x) (key y)); [reflexivity |].
    rewrite IH. apply Permutation_swap.
Qed.

Lemma sorted_perm (l : list A) : sorted leb key l ≡ₚ l.
Proof.
  induction l as [| x l IH]; cbn.
  - reflexivity.
  - change (foldr (insert_sorted leb key) [] l) with (sorted leb key l).
    rewrite insert_sorted_perm, IH. reflexivity.
Qed.

Lemma sorted_reverse_perm (l : list A) : sorted_reverse leb key l ≡ₚ l.
Proof.
  unfold sorted_reverse.
  rewrite <- (Permutation_rev (sorted leb key (rev l))), sorted_perm.
  symmetry. apply Permutation_rev.
Qed.

Lemma sorted_elem (l : list A) (x : A) : x ∈ sorted leb key l <-> x ∈ l.
Proof. rewrite sorted_perm. reflexivity. Qed.

Lemma sorted_reverse_elem (l : list A) (x : A) : x ∈ sorted_reverse leb key l <-> x ∈ l.
Proof. rewrite sorted_reverse_perm. reflexivity. Qed.

End SortFacts.

(** ** What the readers return *)

Lemma deref_all_Ok (l : list ref) (w w' : World) (ds : list (ref * DS.t)) :
  deref_all l w = (Ok ds, w') ->
  w' = w /\ map fst ds = l /\ Forall (fun rd => heap w !! rd.1 = Some rd.2) ds.
Proof.
  revert ds w'. induction l as [| r l IH]; intros ds w' H; cbn [deref_all] in H.
  - injection H as <- <-. repeat split. apply Forall_nil. trivial.
  - apply bind_Ok_inv in H. destruct H as (d & w1 & Hd & H).
    apply deref_Ok_inv in Hd. destruct Hd as [Hd ->].
    apply bind_Ok_inv in H. destruct H as (rest & w2 & Hrest & H).
    destruct (IH _ _ Hrest) as (-> & Hmap & Hall).
    injection H as <- <-. split; [reflexivity |]. split.
    + cbn. rewrite Hmap. reflexivity.
    + apply Forall_cons. split; [exact Hd | exact Hall].
Qed.

Lemma filter_refs_Ok (keep : DS.t -> bool) (l : list ref) (w w' : World) (kept : list ref) :
  filter_refs keep l w = (Ok kept, w') ->
  w' = w
  /\ kept ⊆ l
  /\ Forall (fun r => exists d, heap w !! r = Some d /\ keep d = true) kept.
Proof.
  revert kept w'. induction l as [| r l IH]; intros kept w' H; cbn [filter_refs] in H.
  - injection H as <- <-. repeat split; [intros x Hx; exact Hx | apply Forall_nil; trivial].
  - apply bind_Ok_inv in H. destruct H as (d & w1 & Hd & H).
    apply deref_Ok_inv in Hd. destruct Hd as [Hd ->].
    apply bind_Ok_inv in H. destruct H as (rest & w2 & Hrest & H).
    destruct (IH _ _ Hrest) as (-> & Hsub & Hall).
    injection H as <- <-. split; [reflexivity |].
    destruct (keep d) eqn:Hk.
    + split.
      * intros x Hx. apply elem_of_cons in Hx. destruct Hx as [-> | Hx];
          [apply list_elem_of_here | apply list_elem_of_further, Hsub, Hx].
      * apply Forall_cons. split; [exists d; split; assumption | exact Hall].
    + split; [| exact Hall].
      intros x Hx. apply list_elem_of_further, Hsub, Hx.
Qed.

Section CalmParts.

Variable rnd : Q -> Q.

Lemma names_insert (h : list DS.t) (i : nat) (d d' : DS.t) :
  h !! i = Some d -> DS.name d' = DS.name d ->
  (DS.name <$> <[i := d']> h) = (DS.name <$> h).
Proof.
  intros Hd Hn. rewrite list_fmap_insert. apply list_insert_id.
  rewrite list_lookup_fmap, Hd. cbn. rewrite Hn. reflexivity.
Qed.

Lemma calmly_set_heap (w : World) (h : list DS.t) :
  (DS.name <$> h) = (DS.name <$> heap w) -> calmly w (set_heap h w).
Proof.
  intros Hn. split; [| reflexivity]. split; [exact Hn |].
  split; [intros x Hx; exact Hx |]. exists []. cbn. rewrite app_nil_r. split; reflexivity.
Qed.

Lemma calm_add_shadow_vm (self : ref) (vm : VM.t) : calm (add_shadow_vm rnd self vm).
Proof.
  intros w. destruct (heap w !! self) as [d |] eqn:Hd.
  - rewrite (add_shadow_vm_run rnd _ _ _ _ Hd).
    pose proof (usage_of_ends rnd (DS.freespace d - VM.get_total_disksize vm) (DS.capacity d)).
    destruct (DS.usage_of rnd _ _) as [u | e |]; [| | contradiction];
      (split; [discriminate |]); apply calmly_set_heap;
      apply (names_insert _ _ _ _ Hd); reflexivity.
  - unfold add_shadow_vm. rewrite bind_run. unfold deref. rewrite Hd.
    split; [discriminate | apply calmly_refl].
Qed.

Lemma calm_remove_shadow_vm (self : ref) (vm : VM.t) : calm (remove_shadow_vm rnd self vm).
Proof.
  intros w. destruct (heap w !! self) as [d |] eqn:Hd.
  - rewrite (remove_shadow_vm_run rnd _ _ _ _ Hd).
    pose proof (list_remove_ends (VM.handle vm) (DS.vm_handles d)).
    destruct (DS.list_remove _ _) as [hs | e |]; [| | contradiction].
    + pose proof (usage_of_ends rnd (DS.freespace d + VM.get_total_disksize vm)
                    (DS.capacity d)).
      destruct (DS.usage_of rnd _ _) as [u | e |]; [| | contradiction];
        (split; [discriminate |]); apply calmly_set_heap;
        apply (names_insert _ _ _ _ Hd); reflexivity.
    + split; [discriminate | apply calmly_refl].
  - unfold remove_shadow_vm. rewrite bind_run. unfold deref. rewrite Hd.
    split; [discriminate | apply calmly_refl].
Qed.

Lemma calm_vmfs_ds (ds_denylist_ : list string) : calm (vmfs_ds ds_denylist_).
Proof.
  intros w. unfold vmfs_ds. rewrite bind_run. cbn [get_world]. rewrite bind_run.
  destruct (filter_refs _ (elements w) w) as [[kept | e |] w1] eqn:Hf.
  - destruct (filter_refs_Ok _ _ _ _ _ Hf) as (-> & Hsub & _).
    split; [discriminate |]. split; [| reflexivity].
    split; [reflexivity |]. split; [exact Hsub |].
    exists []. cbn. rewrite app_nil_r. split; reflexivity.
  - destruct (reads_run _ _ _ _ (reads_filter_refs _ _) Hf) as [-> _].
    split; [discriminate | apply calmly_refl].
  - destruct (reads_run _ _ _ _ (reads_filter_refs _ _) Hf) as [_ Hne]. contradiction.
Qed.

Lemma calm_sort_by_usage (ds_weight : gmap string Q) : calm (sort_by_usage rnd ds_weight).
Proof.
  intros w. unfold sort_by_usage. rewrite bind_run. cbn [get_world]. rewrite bind_run.
  destruct (deref_all (elements w) w) as [[ds | e |] w1] eqn:Hd.
  - destruct (deref_all_Ok _ _ _ _ Hd) as (-> & Hmap & _).
    split; [discriminate |]. split; [| reflexivity].
    split; [reflexivity |]. split.
    + cbn [modify snd elements set_elements]. intros x Hx.
      rewrite <- Hmap. change (x ∈ fst <$> ds).
      apply list_elem_of_fmap in Hx. destruct Hx as (rd & -> & Hrd).
      apply list_elem_of_fmap_2. apply sorted_reverse_elem in Hrd. exact Hrd.
    + exists []. cbn. rewrite app_nil_r. split; reflexivity.
  - destruct (reads_run _ _ _ _ (reads_deref_all _) Hd) as [-> _].
    split; [discriminate | apply calmly_refl].
  - destruct (reads_run _ _ _ _ (reads_deref_all _) Hd) as [_ Hne]. contradiction.
Qed.

Lemma is_shadow_vm_warns (vm : VM.t) :
  List.filter is_decision (snd (VM.is_shadow_vm vm)) = [].
Proof.
  unfold VM.is_shadow_vm.
  destruct (_ && _); [| reflexivity].
  destruct (_ =? _)%nat; [reflexivity |].
  destruct (_ <? _)%nat; reflexivity.
Qed.

Lemma flat_map_warns (vms : list VM.t) :
  List.filter is_decision (flat_map (fun vm => snd (VM.is_shadow_vm vm)) vms) = [].
Proof.
  induction vms as [| vm vms IH]; cbn [flat_map]; [reflexivity |].
  rewrite List.filter_app, is_shadow_vm_warns, IH. reflexivity.
Qed.

Lemma calm_get_shadow_vms (vm_info : list VM.t) (vm_handles : list moref) :
  calm (get_shadow_vms vm_info vm_handles).
Proof.
  unfold get_shadow_vms. cbv zeta. apply calm_bind; [| intros; apply calm_ret].
  apply calm_tell. apply flat_map_warns.
Qed.

End CalmParts.

#[local] Hint Resolve calm_add_shadow_vm calm_remove_shadow_vm calm_vmfs_ds
  calm_sort_by_usage calm_get_shadow_vms : calm.

(** ** The effect of a move, whatever its outcome *)

Lemma fails_calmly_bind {A B : Type} (c : M A) (k : A -> M B) :
  calm c -> (forall a, fails_calmly (k a)) -> fails_calmly (c ≫= k).
Proof.
  intros Hc Hk w. rewrite bind_run. destruct (Hc w) as [Hf Hw].
  destruct (c w) as [[a | e |] w1]; cbn [fst snd] in *.
  - destruct (Hk a w1) as [Hf1 [Hok | Hcalm]].
    + split; [exact Hf1 | left; exact Hok].
    + split; [exact Hf1 | right; eapply calmly_trans; eassumption].
  - split; [discriminate | right; exact Hw].
  - contradiction.
Qed.

Lemma moves_in_app (l1 l2 : list LogRecord) :
  moves_in (l1 ++ l2) = (moves_in l1 + moves_in l2)%nat.
Proof. induction l1 as [| r l1 IH]; cbn; [reflexivity | rewrite IH; lia]. Qed.

Lemma moves_in_decisions (l : list LogRecord) :
  moves_in (List.filter is_decision l) = moves_in l.
Proof.
  induction l as [| [lv m] l IH]; [reflexivity |].
  destruct m; cbn [List.filter is_decision msg moves_in]; rewrite IH; reflexivity.
Qed.

Lemma move_between_decisions (is_source : World -> ref -> Prop) (w : World)
    (l : list LogRecord) :
  Forall (move_between is_source w) (List.filter is_decision l) ->
  Forall (move_between is_source w) l.
Proof.
  induction l as [| r l IH]; cbn [List.filter]; intros H; [apply Forall_nil; trivial |].
  destruct (is_decision r) eqn:E.
  - apply Forall_cons in H. destruct H as [Hr Hl].
    apply Forall_cons. split; [exact Hr | exact (IH Hl)].
  - apply Forall_cons. split; [| exact (IH H)].
    unfold move_between, is_decision in *. destruct (msg r); try exact I. discriminate E.
Qed.

Section MoveEffect.

Variable rnd : Q -> Q.

Lemma move_fails_calmly (ds1 ds2 : ref) (vm : VM.t) :
  fails_calmly (move_shadow_vm_from_ds_to_ds rnd ds1 ds2 vm).
Proof.
  unfold move_shadow_vm_from_ds_to_ds.
  apply fails_calmly_bind; [apply calm_deref | intros source_before].
  apply fails_calmly_bind; [apply calm_remove_shadow_vm | intros _].
  apply fails_calmly_bind; [apply calm_deref | intros source_after].
  apply fails_calmly_bind; [apply calm_deref | intros target_before].
  apply fails_calmly_bind; [apply calm_add_shadow_vm | intros _].
  apply fails_calmly_bind; [apply calm_deref | intros target_after].
  intros w. split; [discriminate | left; exists tt; reflexivity].
Qed.

Lemma names_lookup (h : list DS.t) (r : ref) (d : DS.t) :
  h !! r = Some d -> (DS.name <$> h) !! r = Some (DS.name d).
Proof. intros H. rewrite list_lookup_fmap, H. reflexivity. Qed.

(** A move either fails before it logs anything that counts, or it logs
    its three records, with the names the two objects had before. *)
Lemma move_effect (ds1 ds2 : ref) (vm : VM.t) (w : World) :
  fst (move_shadow_vm_from_ds_to_ds rnd ds1 ds2 vm w) <> OutOfFuel
  /\ (((exists e, fst (move_shadow_vm_from_ds_to_ds rnd ds1 ds2 vm w) = Raise e)
       /\ calmly w (snd (move_shadow_vm_from_ds_to_ds rnd ds1 ds2 vm w)))
      \/ (fst (move_shadow_vm_from_ds_to_ds rnd ds1 ds2 vm w) = Ok tt
          /\ (DS.name <$> heap (snd (move_shadow_vm_from_ds_to_ds rnd ds1 ds2 vm w)))
             = (DS.name <$> heap w)
          /\ elements (snd (move_shadow_vm_from_ds_to_ds rnd ds1 ds2 vm w)) = elements w
          /\ ds_denylist (snd (move_shadow_vm_from_ds_to_ds rnd ds1 ds2 vm w))
             = ds_denylist w
          /\ exists size n1 n2 u1 u2 u3 u4,
               (DS.name <$> heap w) !! ds1 = Some n1
               /\ (DS.name <$> heap w) !! ds2 = Some n2
               /\ log (snd (move_shadow_vm_from_ds_to_ds rnd ds1 ds2 vm w))
                  = log w ++ decision_records (VM.name vm) size n1 n2 u1 u2 u3 u4)).
Proof.
  destruct (move_fails_calmly ds1 ds2 vm w) as [Hne Hcases].
  split; [exact Hne |].
  destruct (move_shadow_vm_from_ds_to_ds rnd ds1 ds2 vm w) as [[[] | e |] w'] eqn:Hrun;
    cbn [fst snd] in *.
  - right. split; [reflexivity |].
    destruct (move_Ok_inv rnd _ _ _ _ _ Hrun)
      as (d1 & hs & u1 & d2 & u2 & H1 & Hhs & Hu1 & H2 & Hu2 & Hheap & Hel & Hdl & Hlog).
    assert (Hn1 : (DS.name <$> <[ds1 := DS.set_usage u1 (without_vm vm hs d1)]> (heap w))
                  = (DS.name <$> heap w))
      by (apply (names_insert _ _ _ _ H1); reflexivity).
    split; [| split; [exact Hel | split; [exact Hdl |]]].
    + rewrite Hheap, (names_insert _ _ _ _ H2) by reflexivity. exact Hn1.
    + eexists _, (DS.name d1), (DS.name d2), _, _, _, _.
      split; [apply names_lookup; exact H1 |].
      split; [rewrite <- Hn1; apply names_lookup; exact H2 | exact Hlog].
  - left. split; [exists e; reflexivity |].
    destruct Hcases as [[a Ha] | Hcalm]; [discriminate Ha | exact Hcalm].
  - contradiction.
Qed.

End MoveEffect.

(** ** One turn of a balancing loop *)

Section Turns.

Variable rnd : Q -> Q.

Context {St : Type} (moves_done : St -> Z) (cap : Z)
  (is_source : World -> ref -> Prop).

Lemma turn_calm (s : St) (w0 w' : World) (o : outcome (flow St)) :
  calmly w0 w' -> o <> OutOfFuel -> (forall s', o <> Ok (Continue s')) ->
  turn moves_done cap is_source s w0 o w'.
Proof.
  intros [(Hn & He & l & Hl & Hd) Hdl] Ho Hc.
  split; [exact Ho |]. split; [exact Hn |]. split; [exact He |]. split; [exact Hdl |].
  exists l. split; [exact Hl |]. left. split; assumption.
Qed.

Lemma turn_bind {A : Type} (s : St) (w0 w : World) (c : M A) (k : A -> M (flow St)) :
  calm c -> calmly w0 w ->
  (forall a w1, c w = (Ok a, w1) -> calmly w0 w1 ->
     turn moves_done cap is_source s w0 (fst (k a w1)) (snd (k a w1))) ->
  turn moves_done cap is_source s w0 (fst ((c ≫= k) w)) (snd ((c ≫= k) w)).
Proof.
  intros Hc Hw Hk. rewrite bind_run. destruct (Hc w) as [Hf Hcw].
  destruct (c w) as [[a | e |] w1] eqn:Hrun; cbn [fst snd] in *.
  - apply (Hk a w1 eq_refl). eapply calmly_trans; eassumption.
  - apply turn_calm; [eapply calmly_trans; eassumption | discriminate | discriminate].
  - contradiction.
Qed.

Lemma turn_break (s : St) (w0 w : World) (c : M unit) :
  calm c -> calmly w0 w ->
  turn moves_done cap is_source s w0
       (fst ((c ≫= fun _ => mret (Break (St := St))) w))
       (snd ((c ≫= fun _ => mret (Break (St := St))) w)).
Proof.
  intros Hc Hw. apply turn_bind; [exact Hc | exact Hw |].
  intros a w1 _ Hw1. apply turn_calm; [exact Hw1 | discriminate | discriminate].
Qed.

Lemma turn_move (s s' : St) (w0 w : World) (src tgt : ref) (vm : VM.t) :
  calmly w0 w ->
  moves_done s <= cap ->
  moves_done s' = moves_done s + 1 ->
  is_source w0 src ->
  tgt ∈ elements w0 ->
  turn moves_done cap is_source s w0
    (fst ((move_shadow_vm_from_ds_to_ds rnd src tgt vm ≫= fun _ =>
           sort_by_usage rnd ∅ ≫= fun _ => mret (Continue s')) w))
    (snd ((move_shadow_vm_from_ds_to_ds rnd src tgt vm ≫= fun _ =>
           sort_by_usage rnd ∅ ≫= fun _ => mret (Continue s')) w)).
Proof.
  intros Hw Hcap Hs' Hsrc Htgt. rewrite bind_run.
  destruct (move_effect rnd src tgt vm w) as [Hne Hcases].
  destruct (move_shadow_vm_from_ds_to_ds rnd src tgt vm w) as [[[] | e |] w1] eqn:Hrun;
    cbn [fst snd] in *; [| | contradiction].
  - destruct Hcases as [[[e He] _] | Hok]; [discriminate He |].
    destruct Hok as (_ & Hn1 & He1 & Hd1 & size & n1 & n2 & u1 & u2 & u3 & u4
                     & Hl1 & Hl2 & Hlog1).
    assert (Hrest : calm (sort_by_usage rnd ∅ ≫= fun _ => mret (Continue s')))
      by (apply calm_bind; [apply calm_sort_by_usage | intros; apply calm_ret]).
    destruct (Hrest w1) as [Hne2 [(Hn2 & He2 & l2 & Hlog2 & Hdec2) Hd2]].
    destruct Hw as [(Hn0 & He0 & l0 & Hlog0 & Hdec0) Hd0].
    split; [exact Hne2 |]. split; [congruence |]. split.
    { intros x Hx. apply He0. rewrite <- He1. apply He2, Hx. }
    split; [congruence |].
    exists (l0 ++ decision_records (VM.name vm) size n1 n2 u1 u2 u3 u4 ++ l2). split.
    { rewrite Hlog2, Hlog1, Hlog0, <- !app_assoc. reflexivity. }
    right. exists src, tgt, (VM.name vm), size, n1, n2, u1, u2, u3, u4.
    split; [exact Hcap |]. split.
    { intros s'' Hs''. rewrite bind_run in Hs''.
      destruct (sort_by_usage rnd ∅ w1) as [[[] | e |] w2];
        [| discriminate Hs'' | discriminate Hs''].
      change (Ok (Continue s') = Ok (Continue s'')) in Hs''.
      injection Hs'' as <-. exact Hs'. }
    split; [exact Hsrc |]. split; [exact Htgt |].
    split; [rewrite <- Hn0; exact Hl1 |]. split; [rewrite <- Hn0; exact Hl2 |].
    rewrite !List.filter_app, Hdec0, Hdec2, app_nil_r. reflexivity.
  - destruct Hcases as [[_ Hcalm] | [Hok _]]; [| discriminate Hok].
    apply turn_calm; [eapply calmly_trans; eassumption | discriminate | discriminate].
Qed.

End Turns.

Lemma lift_run {A : Type} (c : outcome A) (w w' : World) (o : outcome A) :
  lift c w = (o, w') -> c = o /\ w' = w.
Proof. unfold lift. intros H. injection H as <- <-. split; reflexivity. Qed.

Lemma get_world_run (w w1 w2 : World) : get_world w = (Ok w1, w2) -> w1 = w /\ w2 = w.
Proof. unfold get_world. intros H. injection H as <- <-. split; reflexivity. Qed.

Lemma calmly_elements (w0 w : World) (r : ref) : calmly w0 w -> r ∈ elements w -> r ∈ elements w0.
Proof. intros [(_ & He & _) _] Hr. apply He, Hr. Qed.

Section BalancerTurns.

Variable rnd : Q -> Q.

(** A turn of the pool-level loop is a [turn]: its source is the one
    datastore fixed before the loop. *)
Lemma aggr_turn (vm_info : list VM.t) (args : Args) (ds_weight : gmap string Q)
    (size_to_free : Q) (source : ref) (avg : Q) (vars : Z * Z) (w : World) :
  turn fst (max_move_vms args) (fun _ r => r = source) vars w
    (fst (aggr_balancing_step rnd vm_info args ds_weight size_to_free source avg vars w))
    (snd (aggr_balancing_step rnd vm_info args ds_weight size_to_free source avg vars w)).
Proof.
  unfold aggr_balancing_step. cbv zeta.
  destruct (max_move_vms args <? vars.1) eqn:Emax.
  { apply turn_break; [calm_auto | apply calmly_refl]. }
  apply Z.ltb_ge in Emax.
  destruct (Qltb size_to_free (of_int vars.2)).
  { apply turn_break; [calm_auto | apply calmly_refl]. }
  apply turn_bind; [calm_auto | apply calmly_refl |]. intros src_d w1 _ Hc1.
  destruct (Qltb (DS.usage src_d) _).
  { apply turn_break; [calm_auto | exact Hc1]. }
  apply turn_bind; [calm_auto | exact Hc1 |]. intros [] w2 _ Hc2.
  apply turn_bind; [calm_auto | exact Hc2 |]. intros w2' w3 Hget Hc3.
  apply get_world_run in Hget. destruct Hget as [-> ->].
  apply turn_bind; [calm_auto | exact Hc3 |]. intros tgt w4 Hlast Hc4.
  apply lift_run in Hlast. destruct Hlast as [Hlast ->].
  apply last_item_elem in Hlast. apply (calmly_elements _ _ _ Hc2) in Hlast.
  apply turn_bind; [calm_auto | exact Hc4 |]. intros least w5 _ Hc5.
  apply turn_bind; [calm_auto | exact Hc5 |]. intros shadow_vms w6 _ Hc6.
  destruct (filter _ shadow_vms) as [| vm vms].
  { apply turn_break; [calm_auto | exact Hc6]. }
  apply turn_bind; [calm_auto | exact Hc6 |]. intros largest w7 _ Hc7.
  apply turn_move; [exact Hc7 | exact Emax | reflexivity | reflexivity | exact Hlast].
Qed.

(** A turn of the datastore-level loop is a [turn]: its source is a member
    of [ds_info.elements]. *)
Lemma ds_turn (vm_info : list VM.t) (args : Args) (ds_weight : gmap string Q)
    (moves_done : Z) (w : World) :
  turn (fun m : Z => m) (max_move_vms args) (fun w0 r => r ∈ elements w0) moves_done w
    (fst (ds_balancing_step rnd vm_info args ds_weight moves_done w))
    (snd (ds_balancing_step rnd vm_info args ds_weight moves_done w)).
Proof.
  unfold ds_balancing_step.
  destruct (max_move_vms args <? moves_done) eqn:Emax.
  { apply turn_break; [calm_auto | apply calmly_refl]. }
  apply Z.ltb_ge in Emax.
  apply turn_bind; [calm_auto | apply calmly_refl |]. intros w0' w1 Hget Hc1.
  apply get_world_run in Hget. destruct Hget as [-> ->].
  apply turn_bind; [calm_auto | exact Hc1 |]. intros most_used w2 Hfirst Hc2.
  apply lift_run in Hfirst. destruct Hfirst as [Hfirst ->].
  apply first_item_elem in Hfirst.
  apply turn_bind; [calm_auto | exact Hc2 |]. intros [] w3 _ Hc3.
  apply turn_bind; [calm_auto | exact Hc3 |]. intros w3' w4 Hget Hc4.
  apply get_world_run in Hget. destruct Hget as [-> ->].
  apply turn_bind; [calm_auto | exact Hc4 |]. intros tgt w5 Hlast Hc5.
  apply lift_run in Hlast. destruct Hlast as [Hlast ->].
  apply last_item_elem in Hlast. apply (calmly_elements _ _ _ Hc3) in Hlast.
  apply turn_bind; [calm_auto | exact Hc5 |]. intros most w6 _ Hc6.
  apply turn_bind; [calm_auto | exact Hc6 |]. intros least w7 _ Hc7.
  apply turn_bind; [calm_auto | exact Hc7 |]. intros shadow_vms w8 _ Hc8.
  destruct (filter _ shadow_vms) as [| vm vms].
  { apply turn_break; [calm_auto | exact Hc8]. }
  apply turn_bind; [calm_auto | exact Hc8 |]. intros largest w9 _ Hc9.
  apply turn_move; [exact Hc9 | exact Emax | reflexivity | exact Hfirst | exact Hlast].
Qed.

End BalancerTurns.

(** ** The loops end, and count their moves *)

Lemma moves_in_decision_records (vm : string) (size : Q) (n1 n2 : string) (u1 u2 u3 u4 : Q) :
  moves_in (decision_records vm size n1 n2 u1 u2 u3 u4) = 1%nat.
Proof. reflexivity. Qed.

Lemma move_between_stable (is_source : World -> ref -> Prop) (w w' : World) (r : LogRecord) :
  (forall x, is_source w' x -> is_source w x) ->
  (DS.name <$> heap w') = (DS.name <$> heap w) ->
  elements w' ⊆ elements w ->
  move_between is_source w' r -> move_between is_source w r.
Proof.
  intros Hsrc Hn He. unfold move_between. destruct (msg r); try (intros; exact I).
  intros (src & tgt & Hs & Ht & H1 & H2). exists src, tgt.
  split; [apply Hsrc, Hs |]. split; [apply He, Ht |].
  rewrite <- Hn. split; assumption.
Qed.

Section Loops.

Context {St : Type} (moves_done : St -> Z) (cap : Z)
  (is_source : World -> ref -> Prop) (body : St -> M (flow St)).

Hypothesis body_turn :
  forall s w, turn moves_done cap is_source s w (fst (body s w)) (snd (body s w)).

Hypothesis source_stable :
  forall w w' x,
    (DS.name <$> heap w') = (DS.name <$> heap w) -> elements w' ⊆ elements w ->
    is_source w' x -> is_source w x.

Lemma turn_moves (s : St) (w w' : World) (o : outcome (flow St)) (l : list LogRecord) :
  (List.filter is_decision l = [] /\ (forall s', o <> Ok (Continue s'))
   \/ (exists src tgt vm size n1 n2 u1 u2 u3 u4,
         moves_done s <= cap
         /\ (forall s', o = Ok (Continue s') -> moves_done s' = moves_done s + 1)
         /\ is_source w src
         /\ tgt ∈ elements w
         /\ (DS.name <$> heap w) !! src = Some n1
         /\ (DS.name <$> heap w) !! tgt = Some n2
         /\ List.filter is_decision l = decision_records vm size n1 n2 u1 u2 u3 u4)) ->
  (moves_in l <= 1)%nat
  /\ (moves_in l = 1%nat -> moves_done s <= cap)
  /\ Forall (move_between is_source w) l.
Proof.
  intros [[Hd _] | (src & tgt & vm & size & n1 & n2 & u1 & u2 & u3 & u4
                    & Hcap & _ & Hs & Ht & H1 & H2 & Hd)].
  - rewrite <- moves_in_decisions, Hd. cbn. split; [lia |]. split; [discriminate |].
    apply move_between_decisions. rewrite Hd. apply Forall_nil. trivial.
  - rewrite <- moves_in_decisions, Hd. cbn. split; [lia |]. split; [intros _; exact Hcap |].
    apply move_between_decisions. rewrite Hd. unfold decision_records.
    repeat (apply Forall_cons; split); [| exact I | exact I | apply Forall_nil; trivial].
    exists src, tgt. repeat split; assumption.
Qed.

Lemma while_true_effect (fuel : nat) (s : St) (w : World) :
  (Z.to_nat (cap + 1 - moves_done s) < fuel)%nat ->
  loop_effect (Z.to_nat (cap + 1 - moves_done s)) is_source w
    (fst (while_true fuel body s w)) (snd (while_true fuel body s w)).
Proof.
  revert s w. induction fuel as [| fuel IH]; intros s w Hfuel; [lia |].
  cbn [while_true]. rewrite bind_run.
  destruct (body_turn s w) as (Hne & Hn & He & Hdl & l & Hlog & Hcases).
  destruct (turn_moves s w (snd (body s w)) _ l Hcases) as (Hm1 & Hm2 & Hall).
  destruct (body s w) as [[[| s'] | e |] w1] eqn:Hrun; cbn [fst snd] in *.
  - split; [discriminate |]. split; [exact Hn |]. split; [exact He |].
    split; [exact Hdl |]. exists l. split; [exact Hlog |]. split; [| exact Hall].
    destruct (moves_in l) as [| [| n]] eqn:Em; [lia | specialize (Hm2 eq_refl); lia | lia].
  - destruct Hcases as [[_ Hno] | (src & tgt & vm & size & n1 & n2 & u1 & u2 & u3 & u4
                                   & Hcap & Hs' & _ & _ & _ & _ & Hd)].
    { exfalso. exact (Hno s' eq_refl). }
    specialize (Hs' s' eq_refl).
    assert (Hfuel' : (Z.to_nat (cap + 1 - moves_done s') < fuel)%nat) by lia.
    destruct (IH s' w1 Hfuel') as (Hne2 & Hn2 & He2 & Hdl2 & l2 & Hlog2 & Hm & Hall2).
    split; [exact Hne2 |]. split; [congruence |].
    split; [intros x Hx; apply He, He2, Hx |]. split; [congruence |].
    exists (l ++ l2). split; [rewrite Hlog2, Hlog, app_assoc; reflexivity |].
    split.
    + rewrite moves_in_app. lia.
    + apply Forall_app. split; [exact Hall |].
      eapply Forall_impl; [exact Hall2 |]. intros r Hr.
      apply (move_between_stable is_source w w1 r); try assumption.
      intros x. apply source_stable; assumption.
  - split; [discriminate |]. split; [exact Hn |]. split; [exact He |].
    split; [exact Hdl |]. exists l. split; [exact Hlog |]. split; [| exact Hall].
    destruct (moves_in l) as [| [| n]] eqn:Em; [lia | specialize (Hm2 eq_refl); lia | lia].
  - contradiction.
Qed.

End Loops.

(** ** The parts of a pass before its loop decide nothing *)

Section CalmPass.

Variable rnd : Q -> Q.

Lemma calm_stats_of_lun (aggr : NAAggr.t) (lun : NALun.t) (acc : Z * Z * gmap string Q) :
  calm (stats_of_lun rnd aggr lun acc).
Proof. unfold stats_of_lun. calm_auto. Qed.

Lemma calm_stats_of_aggr (aggr : NAAggr.t) (ds_weight : gmap string Q) :
  calm (stats_of_aggr rnd aggr ds_weight).
Proof. unfold stats_of_aggr. calm_auto. apply calm_stats_of_lun. Qed.

Lemma calm_get_aggr_and_ds_stats (na_info : list NA.t) :
  calm (get_aggr_and_ds_stats rnd na_info).
Proof. unfold get_aggr_and_ds_stats. calm_auto. apply calm_stats_of_aggr. Qed.

Lemma calm_get_max_usage_aggr (na_info : list NA.t) :
  calm (get_max_usage_aggr rnd na_info).
Proof. unfold get_max_usage_aggr. calm_auto. Qed.

Lemma calm_find_balancing_source_ds (args : Args) (max_usage_aggr : NAAggr.t) :
  calm (find_balancing_source_ds args max_usage_aggr).
Proof. unfold find_balancing_source_ds. calm_auto. Qed.

Lemma calm_log_ds_and_shadow_vms (vm_info : list VM.t) (args : Args) (l : list ref) :
  calm (log_ds_and_shadow_vms rnd vm_info args l).
Proof.
  induction l as [| i l IH]; cbn [log_ds_and_shadow_vms]; calm_auto.
Qed.

Lemma calm_sanity_checks (least_used_ds most_used_ds : ref) (min_usage_ max_usage_ : Q)
    (min_freespace_ min_max_difference_ : Z) :
  calm (sanity_checks rnd least_used_ds most_used_ds min_usage_ max_usage_
          min_freespace_ min_max_difference_).
Proof. unfold sanity_checks. calm_auto. Qed.

End CalmPass.

(** ** The deny list of a pass *)

Lemma extended_ds_denylist_run (max_usage_aggr : NAAggr.t) (w : World) :
  extended_ds_denylist max_usage_aggr w
  = (Ok (derived_denylist (ds_denylist w) (map NALun.name (NAAggr.luns max_usage_aggr))),
     set_ds_denylist
       (denylist_extended (ds_denylist w) (map NALun.name (NAAggr.luns max_usage_aggr))) w).
Proof.
  unfold extended_ds_denylist, derived_denylist, denylist_extended.
  rewrite bind_run. cbn [get_world].
  destruct w as [h els [[| x l] |] lg]; reflexivity.
Qed.

Lemma quiet_extended_ds_denylist (max_usage_aggr : NAAggr.t) :
  quiet (extended_ds_denylist max_usage_aggr).
Proof.
  intros w. rewrite extended_ds_denylist_run. split; [discriminate |].
  split; [reflexivity |]. split; [intros x Hx; exact Hx |].
  exists []. cbn. rewrite app_nil_r. split; reflexivity.
Qed.

Lemma vmfs_ds_Ok (ds_denylist_ : list string) (w w' : World) :
  vmfs_ds ds_denylist_ w = (Ok tt, w') ->
  exists kept,
    w' = set_elements kept w
    /\ kept ⊆ elements w
    /\ Forall (fun r => exists d, heap w !! r = Some d
                                  /\ kept_by_vmfs_ds ds_denylist_ d = true) kept.
Proof.
  unfold vmfs_ds. intros H.
  apply bind_Ok_inv in H. destruct H as (w0 & w1 & Hget & H).
  apply get_world_run in Hget. destruct Hget as [-> ->].
  apply bind_Ok_inv in H. destruct H as (kept & w2 & Hf & H).
  destruct (filter_refs_Ok _ _ _ _ _ Hf) as (-> & Hsub & Hall).
  injection H as <-. exists kept. split; [reflexivity |]. split; [exact Hsub | exact Hall].
Qed.

Lemma kept_not_denied (ds_denylist_ : list string) (d : DS.t) :
  kept_by_vmfs_ds ds_denylist_ d = true -> DS.name d ∉ ds_denylist_.
Proof.
  unfold kept_by_vmfs_ds. intros H. apply andb_true_iff in H. destruct H as [_ H].
  apply negb_true_iff in H. destruct ds_denylist_ as [| x l].
  - apply not_elem_of_nil.
  - cbn [andb] in H. apply bool_decide_eq_false in H. exact H.
Qed.

(** Stepping through a computation whose parts before the interesting one
    are calm: a property that holds of every calm failure holds of the
    whole if it holds of the rest. *)
Lemma step_calm {A B : Type} (P : outcome B -> World -> Prop)
    (c : M A) (k : A -> M B) (w0 w : World) :
  (forall e w1, calmly w0 w1 -> P (Raise e) w1) ->
  calm c -> calmly w0 w ->
  (forall a w1, c w = (Ok a, w1) -> calmly w0 w1 -> P (fst (k a w1)) (snd (k a w1))) ->
  P (fst ((c ≫= k) w)) (snd ((c ≫= k) w)).
Proof.
  intros Hfail Hc Hw Hk. rewrite bind_run. destruct (Hc w) as [Hf Hcw].
  destruct (c w) as [[a | e |] w1] eqn:Hrun; cbn [fst snd] in *.
  - apply (Hk a w1 eq_refl). eapply calmly_trans; eassumption.
  - apply Hfail. eapply calmly_trans; eassumption.
  - contradiction.
Qed.

Lemma names_lookup_inv (h : list DS.t) (r : ref) (n : string) :
  (DS.name <$> h) !! r = Some n -> exists d, h !! r = Some d /\ DS.name d = n.
Proof.
  rewrite list_lookup_fmap. destruct (h !! r) as [d |]; cbn; intros H; [| discriminate H].
  injection H as <-. exists d. split; reflexivity.
Qed.

Section PreparePass.

Variable rnd : Q -> Q.

(** What [prepare_pass] leaves behind: a quiet step; the deny list is
    extended when the step succeeds; and then no member of
    [ds_info.elements] has a name on the derived deny list. *)
Lemma prepare_pass_effect (vm_info : list VM.t) (args : Args) (max_usage_aggr : NAAggr.t)
    (w : World) :
  fst (prepare_pass rnd vm_info args max_usage_aggr w) <> OutOfFuel
  /\ quietly w (snd (prepare_pass rnd vm_info args max_usage_aggr w))
  /\ (ds_denylist (snd (prepare_pass rnd vm_info args max_usage_aggr w)) = ds_denylist w
      \/ ds_denylist (snd (prepare_pass rnd vm_info args max_usage_aggr w))
         = denylist_extended (ds_denylist w) (map NALun.name (NAAggr.luns max_usage_aggr)))
  /\ (forall avg, fst (prepare_pass rnd vm_info args max_usage_aggr w) = Ok avg ->
        ds_denylist (snd (prepare_pass rnd vm_info args max_usage_aggr w))
        = denylist_extended (ds_denylist w) (map NALun.name (NAAggr.luns max_usage_aggr))
        /\ Forall (fun x => exists n,
                     (DS.name <$> heap w) !! x = Some n
                     /\ n ∉ derived_denylist (ds_denylist w)
                            (map NALun.name (NAAggr.luns max_usage_aggr)))
             (elements (snd (prepare_pass rnd vm_info args max_usage_aggr w)))).
Proof.
  set (names := map NALun.name (NAAggr.luns max_usage_aggr)).
  set (P := fun (o : outcome Q) (w' : World) =>
    o <> OutOfFuel
    /\ quietly w w'
    /\ (ds_denylist w' = ds_denylist w
        \/ ds_denylist w' = denylist_extended (ds_denylist w) names)
    /\ (forall avg, o = Ok avg ->
          ds_denylist w' = denylist_extended (ds_denylist w) names
          /\ Forall (fun x => exists n, (DS.name <$> heap w) !! x = Some n
                                        /\ n ∉ derived_denylist (ds_denylist w) names)
               (elements w'))).
  change (P (fst (prepare_pass rnd vm_info args max_usage_aggr w))
            (snd (prepare_pass rnd vm_info args max_usage_aggr w))).
  assert (Hfail : forall e w1, calmly w w1 -> P (Raise e) w1).
  { intros e w1 [Hq Hd]. split; [discriminate |]. split; [exact Hq |].
    split; [left; exact Hd | intros avg Havg; discriminate Havg]. }
  unfold prepare_pass.
  apply (step_calm P _ _ w); [exact Hfail | calm_auto | apply calmly_refl |]. intros avg w1 _ Hc1.
  apply (step_calm P _ _ w); [exact Hfail | calm_auto | exact Hc1 |]. intros f w2 _ Hc2.
  apply (step_calm P _ _ w); [exact Hfail | calm_auto | exact Hc2 |]. intros c w3 _ Hc3.
  apply (step_calm P _ _ w); [exact Hfail | calm_auto | exact Hc3 |]. intros [] w4 _ Hc4.
  apply (step_calm P _ _ w); [exact Hfail | calm_auto | exact Hc4 |]. intros w4' w5 _ Hc5.
  apply (step_calm P _ _ w);
    [exact Hfail | apply calm_log_ds_and_shadow_vms | exact Hc5 |]. intros [] w6 _ Hc6.
  rewrite bind_run, extended_ds_denylist_run.
  destruct Hc6 as [(Hn6 & He6 & l6 & Hl6 & Hd6) Hdl6]. rewrite Hdl6.
  fold names. set (w7 := set_ds_denylist _ w6).
  rewrite bind_run.
  destruct (calm_vmfs_ds (derived_denylist (ds_denylist w) names) w7)
    as [Hne [(Hn8 & He8 & l8 & Hl8 & Hd8) Hdl8]].
  assert (Hq : quietly w (snd (vmfs_ds (derived_denylist (ds_denylist w) names) w7))).
  { split; [rewrite Hn8; exact Hn6 |]. split; [intros x Hx; apply He6, He8, Hx |].
    exists (l6 ++ l8). split; [rewrite Hl8; cbn; rewrite Hl6, app_assoc; reflexivity |].
    rewrite List.filter_app, Hd6, Hd8. reflexivity. }
  destruct (vmfs_ds (derived_denylist (ds_denylist w) names) w7) as [[[] | e |] w8] eqn:Hrun;
    cbn [fst snd] in *.
  - split; [discriminate |]. split; [exact Hq |]. split; [right; exact Hdl8 |].
    intros avg' _. split; [exact Hdl8 |].
    destruct (vmfs_ds_Ok _ _ _ Hrun) as (kept & -> & _ & Hall).
    cbn [elements set_elements]. eapply Forall_impl; [exact Hall |].
    intros x (d & Hd & Hk). exists (DS.name d). split.
    + rewrite <- Hn6. apply names_lookup. exact Hd.
    + apply kept_not_denied. exact Hk.
  - split; [discriminate |]. split; [exact Hq |]. split; [right; exact Hdl8 |].
    intros avg' Habs. discriminate Habs.
  - contradiction.
Qed.

End PreparePass.

(** ** The source of the pool-level pass *)

Lemma for_each_Ok {A B : Type} (I : B -> World -> Prop) (l : list A) (acc : B)
    (body : A -> B -> M B) (w w' : World) (r : B) :
  I acc w ->
  (forall x acc1 w1 acc2 w2,
     x ∈ l -> I acc1 w1 -> body x acc1 w1 = (Ok acc2, w2) -> I acc2 w2) ->
  for_each l acc body w = (Ok r, w') ->
  I r w'.
Proof.
  revert acc w. induction l as [| x l IH]; intros acc w Hacc Hbody H; cbn [for_each] in H.
  - injection H as <- <-. exact Hacc.
  - apply bind_Ok_inv in H. destruct H as (acc1 & w1 & Hx & H).
    apply (IH acc1 w1); [| | exact H].
    + apply (Hbody x acc w acc1 w1); [apply list_elem_of_here | exact Hacc | exact Hx].
    + intros y a1 v1 a2 v2 Hy. apply Hbody. apply list_elem_of_further, Hy.
Qed.

Lemma find_by_name_Ok (ds_name : string) (l : list ref) (w w' : World) (r : ref) :
  find_by_name ds_name l w = (Ok (Some r), w') ->
  (DS.name <$> heap w) !! r = Some ds_name.
Proof.
  induction l as [| r0 l IH]; cbn [find_by_name]; intros H.
  - discriminate H.
  - apply bind_Ok_inv in H. destruct H as (d & w1 & Hd & H).
    apply deref_Ok_inv in Hd. destruct Hd as [Hd ->].
    destruct (String.eqb (DS.name d) ds_name) eqn:E.
    + injection H as <- <-. apply String.eqb_eq in E. rewrite <- E.
      apply names_lookup. exact Hd.
    + exact (IH H).
Qed.

Lemma get_by_name_Ok (ds_name : string) (w w' : World) (r : ref) :
  get_by_name ds_name w = (Ok (Some r), w') ->
  (DS.name <$> heap w) !! r = Some ds_name.
Proof.
  unfold get_by_name. rewrite bind_run. cbn [get_world]. apply find_by_name_Ok.
Qed.

Lemma source_keys_Ok (l : list (option ref)) (w w' : World) (keyed : list (ref * DS.t)) :
  source_keys l w = (Ok keyed, w') -> l = map (fun rd => Some (fst rd)) keyed.
Proof.
  revert keyed w w'. induction l as [| [r |] l IH]; intros keyed w w' H;
    cbn [source_keys] in H.
  - injection H as <- <-. reflexivity.
  - apply bind_Ok_inv in H. destruct H as (d & w1 & Hd & H).
    apply bind_Ok_inv in H. destruct H as (rest & w2 & Hrest & H).
    injection H as <- <-. cbn. rewrite (IH _ _ _ Hrest). reflexivity.
  - discriminate H.
Qed.

Section Source.

Variable rnd : Q -> Q.

Lemma find_balancing_source_ds_Ok (args : Args) (max_usage_aggr : NAAggr.t)
    (w w' : World) (sources : list ref) :
  find_balancing_source_ds args max_usage_aggr w = (Ok sources, w') ->
  Forall (behind_lun_of max_usage_aggr w) sources.
Proof.
  unfold find_balancing_source_ds. intros H.
  apply bind_Ok_inv in H. destruct H as (found & w1 & Hloop & H).
  apply bind_Ok_inv in H. destruct H as (keyed & w2 & Hkeys & H).
  injection H as <- <-.
  assert (Hfound : calmly w w1
            /\ Forall (fun o => match o with
                                | Some r => behind_lun_of max_usage_aggr w r
                                | None => True
                                end) found).
  { refine (for_each_Ok (fun acc v => calmly w v /\ Forall (fun o => match o with
                                | Some r => behind_lun_of max_usage_aggr w r
                                | None => True
                                end) acc) _ _ _ _ _ _ _ _ Hloop).
    { split; [apply calmly_refl | apply Forall_nil; trivial]. }
    intros lun acc1 v1 acc2 v2 Hlun [Hc1 Hacc1] Hbody.
    destruct (NALun.type lun).
    - injection Hbody as <- <-. split; assumption.
    - destruct (lun_name_re (hdd args) (NALun.name lun)).
      + apply bind_Ok_inv in Hbody. destruct Hbody as ([] & v3 & Hlog & Hbody).
        apply bind_Ok_inv in Hbody. destruct Hbody as (o & v4 & Hget & Hbody).
        injection Hbody as <- <-.
        destruct (reads_run _ _ _ _ (reads_get_by_name _) Hget) as [-> _].
        assert (Hc3 : calmly w v3).
        { eapply calmly_trans; [exact Hc1 |].
          pose proof (calm_log_info (SourceLun (NALun.name lun)) eq_refl v1) as [_ Hc].
          rewrite Hlog in Hc. exact Hc. }
        split; [exact Hc3 |]. apply Forall_app. split; [exact Hacc1 |].
        apply Forall_cons. split; [| apply Forall_nil; trivial].
        destruct o as [r |]; [| exact I].
        apply get_by_name_Ok in Hget. exists (NALun.name lun). split.
        * destruct Hc3 as [(Hn & _) _]. rewrite <- Hn. exact Hget.
        * apply list_elem_of_fmap_2'  with (x := lun); [exact Hlun | reflexivity].
      + injection Hbody as <- <-. split; assumption. }
  destruct Hfound as [_ Hfound].
  rewrite (source_keys_Ok _ _ _ _ Hkeys) in Hfound.
  apply Forall_forall. intros r Hr.
  apply list_elem_of_fmap in Hr. destruct Hr as (rd & -> & Hrd).
  apply sorted_elem in Hrd.
  rewrite Forall_forall in Hfound.
  apply (Hfound (Some rd.1)).
  apply list_elem_of_fmap_2' with (x := rd); [exact Hrd | reflexivity].
Qed.

Lemma get_max_usage_aggr_Ok (na_info : list NA.t) (w w' : World)
    (max_usage_aggr : NAAggr.t) (avg : Q) :
  get_max_usage_aggr rnd na_info w = (Ok (max_usage_aggr, avg), w') ->
  max_usage_aggr_of na_info = Some max_usage_aggr.
Proof.
  unfold get_max_usage_aggr, max_usage_aggr_of. cbv zeta. intros H.
  apply bind_Ok_inv in H. destruct H as (mn & w1 & _ & H).
  apply bind_Ok_inv in H. destruct H as (mx & w2 & Hmx & H).
  apply lift_run in Hmx. destruct Hmx as [Hmx _].
  apply bind_Ok_inv in H. destruct H as (q & w3 & _ & H).
  apply bind_Ok_inv in H. destruct H as ([] & w4 & _ & H).
  apply bind_Ok_inv in H. destruct H as ([] & w5 & _ & H).
  apply bind_Ok_inv in H. destruct H as ([] & w6 & _ & H).
  injection H as <- _ _. unfold last_item in Hmx.
  destruct (last _) as [x |]; [injection Hmx as ->; reflexivity | discriminate Hmx].
Qed.

End Source.

(** ** The effect of a whole pass *)

Lemma no_decisions_good (good : LogRecord -> Prop) (l : list LogRecord) :
  (forall r, is_decision r = false -> good r) ->
  List.filter is_decision l = [] -> Forall good l.
Proof.
  intros Hgood. induction l as [| r l IH]; cbn [List.filter]; intros H.
  - apply Forall_nil. trivial.
  - destruct (is_decision r) eqn:E; [discriminate H |].
    apply Forall_cons. split; [apply Hgood, E | apply IH, H].
Qed.

Lemma no_decisions_no_moves (l : list LogRecord) :
  List.filter is_decision l = [] -> moves_in l = 0%nat.
Proof. intros H. rewrite <- moves_in_decisions, H. reflexivity. Qed.

Lemma from_denied_no_decision (denylist : list string) (r : LogRecord) :
  is_decision r = false -> from_denied_to_allowed denylist r.
Proof.
  unfold is_decision, from_denied_to_allowed. destruct (msg r); try (intros; exact I).
  discriminate.
Qed.

Lemma between_allowed_no_decision (denylist : list string) (r : LogRecord) :
  is_decision r = false -> between_allowed denylist r.
Proof.
  unfold is_decision, between_allowed. destruct (msg r); try (intros; exact I).
  discriminate.
Qed.

Lemma pass_effect_quiet {A : Type} (bound : nat) (good : LogRecord -> Prop)
    (names : list string) (w w' : World) (o : outcome A) :
  (forall r, is_decision r = false -> good r) ->
  quietly w w' ->
  (ds_denylist w' = ds_denylist w
   \/ ds_denylist w' = denylist_extended (ds_denylist w) names) ->
  o <> OutOfFuel ->
  pass_effect bound good names w o w'.
Proof.
  intros Hgood (_ & _ & l & Hl & Hd) Hdl Ho.
  split; [exact Ho |]. split; [exact Hdl |]. exists l. split; [exact Hl |]. split.
  - rewrite (no_decisions_no_moves l Hd). lia.
  - apply no_decisions_good; assumption.
Qed.

Lemma pass_effect_calm {A : Type} (bound : nat) (good : LogRecord -> Prop)
    (names : list string) (w w' : World) (o : outcome A) :
  (forall r, is_decision r = false -> good r) ->
  calmly w w' -> o <> OutOfFuel ->
  pass_effect bound good names w o w'.
Proof.
  intros Hgood [Hq Hd] Ho. apply pass_effect_quiet; [exact Hgood | exact Hq | | exact Ho].
  left. exact Hd.
Qed.

Lemma pass_effect_of_calm {A : Type} (bound : nat) (good : LogRecord -> Prop)
    (names : list string) (w0 w : World) (c : M A) :
  (forall r, is_decision r = false -> good r) ->
  calm c -> calmly w0 w ->
  pass_effect bound good names w0 (fst (c w)) (snd (c w)).
Proof.
  intros Hgood Hc Hw. destruct (Hc w) as [Hne Hcw].
  apply pass_effect_calm; [exact Hgood | eapply calmly_trans; eassumption | exact Hne].
Qed.

(** A pass that has come quietly to its loop, with the deny list extended,
    has the effect of the loop. *)
Lemma pass_effect_of_loop (bound : nat) (good : LogRecord -> Prop) (names : list string)
    (is_source : World -> ref -> Prop) (w0 w : World) (loop : M unit) (r : retval) :
  quietly w0 w ->
  ds_denylist w = denylist_extended (ds_denylist w0) names ->
  loop_effect bound is_source w (fst (loop w)) (snd (loop w)) ->
  (forall x, is_decision x = false -> good x) ->
  (forall x, move_between is_source w x -> is_decision x = true -> good x) ->
  pass_effect bound good names w0
    (fst ((loop ≫= fun _ => mret r) w)) (snd ((loop ≫= fun _ => mret r) w)).
Proof.
  intros (_ & _ & l0 & Hl0 & Hd0) Hdl (Hne & _ & _ & Hdl' & l & Hl & Hm & Hall) Hq Hgood.
  rewrite bind_run.
  assert (Hlog : log (snd (loop w)) = log w0 ++ (l0 ++ l))
    by (rewrite Hl, Hl0, app_assoc; reflexivity).
  assert (Hmoves : (moves_in (l0 ++ l) <= bound)%nat)
    by (rewrite moves_in_app, (no_decisions_no_moves l0 Hd0); lia).
  assert (Hgoods : Forall good (l0 ++ l)).
  { apply Forall_app. split; [apply no_decisions_good; assumption |].
    eapply Forall_impl; [exact Hall |]. intros x Hx.
    destruct (is_decision x) eqn:E; [apply Hgood; assumption | apply Hq, E]. }
  destruct (loop w) as [[[] | e |] w'] eqn:Hrun; cbn [fst snd] in *.
  - unfold mret, M_ret. cbn [fst snd].
    split; [discriminate |]. split; [right; congruence |].
    exists (l0 ++ l). repeat split; assumption.
  - split; [discriminate |]. split; [right; congruence |].
    exists (l0 ++ l). repeat split; assumption.
  - contradiction.
Qed.

Section Passes.

Variable rnd : Q -> Q.

Lemma source_is_stable (source : ref) (w w' : World) (x : ref) :
  (DS.name <$> heap w') = (DS.name <$> heap w) -> elements w' ⊆ elements w ->
  x = source -> x = source.
Proof. intros _ _ H. exact H. Qed.

Lemma member_is_stable (w w' : World) (x : ref) :
  (DS.name <$> heap w') = (DS.name <$> heap w) -> elements w' ⊆ elements w ->
  x ∈ elements w' -> x ∈ elements w.
Proof. intros _ He H. apply He, H. Qed.

Lemma aggr_loop_effect (fuel : nat) (vm_info : list VM.t) (args : Args)
    (ds_weight : gmap string Q) (size_to_free : Q) (source : ref) (avg : Q) (w : World) :
  (Z.to_nat (max_move_vms args + 1) < fuel)%nat ->
  loop_effect (Z.to_nat (max_move_vms args + 1)) (fun _ x => x = source) w
    (fst (aggr_balancing_loop rnd fuel vm_info args ds_weight size_to_free source avg 0 0 w))
    (snd (aggr_balancing_loop rnd fuel vm_info args ds_weight size_to_free source avg 0 0 w)).
Proof.
  intros Hfuel. unfold aggr_balancing_loop.
  pose proof (while_true_effect fst (max_move_vms args) (fun _ x => x = source)
                (aggr_balancing_step rnd vm_info args ds_weight size_to_free source avg)
                (fun s v => aggr_turn rnd vm_info args ds_weight size_to_free source avg s v)
                (fun v v' x => source_is_stable source v v' x)
                fuel (0, 0) w) as Hloop.
  cbn [fst] in Hloop. rewrite Z.sub_0_r in Hloop. exact (Hloop Hfuel).
Qed.

Lemma ds_loop_effect (fuel : nat) (vm_info : list VM.t) (args : Args)
    (ds_weight : gmap string Q) (w : World) :
  (Z.to_nat (max_move_vms args + 1) < fuel)%nat ->
  loop_effect (Z.to_nat (max_move_vms args + 1)) (fun v x => x ∈ elements v) w
    (fst (ds_balancing_loop rnd fuel vm_info args ds_weight 0 w))
    (snd (ds_balancing_loop rnd fuel vm_info args ds_weight 0 w)).
Proof.
  intros Hfuel. unfold ds_balancing_loop.
  pose proof (while_true_effect (fun m : Z => m) (max_move_vms args)
                (fun v x => x ∈ elements v)
                (ds_balancing_step rnd vm_info args ds_weight)
                (fun s v => ds_turn rnd vm_info args ds_weight s v)
                member_is_stable
                fuel 0 w) as Hloop.
  cbn beta in Hloop. rewrite Z.sub_0_r in Hloop. exact (Hloop Hfuel).
Qed.

(** The pool-level pass: it ends; it logs at most [max_move_vms + 1] moves;
    every move goes from a datastore on the derived deny list to one that
    is not on it; the configured deny list is as before, or extended. *)
Lemma aggr_pass_effect (fuel : nat) (na_info : list NA.t) (vm_info : list VM.t)
    (args : Args) (w : World) :
  (Z.to_nat (max_move_vms args + 1) < fuel)%nat ->
  pass_effect (Z.to_nat (max_move_vms args + 1))
    (from_denied_to_allowed (derived_denylist (ds_denylist w) (max_usage_luns na_info)))
    (max_usage_luns na_info) w
    (fst (vmfs_aggr_balancing rnd fuel na_info vm_info args w))
    (snd (vmfs_aggr_balancing rnd fuel na_info vm_info args w)).
Proof.
  intros Hfuel.
  set (names := max_usage_luns na_info).
  set (good := from_denied_to_allowed (derived_denylist (ds_denylist w) names)).
  set (bound := Z.to_nat (max_move_vms args + 1)).
  set (P := fun (o : outcome retval) (w' : World) => pass_effect bound good names w o w').
  change (P (fst (vmfs_aggr_balancing rnd fuel na_info vm_info args w))
            (snd (vmfs_aggr_balancing rnd fuel na_info vm_info args w))).
  assert (Hq : forall r, is_decision r = false -> good r)
    by (intros r Hr; apply from_denied_no_decision; exact Hr).
  assert (Hfail : forall e w1, calmly w w1 -> P (Raise e) w1)
    by (intros e w1 Hc; apply pass_effect_calm; [exact Hq | exact Hc | discriminate]).
  unfold vmfs_aggr_balancing.
  apply (step_calm P _ _ w);
    [exact Hfail | apply calm_get_aggr_and_ds_stats | apply calmly_refl |].
  intros ds_weight w1 _ Hc1.
  apply (step_calm P _ _ w); [exact Hfail | apply calm_get_max_usage_aggr | exact Hc1 |].
  intros [max_usage_aggr avg] w2 Hmax Hc2.
  apply get_max_usage_aggr_Ok in Hmax.
  assert (Hnames : names = map NALun.name (NAAggr.luns max_usage_aggr))
    by (unfold names, max_usage_luns; rewrite Hmax; reflexivity).
  cbv beta iota zeta.
  destruct (Qltb _ _).
  { apply pass_effect_of_calm; [exact Hq | calm_auto | exact Hc2]. }
  apply (step_calm P _ _ w); [exact Hfail | calm_auto | exact Hc2 |]. intros [] w3 _ Hc3.
  apply (step_calm P _ _ w);
    [exact Hfail | apply calm_find_balancing_source_ds | exact Hc3 |].
  intros sources w4 Hsrc Hc4. apply find_balancing_source_ds_Ok in Hsrc.
  apply (step_calm P _ _ w); [exact Hfail | calm_auto | exact Hc4 |].
  intros source w5 Hlast Hc5.
  apply lift_run in Hlast. destruct Hlast as [Hlast ->].
  apply last_item_elem in Hlast. rewrite Forall_forall in Hsrc.
  destruct (Hsrc source Hlast) as (n & Hn & Hin).
  assert (Hn0 : (DS.name <$> heap w) !! source = Some n).
  { destruct Hc3 as [(Hn3 & _) _]. rewrite <- Hn3. exact Hn. }
  apply (step_calm P _ _ w); [exact Hfail | calm_auto | exact Hc5 |]. intros [] w6 _ Hc6.
  apply (step_calm P _ _ w); [exact Hfail | calm_auto | exact Hc6 |]. intros [] w7 _ Hc7.
  apply (step_calm P _ _ w); [exact Hfail | calm_auto | exact Hc7 |]. intros w7' w8 _ Hc8.
  destruct (elements w7') as [| r0 els].
  { apply pass_effect_of_calm; [exact Hq | calm_auto | exact Hc8]. }
  rewrite bind_run.
  destruct (prepare_pass_effect rnd vm_info args max_usage_aggr w8)
    as (Hne & Hquiet & Hdl & Hok).
  rewrite <- Hnames in Hdl, Hok.
  destruct Hc8 as [Hq8 Hd8]. rewrite Hd8 in Hdl, Hok.
  assert (Hq9 : quietly w (snd (prepare_pass rnd vm_info args max_usage_aggr w8)))
    by (eapply quietly_trans; eassumption).
  destruct (prepare_pass rnd vm_info args max_usage_aggr w8) as [[avg' | e |] w9] eqn:Hrun;
    cbn [fst snd] in *; [| | contradiction].
  - destruct (Hok avg' eq_refl) as [Hdl9 Hels].
    apply (pass_effect_of_loop bound good names (fun _ x => x = source)).
    + exact Hq9.
    + exact Hdl9.
    + apply aggr_loop_effect. exact Hfuel.
    + exact Hq.
    + intros x Hx _. unfold good, from_denied_to_allowed. unfold move_between in Hx.
      destruct (msg x); try exact I.
      destruct Hx as (src & tgt & -> & Htgt & Hs & Ht).
      destruct Hq9 as (Hn9 & _). rewrite Hn9 in Hs, Ht.
      rewrite Hn0 in Hs. injection Hs as <-.
      destruct Hq8 as (Hn8 & _). rewrite Hn8 in Hels.
      rewrite Forall_forall in Hels. destruct (Hels tgt Htgt) as (n' & Hn' & Hnot).
      rewrite Hn' in Ht. injection Ht as <-.
      split; [| exact Hnot]. unfold derived_denylist. apply elem_of_app. right.
      rewrite Hnames. exact Hin.
  - apply pass_effect_quiet; [exact Hq | exact Hq9 | exact Hdl | discriminate].
Qed.

(** The datastore-level pass: it ends; it logs at most [max_move_vms + 1]
    moves; every move goes between datastores that are not on the derived
    deny list; the configured deny list is as before, or extended. *)
Lemma ds_pass_effect (fuel : nat) (na_info : list NA.t) (vm_info : list VM.t)
    (args : Args) (w : World) :
  (Z.to_nat (max_move_vms args + 1) < fuel)%nat ->
  pass_effect (Z.to_nat (max_move_vms args + 1))
    (between_allowed (derived_denylist (ds_denylist w) (max_usage_luns na_info)))
    (max_usage_luns na_info) w
    (fst (vmfs_ds_balancing rnd fuel na_info vm_info args w))
    (snd (vmfs_ds_balancing rnd fuel na_info vm_info args w)).
Proof.
  intros Hfuel.
  set (names := max_usage_luns na_info).
  set (good := between_allowed (derived_denylist (ds_denylist w) names)).
  set (bound := Z.to_nat (max_move_vms args + 1)).
  set (P := fun (o : outcome retval) (w' : World) => pass_effect bound good names w o w').
  change (P (fst (vmfs_ds_balancing rnd fuel na_info vm_info args w))
            (snd (vmfs_ds_balancing rnd fuel na_info vm_info args w))).
  assert (Hq : forall r, is_decision r = false -> good r)
    by (intros r Hr; apply between_allowed_no_decision; exact Hr).
  assert (Hfail : forall e w1, calmly w w1 -> P (Raise e) w1)
    by (intros e w1 Hc; apply pass_effect_calm; [exact Hq | exact Hc | discriminate]).
  unfold vmfs_ds_balancing.
  apply (step_calm P _ _ w);
    [exact Hfail | apply calm_get_aggr_and_ds_stats | apply calmly_refl |].
  intros ds_weight w1 _ Hc1.
  apply (step_calm P _ _ w); [exact Hfail | apply calm_get_max_usage_aggr | exact Hc1 |].
  intros [max_usage_aggr avg] w2 Hmax Hc2.
  apply get_max_usage_aggr_Ok in Hmax.
  assert (Hnames : names = map NALun.name (NAAggr.luns max_usage_aggr))
    by (unfold names, max_usage_luns; rewrite Hmax; reflexivity).
  cbv beta iota zeta.
  apply (step_calm P _ _ w); [exact Hfail | calm_auto | exact Hc2 |]. intros [] w3 _ Hc3.
  apply (step_calm P _ _ w); [exact Hfail | calm_auto | exact Hc3 |]. intros [] w4 _ Hc4.
  apply (step_calm P _ _ w); [exact Hfail | calm_auto | exact Hc4 |]. intros w4' w5 _ Hc5.
  destruct (elements w4') as [| r0 els].
  { apply pass_effect_of_calm; [exact Hq | calm_auto | exact Hc5]. }
  rewrite bind_run.
  destruct (prepare_pass_effect rnd vm_info args max_usage_aggr w5)
    as (Hne & Hquiet & Hdl & Hok).
  rewrite <- Hnames in Hdl, Hok.
  destruct Hc5 as [Hq5 Hd5]. rewrite Hd5 in Hdl, Hok.
  assert (Hq6 : quietly w (snd (prepare_pass rnd vm_info args max_usage_aggr w5)))
    by (eapply quietly_trans; eassumption).
  destruct (prepare_pass rnd vm_info args max_usage_aggr w5) as [[avg' | e |] w6] eqn:Hrun;
    cbn [fst snd] in *; [| | contradiction].
  - destruct (Hok avg' eq_refl) as [Hdl6 Hels].
    destruct (corridor rnd args avg') as [min_usage_ max_usage_].
    apply (pass_effect_of_loop bound good names (fun v x => x ∈ elements v)).
    + exact Hq6.
    + exact Hdl6.
    + apply ds_loop_effect. exact Hfuel.
    + exact Hq.
    + intros x Hx _. unfold good, between_allowed. unfold move_between in Hx.
      destruct (msg x); try exact I.
      destruct Hx as (src & tgt & Hsrc & Htgt & Hs & Ht).
      destruct Hq6 as (Hn6 & _). rewrite Hn6 in Hs, Ht.
      destruct Hq5 as (Hn5 & _). rewrite Hn5 in Hels.
      rewrite Forall_forall in Hels.
      destruct (Hels src Hsrc) as (n1 & Hn1 & Hnot1).
      destruct (Hels tgt Htgt) as (n2 & Hn2 & Hnot2).
      rewrite Hn1 in Hs. injection Hs as <-.
      rewrite Hn2 in Ht. injection Ht as <-.
      split; assumption.
  - apply pass_effect_quiet; [exact Hq | exact Hq6 | exact Hdl | discriminate].
Qed.

End Passes.

(** ** The pool-level pass: termination, cap and deny list *)

Section PoolPass.

Variable rnd : Q -> Q.

(** C7: every pool-level pass ends, with a result or an exception, and
    logs at most [max_move_vms + 1] moves (none when that is negative),
    whatever the inventory: fuel for [max_move_vms + 2] turns of the loop,
    or more, is never used up. *)
Theorem aggr_pass_terminates_within_cap (na_info : list NA.t) (vm_info : list VM.t)
    (args : Args) (w : World) (extra : nat) :
  let fuel := S (Z.to_nat (max_move_vms args + 1) + extra) in
  fst (vmfs_aggr_balancing rnd fuel na_info vm_info args w) <> OutOfFuel
  /\ exists l,
       log (snd (vmfs_aggr_balancing rnd fuel na_info vm_info args w)) = log w ++ l
       /\ Z.of_nat (moves_in l) <= Z.max 0 (max_move_vms args + 1).
Proof.
  cbv zeta.
  destruct (aggr_pass_effect rnd (S (Z.to_nat (max_move_vms args + 1) + extra))
              na_info vm_info args w ltac:(lia)) as (Hne & _ & l & Hl & Hm & _).
  split; [exact Hne |]. exists l. split; [exact Hl | lia].
Qed.

(** C3, as amended: the pool-level pass never selects a move whose target
    is on the configured or derived deny list; the source of every move is
    on the derived deny list, as a datastore of the most used pool. *)
Theorem aggr_moves_leave_denied_pool (na_info : list NA.t) (vm_info : list VM.t)
    (args : Args) (w : World) (extra : nat) :
  let fuel := S (Z.to_nat (max_move_vms args + 1) + extra) in
  exists l,
    log (snd (vmfs_aggr_balancing rnd fuel na_info vm_info args w)) = log w ++ l
    /\ Forall (from_denied_to_allowed
                 (derived_denylist (ds_denylist w) (max_usage_luns na_info))) l.
Proof.
  cbv zeta.
  destruct (aggr_pass_effect rnd (S (Z.to_nat (max_move_vms args + 1) + extra))
              na_info vm_info args w ltac:(lia)) as (_ & _ & l & Hl & _ & Hall).
  exists l. split; assumption.
Qed.

End PoolPass.

(** C3 as the specification states it fails: the pass moves two units away
    from the datastore 001, which is on the derived deny list. *)
Lemma aggr_source_on_denylist_counterexample :
  fst pool_pass_run = Ok ReturnNone
  /\ moves_of (log (snd pool_pass_run))
     = [("volume-50", ds_001, ds_003); ("volume-20", ds_001, ds_002)]
  /\ derived_denylist (ds_denylist configured_world)
       (max_usage_luns (inv_netapps pool_inventory))
     = ["vmfs_vc_a_0_p_ssd_bb001_099"; ds_001; ds_004]
  /\ ds_001 ∈ derived_denylist (ds_denylist configured_world)
                (max_usage_luns (inv_netapps pool_inventory)).
Proof.
  split; [vm_compute; reflexivity |]. split; [vm_compute; reflexivity |].
  split; [vm_compute; reflexivity |].
  vm_compute. apply list_elem_of_further, list_elem_of_here.
Qed.

(** ** The configured deny list is extended in place *)

Section DenyList.

Variable rnd : Q -> Q.


End DenyList.

(** The configured list of one name, after two cycles of the control loop
    on the same inventory: each of the four passes appended the two names
    of the luns of the most used pool. *)
Example denylist_after_two_cycles :
  fst two_cycles_run = Ok tt
  /\ ds_denylist (snd two_cycles_run)
     = Some ["vmfs_vc_a_0_p_ssd_bb001_099"; ds_001; ds_004; ds_001; ds_004;
             ds_001; ds_004; ds_001; ds_004].
Proof. split; vm_compute; reflexivity. Qed.


(** * Further properties of the balancer *)

(** ** Shadow vms *)

Lemma disks_counted (l : list device) :
  length (filter (fun dev => VM.is_disk dev = true) l)
  = length (omap (fun dev => match dev with VirtualDisk c => Some c | _ => None end) l).
Proof.
  induction l as [| dev l IH]; [reflexivity |].
  rewrite filter_cons. destruct dev; cbn; rewrite <- IH; reflexivity.
Qed.

Lemma no_nic_iff (l : list device) :
  existsb VM.is_nic l = false <-> VirtualEthernetCard ∉ l.
Proof.
  induction l as [| dev l IH]; cbn.
  - split; [intros _ H; inversion H | reflexivity].
  - rewrite orb_false_iff, IH, not_elem_of_cons. destruct dev; cbn; split; intros [H1 H2];
      (split; [congruence || discriminate || reflexivity | exact H2]).
Qed.

Lemma shadow_vm_one_disk (vm : VM.t) :
  fst (VM.is_shadow_vm vm) = true -> length (VM.get_disksizes vm) = 1%nat.
Proof.
  unfold VM.is_shadow_vm, VM.get_disksizes. rewrite disks_counted.
  destruct (_ && _); [| discriminate].
  destruct (length _) as [| [| n]]; cbn; first [discriminate | reflexivity].
Qed.

(** X1: [is_shadow_vm] answers [True] exactly for a vm of 128 MB and one
    CPU that is powered off, has no network card and has exactly one disk;
    it logs a warning exactly when a vm of that shape has no disk, or more
    than one. *)
Theorem is_shadow_vm_iff (vm : VM.t) :
  let shape :=
    VM.memoryMB vm = 128 /\ VM.numCPU vm = 1 /\ VM.powerState vm = "poweredOff"
    /\ VirtualEthernetCard ∉ VM.devices vm in
  (fst (VM.is_shadow_vm vm) = true <-> shape /\ length (VM.get_disksizes vm) = 1%nat)
  /\ (snd (VM.is_shadow_vm vm) <> [] <-> shape /\ length (VM.get_disksizes vm) <> 1%nat).
Proof.
  cbv zeta. unfold VM.is_shadow_vm, VM.get_disksizes. rewrite disks_counted.
  set (n := length _).
  destruct (VM.memoryMB vm =? 128) eqn:Em; cbn [andb].
  2:{ apply Z.eqb_neq in Em. split; split; cbn; intros H; try discriminate H;
      try (exfalso; apply H; reflexivity); destruct H as ((H & _) & _); contradiction. }
  destruct (VM.numCPU vm =? 1) eqn:Ec; cbn [andb].
  2:{ apply Z.eqb_neq in Ec. split; split; cbn; intros H; try discriminate H;
      try (exfalso; apply H; reflexivity); destruct H as ((_ & H & _) & _); contradiction. }
  destruct (String.eqb (VM.powerState vm) "poweredOff") eqn:Ep; cbn [andb].
  2:{ apply String.eqb_neq in Ep. split; split; cbn; intros H; try discriminate H;
      try (exfalso; apply H; reflexivity); destruct H as ((_ & _ & H & _) & _); contradiction. }
  destruct (existsb VM.is_nic (VM.devices vm)) eqn:En; cbn [negb].
  { assert (Hn : ~ (VirtualEthernetCard ∉ VM.devices vm)).
    { intros H. apply no_nic_iff in H. congruence. }
    split; split; cbn; intros H; try discriminate H;
      try (exfalso; apply H; reflexivity); destruct H as ((_ & _ & _ & H) & _); contradiction. }
  apply Z.eqb_eq in Em, Ec. apply String.eqb_eq in Ep. apply no_nic_iff in En.
  clearbody n. destruct n as [| [| n]]; cbn [Nat.eqb Nat.ltb Nat.leb fst snd].
  - split; split; intros H.
    + discriminate H.
    + destruct H as [_ H]. discriminate H.
    + split; [tauto | discriminate].
    + discriminate.
  - split; split; intros H.
    + split; [tauto | reflexivity].
    + reflexivity.
    + exfalso. apply H. reflexivity.
    + destruct H as [_ H]. exfalso. apply H. reflexivity.
  - split; split; intros H.
    + discriminate H.
    + destruct H as [_ H]. discriminate H.
    + split; [tauto | discriminate].
    + discriminate.
Qed.

Lemma one_disk_total (vm : VM.t) :
  length (VM.get_disksizes vm) = 1%nat ->
  exists c, VM.get_disksizes vm = [c] /\ VM.get_total_disksize vm = c.
Proof.
  unfold VM.get_total_disksize. destruct (VM.get_disksizes vm) as [| c [| c' l]];
    intros H; try discriminate H.
  exists c. split; [reflexivity | cbn; lia].
Qed.

(** X2: [get_shadow_vms] returns, in the order of [vm_info.elements], the
    vms whose handle is among the given ones and that are shadow vms; each
    of them has exactly one disk, whose capacity is its total disk size;
    the call changes nothing but the log, to which it adds warnings only. *)
Theorem get_shadow_vms_spec (vm_info : list VM.t) (vm_handles : list nat) (w : World) :
  exists shadow_vms warnings,
    get_shadow_vms vm_info vm_handles w = (Ok shadow_vms, set_log (log w ++ warnings) w)
    /\ shadow_vms `sublist_of` vm_info
    /\ (forall vm, vm ∈ shadow_vms <->
          vm ∈ vm_info /\ VM.handle vm ∈ vm_handles /\ fst (VM.is_shadow_vm vm) = true)
    /\ Forall (fun vm => exists c, VM.get_disksizes vm = [c]
                                   /\ VM.get_total_disksize vm = c) shadow_vms
    /\ Forall (fun r => levelname r = WARNING) warnings.
Proof.
  eexists _, _. split; [reflexivity |]. split; [| split; [| split]].
  - etransitivity; apply sublist_filter.
  - intros vm. rewrite !list_elem_of_filter. tauto.
  - apply Forall_forall. intros vm Hvm. apply list_elem_of_filter in Hvm as [Hs _].
    apply one_disk_total, shadow_vm_one_disk, Hs.
  - apply Forall_forall. intros r Hr. apply list_elem_of_In, in_flat_map in Hr.
    destruct Hr as (vm & _ & Hr). unfold VM.is_shadow_vm in Hr.
    repeat case_match; cbn in Hr; destruct Hr as [<- | []] || destruct Hr; reflexivity.
Qed.

(** ** The inventory of datastores *)

Section DatastoreInventory.

Variable rnd : Q -> Q.

Lemma zero_capacity_records_zero (e : DS.element) (l : list DS.element) :
  DS.e_capacity e = 0 ->
  zero_capacity_records (e :: l)
  = {| levelname := INFO; msg := DsZeroCapacity (DS.e_name e) |} :: zero_capacity_records l.
Proof.
  intros E. unfold zero_capacity_records. rewrite filter_cons_True by exact E. reflexivity.
Qed.

Lemma zero_capacity_records_nonzero (e : DS.element) (l : list DS.element) :
  DS.e_capacity e <> 0 -> zero_capacity_records (e :: l) = zero_capacity_records l.
Proof.
  intros E. unfold zero_capacity_records. rewrite filter_cons_False by exact E. reflexivity.
Qed.

Lemma init_nonzero (e : DS.element) :
  DS.e_capacity e <> 0 -> DS.init rnd e = Ok (built_from rnd e).
Proof.
  intros Hc. unfold DS.init. rewrite (usage_of_nonzero rnd _ _ Hc). reflexivity.
Qed.

Lemma init_loop (ds_elements : list DS.element) (w : World) :
  for_each ds_elements tt (fun ds_element _ =>
    if DS.e_capacity ds_element =? 0 then
      log_info (DsZeroCapacity (DS.e_name ds_element))
    else
      d ← lift (DS.init rnd ds_element);
      alloc d) w
  = (Ok tt,
     {| heap := heap w
                ++ map (built_from rnd)
                     (filter (fun e => DS.e_capacity e <> 0) ds_elements);
        elements := elements w
                    ++ seq (length (heap w))
                         (length (filter (fun e => DS.e_capacity e <> 0) ds_elements));
        ds_denylist := ds_denylist w;
        log := log w ++ zero_capacity_records ds_elements |}).
Proof.
  revert w. induction ds_elements as [| e l IH]; intros w.
  - cbn. unfold zero_capacity_records. cbn.
    rewrite !app_nil_r. destruct w; reflexivity.
  - cbn [for_each]. rewrite bind_run. destruct (DS.e_capacity e =? 0) eqn:E.
    + apply Z.eqb_eq in E. cbn [log_info tell modify].
      rewrite IH, (zero_capacity_records_zero e l E).
      rewrite filter_cons_False by (intros H; apply H, E).
      cbn [log set_log heap elements ds_denylist]. rewrite <- app_assoc. reflexivity.
    + apply Z.eqb_neq in E.
      rewrite bind_run. cbn [lift]. rewrite (init_nonzero e E). cbn [alloc modify].
      rewrite IH, (zero_capacity_records_nonzero e l E).
      rewrite filter_cons_True by exact E.
      cbn [log set_log heap elements ds_denylist set_elements set_heap map length].
      rewrite <- !app_assoc, length_app. cbn [length seq app].
      replace (length (heap w) + 1)%nat with (S (length (heap w))) by lia.
      reflexivity.
Qed.

(** X3: the loop of [DataStores.__init__] over the datastores the vCenter
    returned never raises: it skips the datastores of capacity zero,
    logging one record for each, and builds a [DS] object for every other
    one, in their order, with the fields of the datastore; every object it
    builds has a capacity that is not zero, the usage
    [(1 - freespace / capacity) * 100], and [used = capacity - freespace]. *)
Theorem DataStores_init_spec (ds_elements : list DS.element) (w : World) :
  let ds := map (built_from rnd) (filter (fun e => DS.e_capacity e <> 0) ds_elements) in
  DataStores_init rnd ds_elements w
  = (Ok tt,
     {| heap := ds;
        elements := seq 0 (length ds);
        ds_denylist := ds_denylist w;
        log := log w ++ zero_capacity_records ds_elements |})
  /\ Forall (fun d => DS.capacity d <> 0
                      /\ DS.usage d = usage_value rnd (DS.freespace d) (DS.capacity d)
                      /\ DS.used d = DS.capacity d - DS.freespace d) ds.
Proof.
  cbv zeta. split.
  - unfold DataStores_init. rewrite bind_run. cbn [modify].
    rewrite init_loop. cbn [heap elements ds_denylist log set_elements set_heap app length].
    rewrite length_map. reflexivity.
  - apply Forall_map, Forall_forall. intros e He.
    apply list_elem_of_filter in He as [Hc _]. cbn. repeat split. exact Hc.
Qed.

End DatastoreInventory.

(** ** Reading [ds_info.elements] *)

Lemma deref_all_run (l : list nat) (w : World) :
  Forall (fun r => (r < length (heap w))%nat) l ->
  exists ds, deref_all l w = (Ok ds, w)
             /\ map fst ds = l
             /\ Forall (fun rd => heap w !! rd.1 = Some rd.2) ds.
Proof.
  induction 1 as [| r l Hr Hl (ds & Hrun & Hfst & Hds)].
  - exists []. repeat split; constructor.
  - apply lookup_lt_is_Some in Hr as [d Hd].
    exists ((r, d) :: ds). cbn [deref_all]. rewrite (bind_Ok _ _ _ _ _ (deref_Some _ _ _ Hd)).
    rewrite (bind_Ok _ _ _ _ _ Hrun). split; [reflexivity |]. split.
    + cbn. rewrite Hfst. reflexivity.
    + constructor; [exact Hd | exact Hds].
Qed.

Lemma filter_refs_run (keep : DS.t -> bool) (l : list nat) (w : World) :
  Forall (fun r => (r < length (heap w))%nat) l ->
  exists kept,
    filter_refs keep l w = (Ok kept, w)
    /\ kept `sublist_of` l
    /\ (forall r, r ∈ kept <->
          r ∈ l /\ exists d, heap w !! r = Some d /\ keep d = true).
Proof.
  induction 1 as [| r l Hr Hl (kept & Hrun & Hsub & Hiff)].
  - exists []. split; [reflexivity |]. split; [constructor |].
    intros r. rewrite elem_of_nil. tauto.
  - apply lookup_lt_is_Some in Hr as [d Hd]. cbn [filter_refs].
    rewrite (bind_Ok _ _ _ _ _ (deref_Some _ _ _ Hd)), (bind_Ok _ _ _ _ _ Hrun).
    destruct (keep d) eqn:Hk.
    + exists (r :: kept). split; [reflexivity |]. split; [constructor; exact Hsub |].
      intros r'. rewrite !elem_of_cons, Hiff. split.
      * intros [-> | [H1 H2]]; [| tauto]. split; [left; reflexivity |]. exists d. tauto.
      * intros [[-> | H1] H2]; [left; reflexivity | right; tauto].
    + exists kept. split; [reflexivity |]. split; [constructor; exact Hsub |].
      intros r'. rewrite elem_of_cons, Hiff. split; [tauto |].
      intros [[-> | H1] (d' & Hd' & Hk')]; [| split; [exact H1 | exists d'; tauto]].
      rewrite Hd in Hd'. injection Hd' as <-. congruence.
Qed.

Lemma filter_refs_kept (keep : DS.t -> bool) (l : list nat) (w : World) :
  Forall (fun r => exists d, heap w !! r = Some d /\ keep d = true) l ->
  filter_refs keep l w = (Ok l, w).
Proof.
  induction 1 as [| r l (d & Hd & Hk) Hl IH]; [reflexivity |].
  cbn [filter_refs].
  rewrite (bind_Ok _ _ _ _ _ (deref_Some _ _ _ Hd)), (bind_Ok _ _ _ _ _ IH), Hk.
  reflexivity.
Qed.

Lemma prefix_true (p s : string) :
  String.prefix p s = true -> exists rest, s = (p ++ rest)%string.
Proof.
  revert s. induction p as [| c p IH]; intros s H.
  - exists s. reflexivity.
  - destruct s as [| c' s]; [discriminate H |]. cbn in H.
    destruct (Ascii.ascii_dec c c') as [-> |]; [| discriminate H].
    destruct (IH s H) as (rest & ->). exists rest. reflexivity.
Qed.

Lemma filter_refs_none (keep : DS.t -> bool) (l : list nat) (w : World) :
  Forall (fun r => exists d, heap w !! r = Some d /\ keep d = false) l ->
  filter_refs keep l w = (Ok [], w).
Proof.
  induction 1 as [| r l (d & Hd & Hk) Hl IH]; [reflexivity |].
  cbn [filter_refs].
  rewrite (bind_Ok _ _ _ _ _ (deref_Some _ _ _ Hd)), (bind_Ok _ _ _ _ _ IH), Hk.
  reflexivity.
Qed.

(** X4: [get_by_name] returns the first datastore of [ds_info.elements]
    that has the name, and [None] exactly when none has it. *)
Theorem get_by_name_first (ds_name : string) (w : World) :
  wf w ->
  exists found,
    get_by_name ds_name w = (Ok found, w)
    /\ match found with
       | Some r =>
           exists before after d,
             elements w = before ++ r :: after
             /\ heap w !! r = Some d /\ DS.name d = ds_name
             /\ forall r' d', r' ∈ before -> heap w !! r' = Some d' -> DS.name d' <> ds_name
       | None =>
           forall r d, r ∈ elements w -> heap w !! r = Some d -> DS.name d <> ds_name
       end.
Proof.
  unfold wf, get_by_name. rewrite bind_run. cbn [get_world].
  generalize (elements w). intros l. induction 1 as [| r l Hr Hl (found & Hrun & Hf)].
  - exists None. split; [reflexivity |]. intros r d Hr. inversion Hr.
  - apply lookup_lt_is_Some in Hr as [d Hd]. cbn [find_by_name].
    rewrite (bind_Ok _ _ _ _ _ (deref_Some _ _ _ Hd)).
    destruct (String.eqb_spec (DS.name d) ds_name) as [Heq | Hneq].
    + exists (Some r). split; [reflexivity |]. exists [], l, d.
      split; [reflexivity |]. split; [exact Hd |]. split; [exact Heq |].
      intros r' d' Hr'. inversion Hr'.
    + exists found. split; [exact Hrun |]. destruct found as [r0 |].
      * destruct Hf as (before & after & d0 & -> & Hd0 & Hn0 & Hb).
        exists (r :: before), after, d0. split; [reflexivity |].
        split; [exact Hd0 |]. split; [exact Hn0 |].
        intros r' d' Hr' Hd'. apply elem_of_cons in Hr' as [-> | Hr'].
        -- rewrite Hd in Hd'. injection Hd' as <-. exact Hneq.
        -- apply (Hb r' d' Hr' Hd').
      * intros r' d' Hr' Hd'. apply elem_of_cons in Hr' as [-> | Hr'].
        -- rewrite Hd in Hd'. injection Hd' as <-. exact Hneq.
        -- apply (Hf r' d' Hr' Hd').
Qed.

Lemma get_by_name_first_witness :
  wf three_datastores
  /\ exists found, get_by_name ds_002 three_datastores = (Ok found, three_datastores).
Proof.
  assert (Hwf : wf three_datastores) by (unfold wf; vm_compute; repeat constructor).
  split; [exact Hwf |].
  destruct (get_by_name_first ds_002 three_datastores Hwf) as (found & Hrun & _).
  exists found. exact Hrun.
Defined.

(** X5: [vmfs_ds] keeps, in their order, exactly the datastores whose
    name matches the vmfs pattern and is not on the given deny list; every
    name it keeps starts with [vmfs_vc]; filtering once more with the same
    list changes nothing. *)
Theorem vmfs_ds_keeps (ds_denylist_ : list string) (w : World) :
  wf w ->
  exists kept,
    vmfs_ds ds_denylist_ w = (Ok tt, set_elements kept w)
    /\ kept `sublist_of` elements w
    /\ (forall r, r ∈ kept <->
          r ∈ elements w
          /\ exists d, heap w !! r = Some d
                       /\ ds_name_regex_pattern (DS.name d) = true
                       /\ DS.name d ∉ ds_denylist_)
    /\ (forall r d, r ∈ kept -> heap w !! r = Some d ->
          exists rest, DS.name d = ("vmfs_vc" ++ rest)%string)
    /\ vmfs_ds ds_denylist_ (set_elements kept w) = (Ok tt, set_elements kept w).
Proof.
  intros Hwf.
  destruct (filter_refs_run (kept_by_vmfs_ds ds_denylist_) _ _ Hwf) as (kept & Hrun & Hsub & Hiff).
  assert (Hkeep : forall d, kept_by_vmfs_ds ds_denylist_ d = true <->
                    ds_name_regex_pattern (DS.name d) = true /\ DS.name d ∉ ds_denylist_).
  { intros d. unfold kept_by_vmfs_ds. rewrite andb_true_iff, negb_true_iff.
    destruct ds_denylist_ as [| x l]; cbn [andb].
    - split; [intros [H _]; split; [exact H | apply not_elem_of_nil] | tauto].
    - rewrite bool_decide_eq_false. tauto. }
  exists kept. split; [| split; [exact Hsub | split; [| split]]].
  - unfold vmfs_ds. rewrite bind_run. cbn [get_world].
    exact (bind_Ok _ _ _ _ _ Hrun).
  - intros r. rewrite Hiff. split; intros [H1 (d & Hd & Hk)];
      (split; [exact H1 | exists d; split; [exact Hd | apply Hkeep, Hk]]).
  - intros r d Hr Hd. apply Hiff in Hr as [_ (d' & Hd' & Hk)].
    rewrite Hd in Hd'. injection Hd' as <-. apply Hkeep in Hk as [Hk _].
    unfold ds_name_regex_pattern in Hk. apply andb_true_iff in Hk as [Hk _].
    apply prefix_true, Hk.
  - unfold vmfs_ds. rewrite bind_run. cbn [get_world].
    assert (Hagain : filter_refs (kept_by_vmfs_ds ds_denylist_) kept (set_elements kept w)
                     = (Ok kept, set_elements kept w)).
    { apply filter_refs_kept, Forall_forall. intros r Hr.
      apply Hiff in Hr as [_ H]. exact H. }
    exact (bind_Ok _ _ _ _ _ Hagain).
Qed.

Lemma vmfs_ds_keeps_witness :
  wf three_datastores
  /\ exists kept,
       vmfs_ds [ds_002] three_datastores = (Ok tt, set_elements kept three_datastores)
       /\ kept `sublist_of` elements three_datastores
       /\ vmfs_ds [ds_002] (set_elements kept three_datastores)
          = (Ok tt, set_elements kept three_datastores).
Proof.
  assert (Hwf : wf three_datastores) by (unfold wf; vm_compute; repeat constructor).
  split; [exact Hwf |].
  destruct (vmfs_ds_keeps [ds_002] three_datastores Hwf) as (kept & Hrun & Hsub & _ & _ & Hagain).
  exists kept. split; [exact Hrun |]. split; [exact Hsub | exact Hagain].
Defined.

Lemma sum_of_overall (f : DS.t -> Z) (h : list DS.t) (ds : list (nat * DS.t)) :
  Forall (fun rd => h !! rd.1 = Some rd.2) ds ->
  sum_of f ds = foldr (fun r acc => from_option f 0 (h !! r) + acc) 0 (map fst ds).
Proof.
  induction 1 as [| [r d] l Hrd Hl IH]; [reflexivity |].
  cbn in *. rewrite Hrd, <- IH. reflexivity.
Qed.

Section Average.

Variable rnd : Q -> Q.

Lemma overall_run (f : DS.t -> Z) (w : World) :
  wf w ->
  (w0 ← get_world; ds ← deref_all (elements w0); mret (sum_of f ds)) w
  = (Ok (overall f w), w).
Proof.
  intros Hwf. destruct (deref_all_run _ _ Hwf) as (ds & Hrun & Hfst & Hds).
  rewrite bind_run. cbn [get_world]. rewrite (bind_Ok _ _ _ _ _ Hrun).
  unfold overall. rewrite <- Hfst, <- (sum_of_overall f _ _ Hds). reflexivity.
Qed.

(** X7: over the datastores of [ds_info.elements], the overall capacity
    and free space are the sums of theirs; the overall average usage is
    the usage these two sums give, and [ZeroDivisionError] when the sum of
    the capacities is zero, as it is when there is no datastore. *)
Theorem average_usage_of_datastores (w : World) :
  wf w ->
  get_overall_capacity w = (Ok (overall DS.capacity w), w)
  /\ get_overall_freespace w = (Ok (overall DS.freespace w), w)
  /\ (overall DS.capacity w = 0 ->
        get_overall_average_usage rnd w = (Raise ZeroDivisionError, w))
  /\ (overall DS.capacity w <> 0 ->
        get_overall_average_usage rnd w
        = (Ok (usage_value rnd (overall DS.freespace w) (overall DS.capacity w)), w))
  /\ (elements w = [] ->
        get_overall_average_usage rnd w = (Raise ZeroDivisionError, w)).
Proof.
  intros Hwf.
  assert (Hc : get_overall_capacity w = (Ok (overall DS.capacity w), w))
    by apply (overall_run DS.capacity w Hwf).
  assert (Hf : get_overall_freespace w = (Ok (overall DS.freespace w), w))
    by apply (overall_run DS.freespace w Hwf).
  assert (Hzero : overall DS.capacity w = 0 ->
            get_overall_average_usage rnd w = (Raise ZeroDivisionError, w)).
  { intros Hz. unfold get_overall_average_usage.
    rewrite (bind_Ok _ _ _ _ _ Hf), (bind_Ok _ _ _ _ _ Hc), Hz. reflexivity. }
  split; [exact Hc |]. split; [exact Hf |]. split; [exact Hzero |]. split.
  - intros Hnz. unfold get_overall_average_usage.
    rewrite (bind_Ok _ _ _ _ _ Hf), (bind_Ok _ _ _ _ _ Hc).
    unfold lift. rewrite (usage_of_nonzero rnd _ _ Hnz). reflexivity.
  - intros He. apply Hzero. unfold overall. rewrite He. reflexivity.
Qed.

End Average.

Lemma average_usage_of_datastores_witness :
  wf three_datastores
  /\ overall DS.capacity three_datastores <> 0
  /\ get_overall_average_usage binary64 three_datastores
     = (Ok (usage_value binary64 (overall DS.freespace three_datastores)
              (overall DS.capacity three_datastores)), three_datastores).
Proof.
  assert (Hwf : wf three_datastores) by (unfold wf; vm_compute; repeat constructor).
  assert (Hnz : overall DS.capacity three_datastores <> 0) by (vm_compute; discriminate).
  split; [exact Hwf |]. split; [exact Hnz |].
  exact (proj1 (proj2 (proj2 (proj2
           (average_usage_of_datastores binary64 three_datastores Hwf)))) Hnz).
Defined.

(** ** Sorting *)

Section SortOrder.

Context {A K : Type} (leb : K -> K -> bool) (key : A -> K).

Hypothesis leb_total : forall a b, leb a b = true \/ leb b a = true.
Hypothesis leb_trans : forall a b c, leb a b = true -> leb b c = true -> leb a c = true.

Lemma insert_sorted_elem (x y : A) (l : list A) :
  y ∈ insert_sorted leb key x l <-> y = x \/ y ∈ l.
Proof.
  induction l as [| z l IH]; cbn [insert_sorted].
  - rewrite list_elem_of_singleton, elem_of_nil. tauto.
  - destruct (leb (key x) (key z)).
    + rewrite !elem_of_cons. tauto.
    + rewrite !elem_of_cons, IH. tauto.
Qed.

Lemma insert_sorted_ordered (x : A) (l : list A) :
  StronglySorted (fun a b => leb (key a) (key b) = true) l ->
  StronglySorted (fun a b => leb (key a) (key b) = true) (insert_sorted leb key x l).
Proof.
  induction 1 as [| z l Hl IH Hz]; cbn [insert_sorted].
  - repeat constructor.
  - destruct (leb (key x) (key z)) eqn:E.
    + constructor; [constructor; assumption |].
      constructor; [exact E |].
      eapply Forall_impl; [exact Hz |]. intros y Hy. eapply leb_trans; eassumption.
    + constructor; [exact IH |].
      apply Forall_forall. intros y Hy. apply insert_sorted_elem in Hy as [-> | Hy].
      * destruct (leb_total (key x) (key z)) as [H | H]; [congruence | exact H].
      * rewrite Forall_forall in Hz. apply Hz, Hy.
Qed.

Lemma sorted_ordered (l : list A) :
  StronglySorted (fun a b => leb (key a) (key b) = true) (sorted leb key l).
Proof.
  induction l as [| x l IH]; cbn; [constructor | apply insert_sorted_ordered, IH].
Qed.

Lemma ordered_app (R : A -> A -> Prop) (l1 l2 : list A) :
  StronglySorted R l1 -> StronglySorted R l2 ->
  (forall x y, x ∈ l1 -> y ∈ l2 -> R x y) ->
  StronglySorted R (l1 ++ l2).
Proof.
  intros H1 H2 H. induction H1 as [| x l1 Hl1 IH Hx]; [exact H2 |].
  cbn. constructor.
  - apply IH. intros a b Ha Hb. apply H; [right; exact Ha | exact Hb].
  - apply Forall_app. split; [exact Hx |].
    apply Forall_forall. intros y Hy. apply H; [left | exact Hy].
Qed.

Lemma ordered_rev (R : A -> A -> Prop) (l : list A) :
  StronglySorted R l -> StronglySorted (fun x y => R y x) (rev l).
Proof.
  induction 1 as [| x l Hl IH Hx]; [constructor |].
  cbn. apply ordered_app; [exact IH | repeat constructor |].
  intros a b Ha Hb. apply list_elem_of_singleton in Hb as ->.
  rewrite Forall_forall in Hx. apply Hx.
  apply list_elem_of_In, in_rev, list_elem_of_In, Ha.
Qed.

Lemma sorted_reverse_ordered (l : list A) :
  StronglySorted (fun a b => leb (key b) (key a) = true) (sorted_reverse leb key l).
Proof. unfold sorted_reverse. apply ordered_rev, sorted_ordered. Qed.

(** The last of a sorted list is the last of the greatest of the list. *)
Lemma insert_sorted_last (x : A) (l : list A) :
  last (insert_sorted leb key x l)
  = if forallb (fun y => negb (leb (key x) (key y))) l then Some x else last l.
Proof.
  induction l as [| z l IH]; [reflexivity |].
  cbn [insert_sorted forallb]. destruct (leb (key x) (key z)) eqn:E; cbn [negb andb].
  - reflexivity.
  - change (last (z :: insert_sorted leb key x l))
      with (match insert_sorted leb key x l with
            | [] => Some z | _ => last (insert_sorted leb key x l) end).
    destruct (insert_sorted leb key x l) as [| y l'] eqn:Hins.
    + destruct l; cbn in Hins; [discriminate Hins |].
      destruct (leb (key x) (key a)); discriminate Hins.
    + rewrite IH. destruct (forallb _ l) eqn:F; [reflexivity |].
      destruct l as [| a l'']; [discriminate F | reflexivity].
Qed.

Lemma sorted_last (l : list A) (z : A) :
  last (sorted leb key l) = Some z ->
  exists l1 l2, l = l1 ++ z :: l2
    /\ (forall y, y ∈ l1 -> leb (key y) (key z) = true)
    /\ (forall y, y ∈ l2 -> leb (key z) (key y) = false).
Proof.
  revert z. induction l as [| x l IH]; intros z; [discriminate |].
  cbn [sorted foldr]. fold (sorted leb key l). rewrite insert_sorted_last.
  destruct (forallb _ (sorted leb key l)) eqn:F.
  - intros [= <-]. exists [], l. split; [reflexivity |]. split.
    + intros y Hy. inversion Hy.
    + intros y Hy. rewrite forallb_forall in F.
      apply negb_true_iff, F, list_elem_of_In, (proj2 (sorted_elem leb key _ _)), Hy.
  - intros Hz. destruct (IH z Hz) as (l1 & l2 & -> & H1 & H2).
    exists (x :: l1), l2. split; [reflexivity |]. split; [| exact H2].
    intros y Hy. apply elem_of_cons in Hy as [-> | Hy]; [| apply H1, Hy].
    assert (Hex : exists y, y ∈ l1 ++ z :: l2 /\ leb (key x) (key y) = true).
    { apply not_true_iff_false in F. rewrite forallb_forall in F.
      destruct (existsb (fun y => leb (key x) (key y)) (sorted leb key (l1 ++ z :: l2)))
        eqn:Ex.
      - apply existsb_exists in Ex as (y & Hy & Hxy). exists y. split; [| exact Hxy].
        apply (proj1 (sorted_elem leb key _ _)), list_elem_of_In, Hy.
      - exfalso. apply F. intros y Hy. apply negb_true_iff.
        destruct (leb (key x) (key y)) eqn:Exy; [| reflexivity].
        assert (existsb (fun y => leb (key x) (key y)) (sorted leb key (l1 ++ z :: l2))
                = true) by (apply existsb_exists; exists y; split; assumption).
        congruence. }
    destruct Hex as (y & Hy & Hxy).
    assert (Hyz : leb (key y) (key z) = true).
    { apply elem_of_app in Hy as [Hy | Hy]; [apply H1, Hy |].
      apply elem_of_cons in Hy as [-> | Hy].
      - destruct (leb_total (key z) (key z)); assumption.
      - destruct (leb_total (key y) (key z)) as [H | H]; [exact H |].
        rewrite (H2 y Hy) in H. discriminate H. }
    eapply leb_trans; eassumption.
Qed.

(** The first of a list sorted in reverse is the first of the greatest of
    the list. *)
Lemma sorted_reverse_first (l : list A) (z : A) (rest : list A) :
  sorted_reverse leb key l = z :: rest ->
  exists l1 l2, l = l1 ++ z :: l2
    /\ (forall y, y ∈ l1 -> leb (key z) (key y) = false)
    /\ (forall y, y ∈ l2 -> leb (key y) (key z) = true).
Proof.
  unfold sorted_reverse. intros H.
  assert (Hl : last (sorted leb key (rev l)) = Some z).
  { rewrite <- (rev_involutive (sorted leb key (rev l))), H. cbn.
    rewrite last_snoc. reflexivity. }
  destruct (sorted_last _ _ Hl) as (l1 & l2 & Hrev & H1 & H2).
  exists (rev l2), (rev l1). split; [| split].
  - rewrite <- (rev_involutive l), Hrev, rev_app_distr. cbn. rewrite <- app_assoc. reflexivity.
  - intros y Hy. apply H2, list_elem_of_In, in_rev, list_elem_of_In, Hy.
  - intros y Hy. apply H1, list_elem_of_In, in_rev, list_elem_of_In, Hy.
Qed.

End SortOrder.

Lemma ordered_impl {A : Type} (R R' : A -> A -> Prop) (l : list A) :
  (forall x y, R x y -> R' x y) -> StronglySorted R l -> StronglySorted R' l.
Proof.
  intros H. induction 1 as [| x l Hl IH Hx]; constructor; [exact IH |].
  eapply Forall_impl; [exact Hx | apply H].
Qed.

Lemma Zleb_total (a b : Z) : (a <=? b) = true \/ (b <=? a) = true.
Proof. rewrite !Z.leb_le. lia. Qed.

Lemma Zleb_trans (a b c : Z) : (a <=? b) = true -> (b <=? c) = true -> (a <=? c) = true.
Proof. rewrite !Z.leb_le. lia. Qed.

Lemma Qle_bool_total (a b : Q) : Qle_bool a b = true \/ Qle_bool b a = true.
Proof.
  rewrite !Qle_bool_iff. destruct (Qlt_le_dec a b) as [H | H]; [left | right; exact H].
  apply Qlt_le_weak, H.
Qed.

Lemma Qle_bool_trans (a b c : Q) :
  Qle_bool a b = true -> Qle_bool b c = true -> Qle_bool a c = true.
Proof. rewrite !Qle_bool_iff. apply Qle_trans. Qed.

(** X8: [sort_vms_by_total_disksize] returns the same vms, from the
    largest total disk size to the smallest; its first vm is the first of
    the given ones that has the largest size. *)
Theorem largest_shadow_vm_first (vms : list VM.t) :
  sort_vms_by_total_disksize vms ≡ₚ vms
  /\ StronglySorted (fun a b => VM.get_total_disksize b <= VM.get_total_disksize a)
       (sort_vms_by_total_disksize vms)
  /\ forall largest rest,
       sort_vms_by_total_disksize vms = largest :: rest ->
       exists before after,
         vms = before ++ largest :: after
         /\ (forall vm, vm ∈ before ->
               VM.get_total_disksize vm < VM.get_total_disksize largest)
         /\ (forall vm, vm ∈ after ->
               VM.get_total_disksize vm <= VM.get_total_disksize largest).
Proof.
  unfold sort_vms_by_total_disksize. split; [apply sorted_reverse_perm |]. split.
  - eapply ordered_impl;
      [| apply (sorted_reverse_ordered Z.leb VM.get_total_disksize Zleb_total Zleb_trans)].
    intros a b H. cbv beta in H. apply Z.leb_le, H.
  - intros largest rest H.
    destruct (sorted_reverse_first Z.leb VM.get_total_disksize Zleb_total Zleb_trans _ _ _ H)
      as (l1 & l2 & Hl & H1 & H2).
    exists l1, l2. split; [exact Hl |]. split.
    + intros vm Hvm. apply H1 in Hvm. apply Z.leb_gt in Hvm. exact Hvm.
    + intros vm Hvm. apply Z.leb_le, H2, Hvm.
Qed.

Section Order.

Variable rnd : Q -> Q.

Lemma ordered_refs (R : DS.t -> DS.t -> Prop) (h : list DS.t) (ds : list (nat * DS.t)) :
  Forall (fun rd => h !! rd.1 = Some rd.2) ds ->
  StronglySorted (fun a b => R (snd a) (snd b)) ds ->
  StronglySorted (fun r1 r2 => forall d1 d2,
                    h !! r1 = Some d1 -> h !! r2 = Some d2 -> R d1 d2) (map fst ds).
Proof.
  intros Hds. induction 1 as [| [r d] l Hl IH Hx]; [constructor |].
  apply Forall_cons in Hds as [Hrd Hds]. cbn [map fst]. constructor; [apply IH, Hds |].
  apply Forall_map. rewrite Forall_forall in Hx, Hds. apply Forall_forall.
  intros [r' d'] Hin d1 d2 H1 H2.
  pose proof (Hds _ Hin) as Hrd'. pose proof (Hx _ Hin) as HR. cbn [fst snd] in *.
  assert (d1 = d) as -> by congruence. assert (d2 = d') as -> by congruence.
  exact HR.
Qed.

(** X6: [sort_by_usage] reorders [ds_info.elements] and changes nothing
    else: the datastores are the same, and they come from the largest to
    the smallest usage, each usage multiplied by the weight of the
    datastore when it has one. *)
Theorem sort_by_usage_orders (ds_weight : gmap string Q) (w : World) :
  wf w ->
  exists l,
    sort_by_usage rnd ds_weight w = (Ok tt, set_elements l w)
    /\ l ≡ₚ elements w
    /\ StronglySorted
         (fun r1 r2 => forall d1 d2,
            heap w !! r1 = Some d1 -> heap w !! r2 = Some d2 ->
            (weighted_usage rnd ds_weight d2 <= weighted_usage rnd ds_weight d1)%Q) l.
Proof.
  intros Hwf. destruct (deref_all_run _ _ Hwf) as (ds & Hrun & Hfst & Hds).
  unfold sort_by_usage. rewrite bind_run. cbn [get_world].
  rewrite (bind_Ok _ _ _ _ _ Hrun). cbn [modify].
  eexists. split; [reflexivity |]. split.
  - rewrite <- Hfst. apply fmap_Permutation, sorted_reverse_perm.
  - apply (ordered_refs (fun d1 d2 =>
             (weighted_usage rnd ds_weight d2 <= weighted_usage rnd ds_weight d1)%Q)).
    + eapply Forall_forall. intros rd Hrd. rewrite Forall_forall in Hds. apply Hds.
      eapply elem_of_Permutation_proper; [| exact Hrd].
      symmetry. apply (sorted_reverse_perm Qle_bool).
    + eapply ordered_impl;
        [| apply (sorted_reverse_ordered Qle_bool _ Qle_bool_total Qle_bool_trans)].
      intros a b H. cbv beta in H. apply Qle_bool_iff in H. exact H.
Qed.

End Order.

Lemma sort_by_usage_orders_witness :
  wf three_datastores
  /\ exists l,
       sort_by_usage binary64 ∅ three_datastores = (Ok tt, set_elements l three_datastores)
       /\ l ≡ₚ elements three_datastores.
Proof.
  assert (Hwf : wf three_datastores) by (unfold wf; vm_compute; repeat constructor).
  split; [exact Hwf |].
  destruct (sort_by_usage_orders binary64 ∅ three_datastores Hwf) as (l & Hrun & Hperm & _).
  exists l. split; [exact Hrun | exact Hperm].
Defined.

(** ** Errors and round trips of the Move Simulator *)

Lemma list_remove_absent (x : nat) (l : list nat) :
  x ∉ l -> DS.list_remove x l = Raise ValueError.
Proof.
  induction l as [| y l IH]; intros H; [reflexivity |].
  apply not_elem_of_cons in H as [Hxy Hl]. cbn [DS.list_remove].
  destruct (Nat.eqb_spec y x) as [-> | _]; [contradiction |].
  rewrite (IH Hl). reflexivity.
Qed.

Lemma list_remove_perm (x : nat) (l hs : list nat) :
  DS.list_remove x l = Ok hs -> l ≡ₚ x :: hs.
Proof.
  revert hs. induction l as [| y l IH]; intros hs H; [discriminate H |].
  cbn [DS.list_remove] in H. destruct (Nat.eqb_spec y x) as [-> | _].
  - injection H as <-. reflexivity.
  - destruct (DS.list_remove x l) as [r | |]; try discriminate H.
    injection H as <-. rewrite (IH r eq_refl). apply Permutation_swap.
Qed.

Lemma list_remove_appended (x : nat) (l : list nat) :
  x ∉ l -> DS.list_remove x (l ++ [x]) = Ok l.
Proof.
  induction l as [| y l IH]; intros H.
  - cbn. rewrite Nat.eqb_refl. reflexivity.
  - apply not_elem_of_cons in H as [Hxy Hl]. cbn [app DS.list_remove].
    destruct (Nat.eqb_spec y x) as [-> | _]; [contradiction |].
    rewrite (IH Hl). reflexivity.
Qed.

Section MoveErrors.

Variable rnd : Q -> Q.

(** X9: a vm whose handle is not among the handles of the source cannot
    be removed from it: [remove_shadow_vm] raises [ValueError], and so does
    the Move Simulator, before anything is changed or logged. *)
Theorem move_of_absent_vm_raises (ds1 ds2 : nat) (vm : VM.t) (w : World) (d1 : DS.t) :
  heap w !! ds1 = Some d1 ->
  VM.handle vm ∉ DS.vm_handles d1 ->
  remove_shadow_vm rnd ds1 vm w = (Raise ValueError, w)
  /\ move_shadow_vm_from_ds_to_ds rnd ds1 ds2 vm w = (Raise ValueError, w).
Proof.
  intros Hd Habs.
  assert (Hrem : remove_shadow_vm rnd ds1 vm w = (Raise ValueError, w)).
  { rewrite (remove_shadow_vm_run rnd _ _ _ _ Hd), (list_remove_absent _ _ Habs).
    reflexivity. }
  split; [exact Hrem |].
  unfold move_shadow_vm_from_ds_to_ds.
  rewrite (bind_Ok _ _ _ _ _ (deref_Some _ _ _ Hd)), bind_run, Hrem. reflexivity.
Qed.

End MoveErrors.

Lemma move_of_absent_vm_raises_witness :
  (exists d1, heap two_datastores !! 0%nat = Some d1 /\ VM.handle volume_20 ∉ DS.vm_handles d1)
  /\ move_shadow_vm_from_ds_to_ds binary64 0 1 volume_20 two_datastores
     = (Raise ValueError, two_datastores).
Proof.
  destruct (heap two_datastores !! 0%nat) as [d1 |] eqn:Hd1;
    [| vm_compute in Hd1; discriminate Hd1].
  assert (Habs : VM.handle volume_20 ∉ DS.vm_handles d1).
  { vm_compute in Hd1. injection Hd1 as <-. cbn.
    intros H. apply list_elem_of_singleton in H. discriminate H. }
  split; [exists d1; split; [reflexivity | exact Habs] |].
  exact (proj2 (move_of_absent_vm_raises binary64 0 1 volume_20 two_datastores d1 Hd1 Habs)).
Defined.

Section RoundTrip.

Variable rnd : Q -> Q.

(** X10: a move from one datastore to another and back succeeds, and
    gives both their free space back and the usage that belongs to it;
    the handles of both are the same as before, up to their order, and
    those of the second in their order too when the handle of the vm was
    not among them; no other datastore changes. *)
Theorem move_there_and_back (ds1 ds2 : nat) (vm : VM.t) (w : World) (d1 d2 : DS.t) :
  ds1 <> ds2 ->
  heap w !! ds1 = Some d1 ->
  heap w !! ds2 = Some d2 ->
  DS.capacity d1 <> 0 ->
  DS.capacity d2 <> 0 ->
  VM.handle vm ∈ DS.vm_handles d1 ->
  exists w' w'' d1' d2',
    move_shadow_vm_from_ds_to_ds rnd ds1 ds2 vm w = (Ok tt, w')
    /\ move_shadow_vm_from_ds_to_ds rnd ds2 ds1 vm w' = (Ok tt, w'')
    /\ heap w'' !! ds1 = Some d1' /\ heap w'' !! ds2 = Some d2'
    /\ DS.freespace d1' = DS.freespace d1 /\ DS.freespace d2' = DS.freespace d2
    /\ DS.usage d1' = usage_value rnd (DS.freespace d1) (DS.capacity d1)
    /\ DS.usage d2' = usage_value rnd (DS.freespace d2) (DS.capacity d2)
    /\ DS.vm_handles d1' ≡ₚ DS.vm_handles d1
    /\ DS.vm_handles d2' ≡ₚ DS.vm_handles d2
    /\ (VM.handle vm ∉ DS.vm_handles d2 -> DS.vm_handles d2' = DS.vm_handles d2)
    /\ (forall r, r <> ds1 -> r <> ds2 -> heap w'' !! r = heap w !! r)
    /\ elements w'' = elements w.
Proof.
  intros Hne Hd1 Hd2 Hc1 Hc2 Hin.
  destruct (move_succeeds rnd ds1 ds2 vm w d1 d2 Hne Hd1 Hd2 Hc1 Hc2 Hin) as (w' & Hm1).
  destruct (move_Ok_inv rnd _ _ _ _ _ Hm1)
    as (e1 & hs & u1 & e2 & u2 & He1 & Hhs & Hu1 & He2 & Hu2 & Hheap' & Hels' & _).
  rewrite Hd1 in He1. injection He1 as <-.
  rewrite list_lookup_insert_ne in He2 by exact Hne.
  rewrite Hd2 in He2. injection He2 as <-.
  set (D1 := DS.set_usage u1 (without_vm vm hs d1)) in *.
  set (D2 := DS.set_usage u2 (with_vm vm d2)) in *.
  assert (Hl1 : (ds1 < length (heap w))%nat) by (eapply lookup_lt_Some; eassumption).
  assert (Hl2 : (ds2 < length (heap w))%nat) by (eapply lookup_lt_Some; eassumption).
  assert (HD2 : heap w' !! ds2 = Some D2).
  { rewrite Hheap'. apply list_lookup_insert_eq. rewrite length_insert. exact Hl2. }
  assert (HD1 : heap w' !! ds1 = Some D1).
  { rewrite Hheap', list_lookup_insert_ne by (intros H; apply Hne; symmetry; exact H).
    apply list_lookup_insert_eq. exact Hl1. }
  assert (Hin2 : VM.handle vm ∈ DS.vm_handles D2).
  { cbn. apply elem_of_app. right. apply list_elem_of_singleton. reflexivity. }
  destruct (move_succeeds rnd ds2 ds1 vm w' D2 D1 (fun H => Hne (eq_sym H)) HD2 HD1 Hc2 Hc1 Hin2)
    as (w'' & Hm2).
  destruct (move_Ok_inv rnd _ _ _ _ _ Hm2)
    as (f2 & hs' & v2 & f1 & v1 & Hf2 & Hhs' & Hv2 & Hf1 & Hv1 & Hheap'' & Hels'' & _).
  rewrite HD2 in Hf2. injection Hf2 as <-.
  rewrite list_lookup_insert_ne in Hf1 by (intros H; apply Hne; symmetry; exact H).
  rewrite HD1 in Hf1. injection Hf1 as <-.
  assert (Hl1' : (ds1 < length (heap w'))%nat) by (eapply lookup_lt_Some; eassumption).
  assert (Hl2' : (ds2 < length (heap w'))%nat) by (eapply lookup_lt_Some; eassumption).
  exists w', w'', (DS.set_usage v1 (with_vm vm D1)),
         (DS.set_usage v2 (without_vm vm hs' D2)).
  split; [exact Hm1 |]. split; [exact Hm2 |].
  split; [| split].
  - rewrite Hheap''. apply list_lookup_insert_eq. rewrite length_insert. exact Hl1'.
  - rewrite Hheap'', list_lookup_insert_ne by exact Hne.
    apply list_lookup_insert_eq. exact Hl2'.
  - split; [cbn; lia |]. split; [cbn; lia |].
    apply usage_of_Ok_inv in Hv1 as [_ ->]. apply usage_of_Ok_inv in Hv2 as [_ ->].
    split; [| split].
    + cbn. f_equal. lia.
    + cbn. f_equal. lia.
    + assert (Hp2 : hs' ≡ₚ DS.vm_handles d2).
      { apply list_remove_perm in Hhs'. cbn in Hhs'.
        rewrite <- Permutation_cons_append in Hhs'. eapply Permutation_cons_inv.
        symmetry. exact Hhs'. }
      split; [| split; [exact Hp2 | split; [| split]]].
      * cbn. apply list_remove_perm in Hhs. rewrite Hhs.
        symmetry. apply Permutation_cons_append.
      * intros Habs. cbn in Hhs'. rewrite (list_remove_appended _ _ Habs) in Hhs'.
        injection Hhs' as <-. reflexivity.
      * intros r Hr1 Hr2. rewrite Hheap'', Hheap'.
        rewrite !list_lookup_insert_ne by congruence. reflexivity.
      * rewrite Hels'', Hels'. reflexivity.
Qed.

End RoundTrip.

Lemma move_there_and_back_witness :
  exists w' w'',
    move_shadow_vm_from_ds_to_ds binary64 0 1 volume_50 two_datastores = (Ok tt, w')
    /\ move_shadow_vm_from_ds_to_ds binary64 1 0 volume_50 w' = (Ok tt, w'')
    /\ elements w'' = elements two_datastores.
Proof.
  destruct (heap two_datastores !! 0%nat) as [d1 |] eqn:Hd1;
    [| vm_compute in Hd1; discriminate Hd1].
  destruct (heap two_datastores !! 1%nat) as [d2 |] eqn:Hd2;
    [| vm_compute in Hd2; discriminate Hd2].
  assert (Hc1 : DS.capacity d1 <> 0)
    by (vm_compute in Hd1; injection Hd1 as <-; discriminate).
  assert (Hc2 : DS.capacity d2 <> 0)
    by (vm_compute in Hd2; injection Hd2 as <-; discriminate).
  assert (Hin : VM.handle volume_50 ∈ DS.vm_handles d1)
    by (vm_compute in Hd1; injection Hd1 as <-; apply list_elem_of_here).
  destruct (move_there_and_back binary64 0 1 volume_50 two_datastores d1 d2
              ltac:(discriminate) Hd1 Hd2 Hc1 Hc2 Hin)
    as (w' & w'' & d1' & d2' & Hm1 & Hm2 & H).
  exists w', w''. split; [exact Hm1 |]. split; [exact Hm2 |].
  exact (proj2 (proj2 (proj2 (proj2 (proj2 (proj2 (proj2 (proj2 (proj2 (proj2 H)))))))))).
Defined.

(** ** The storage-controller view *)

(** X11: [NAAggr.__init__] joins by name: the flexvols of an aggregate
    are those that name it, and its luns are those of the controller that
    sit on one of these flexvols; when no two flexvols of the controller
    have the same name and no lun is listed twice, no lun of the aggregate
    is listed twice. *)
Theorem aggregate_luns_joined (name host : string) (usage capacity : Z)
    (na_fvol_elements : list NAFvol.t) (na_lun_elements : list NALun.t) :
  let aggr := NAAggr.init name host usage capacity na_fvol_elements na_lun_elements in
  (forall fvol, fvol ∈ NAAggr.fvols aggr <->
     fvol ∈ na_fvol_elements /\ NAFvol.aggr fvol = name)
  /\ (forall lun, lun ∈ NAAggr.luns aggr <->
        lun ∈ na_lun_elements
        /\ exists fvol, fvol ∈ na_fvol_elements /\ NAFvol.aggr fvol = name
                        /\ NALun.fvol lun = NAFvol.name fvol)
  /\ (NoDup (map NAFvol.name na_fvol_elements) -> NoDup na_lun_elements ->
        NoDup (NAAggr.luns aggr)).
Proof.
  cbv zeta. unfold NAAggr.init. cbn [NAAggr.fvols NAAggr.luns].
  split; [| split].
  - intros fvol. rewrite list_elem_of_filter. tauto.
  - intros lun. rewrite list_elem_of_In, in_flat_map. split.
    + intros (fvol & Hf & Hl). apply list_elem_of_In, list_elem_of_filter in Hf as [Ha Hf].
      apply list_elem_of_In, list_elem_of_filter in Hl as [Hn Hl].
      split; [exact Hl |]. exists fvol. tauto.
    + intros (Hl & fvol & Hf & Ha & Hn). exists fvol. split.
      * apply list_elem_of_In, list_elem_of_filter. tauto.
      * apply list_elem_of_In, list_elem_of_filter. tauto.
  - intros Hnames Hluns.
    induction na_fvol_elements as [| fvol fvols IH]; [constructor |].
    cbn [map] in Hnames. apply NoDup_cons in Hnames as [Hfresh Hnames].
    rewrite filter_cons. destruct (decide (NAFvol.aggr fvol = name)) as [Ha | Ha];
      [| apply IH, Hnames].
    cbn [flat_map]. apply NoDup_app. split; [apply NoDup_filter, Hluns |]. split;
      [| apply IH, Hnames].
    intros lun H1 H2. apply list_elem_of_filter in H1 as [H1 _].
    apply list_elem_of_In, in_flat_map in H2 as (fvol' & Hf' & Hl').
    apply list_elem_of_In, list_elem_of_filter in Hf' as [_ Hf'].
    apply list_elem_of_In, list_elem_of_filter in Hl' as [Hn' _].
    apply Hfresh. rewrite <- H1, Hn'. apply list_elem_of_fmap. exists fvol'. tauto.
Qed.

Lemma foldl_capacity (l : list NAAggr.t) (z : Z) :
  foldl (fun acc aggr => acc + NAAggr.capacity aggr) z l
  = z + foldr (fun aggr acc => NAAggr.capacity aggr + acc) 0 l.
Proof.
  revert z. induction l as [| a l IH]; intros z; cbn; [lia |]. rewrite IH. lia.
Qed.

Lemma sorted_nil_inv {A K : Type} (leb : K -> K -> bool) (key : A -> K) (l : list A) :
  sorted leb key l = [] -> l = [].
Proof.
  intros H. apply Permutation_nil_r. rewrite <- H. symmetry. apply sorted_perm.
Qed.

Section MostUsed.

Variable rnd : Q -> Q.

(** X12: [get_max_usage_aggr] raises [IndexError] when there is no
    aggregate, and [ZeroDivisionError], before it logs anything, when the
    capacities of the aggregates sum up to zero; the aggregate it returns
    otherwise is the last of those with the highest usage, and it has
    logged three records and changed nothing else. *)
Theorem most_used_aggregate (na_info : list NA.t) (w : World) :
  (all_aggregates na_info = [] ->
     get_max_usage_aggr rnd na_info w = (Raise IndexError, w))
  /\ (all_aggregates na_info <> [] -> total_aggr_capacity na_info = 0 ->
        get_max_usage_aggr rnd na_info w = (Raise ZeroDivisionError, w))
  /\ (forall max_usage_aggr avg_aggr_usage w',
        get_max_usage_aggr rnd na_info w = (Ok (max_usage_aggr, avg_aggr_usage), w') ->
        total_aggr_capacity na_info <> 0
        /\ (exists before after,
              all_aggregates na_info = before ++ max_usage_aggr :: after
              /\ (forall a, a ∈ before -> NAAggr.usage a <= NAAggr.usage max_usage_aggr)
              /\ (forall a, a ∈ after -> NAAggr.usage a < NAAggr.usage max_usage_aggr))
        /\ exists r1 r2 r3, w' = set_log (log w ++ [r1; r2; r3]) w).
Proof.
  unfold get_max_usage_aggr. cbv zeta. fold (all_aggregates na_info).
  rewrite foldl_capacity, Z.add_0_l. fold (total_aggr_capacity na_info).
  split; [| split].
  - intros ->. reflexivity.
  - intros Hne Hz. rewrite Hz.
    destruct (sorted Z.leb NAAggr.usage (all_aggregates na_info)) as [| a l] eqn:Hs.
    { apply sorted_nil_inv in Hs. contradiction. }
    rewrite bind_run. cbn [first_item lift]. rewrite bind_run.
    unfold lift at 1. unfold last_item.
    destruct (last (a :: l)) as [m |] eqn:Hl; [| apply last_None in Hl; discriminate Hl].
    rewrite bind_run. unfold lift, div. cbn. reflexivity.
  - intros m avg w' H.
    apply bind_Ok_inv in H as (mn & w1 & Hmn & H). apply lift_run in Hmn as [_ ->].
    apply bind_Ok_inv in H as (mx & w2 & Hmx & H). apply lift_run in Hmx as [Hmx ->].
    apply bind_Ok_inv in H as (q & w3 & Hq & H). apply lift_run in Hq as [Hq ->].
    cbn in H. injection H as <- _ <-.
    split; [| split].
    + intros Hz. rewrite Hz in Hq. unfold div in Hq. cbn in Hq. discriminate Hq.
    + unfold last_item in Hmx.
      destruct (last _) as [z |] eqn:Hl; [injection Hmx as -> | discriminate Hmx].
      destruct (sorted_last Z.leb NAAggr.usage Zleb_total Zleb_trans _ _ Hl)
        as (l1 & l2 & Hall & H1 & H2).
      exists l1, l2. split; [exact Hall |]. split.
      * intros a Ha. apply Z.leb_le, H1, Ha.
      * intros a Ha. apply Z.leb_gt, H2, Ha.
    + eexists _, _, _. rewrite <- !app_assoc. reflexivity.
Qed.

End MostUsed.

(** A capacity beyond 2^53 bytes is rounded to a float before it is
    multiplied or divided by: of one aggregate of 2^53 + 1 bytes that is
    50% used, the average usage is 50. *)
Example average_usage_of_a_large_aggregate :
  to_float binary64 (2 ^ 53 + 1) = of_int (2 ^ 53)
  /\ exists aggr,
       fst (get_max_usage_aggr binary64
              [netapp [aggregate "aggr_ssd_01" 50 (2 ^ 53 + 1) []]] empty_world)
       = Ok (aggr, 50%Q).
Proof. split; [| eexists]; vm_compute; reflexivity. Qed.

(** ** The sanity checks *)

Section Sanity.

Variable rnd : Q -> Q.

(** X13: [sanity_checks] answers [True] exactly when the most used
    datastore is not below [max_usage], the least used one is neither
    above [min_usage] nor below [min_freespace] GiB of free space, and
    their usages are not less than [min_max_difference] apart; it logs one
    record when it answers [False], none otherwise, and changes nothing
    else. *)
Theorem sanity_checks_verdict (least_used_ds most_used_ds : nat) (min_usage_ max_usage_ : Q)
    (min_freespace_ min_max_difference_ : Z) (w : World) (least most : DS.t) :
  heap w !! least_used_ds = Some least ->
  heap w !! most_used_ds = Some most ->
  exists verdict records,
    sanity_checks rnd least_used_ds most_used_ds min_usage_ max_usage_
      min_freespace_ min_max_difference_ w
    = (Ok verdict, set_log (log w ++ records) w)
    /\ (verdict = true <->
          (max_usage_ <= DS.usage most)%Q
          /\ (DS.usage least <= min_usage_)%Q
          /\ min_freespace_ * 1024 ^ 3 <= DS.freespace least
          /\ (of_int min_max_difference_ <= sub rnd (DS.usage most) (DS.usage least))%Q)
    /\ (verdict = true -> records = [])
    /\ (verdict = false -> exists m, records = [ {| levelname := INFO; msg := m |} ]).
Proof.
  intros Hl Hm. unfold sanity_checks.
  rewrite (bind_Ok _ _ _ _ _ (deref_Some _ _ _ Hm)), (bind_Ok _ _ _ _ _ (deref_Some _ _ _ Hl)).
  unfold DS.is_below_usage, DS.is_above_usage, DS.is_below_freespace, Qltb.
  destruct (Qle_bool max_usage_ (DS.usage most)) eqn:E1; cbn [negb].
  2:{ exists false, [ {| levelname := INFO;
                        msg := MostUsedBelowMax (DS.name most) (DS.usage most) max_usage_ |} ].
      split; [reflexivity |]. split; [| split; [discriminate | eauto]].
      split; [discriminate |]. intros (H & _). apply Qle_bool_iff in H. congruence. }
  destruct (Qle_bool (DS.usage least) min_usage_) eqn:E2; cbn [negb].
  2:{ exists false, [ {| levelname := INFO;
                        msg := LeastUsedAboveMin (DS.name least) (DS.usage least) min_usage_ |} ].
      split; [reflexivity |]. split; [| split; [discriminate | eauto]].
      split; [discriminate |]. intros (_ & H & _). apply Qle_bool_iff in H. congruence. }
  destruct (DS.freespace least <? min_freespace_ * 1024 ^ 3) eqn:E3.
  { eexists false, [ _ ].
    split; [reflexivity |]. split; [| split; [discriminate | eauto]].
    split; [discriminate |]. intros (_ & _ & H & _). apply Z.ltb_lt in E3. lia. }
  destruct (Qle_bool (of_int min_max_difference_) (sub rnd (DS.usage most) (DS.usage least)))
    eqn:E4; cbn [negb].
  2:{ eexists false, [ _ ].
      split; [reflexivity |]. split; [| split; [discriminate | eauto]].
      split; [discriminate |]. intros (_ & _ & _ & H). apply Qle_bool_iff in H. congruence. }
  exists true, []. split.
  - unfold mret, M_ret. rewrite app_nil_r. destruct w; reflexivity.
  - split; [| split; [reflexivity | discriminate]].
    split; [| reflexivity]. intros _.
    apply Qle_bool_iff in E1, E2, E4. apply Z.ltb_ge in E3. tauto.
Qed.

End Sanity.

Lemma sanity_checks_verdict_witness :
  exists verdict records,
    sanity_checks binary64 1 0 60 0 2500 2 three_datastores
    = (Ok verdict, set_log (log three_datastores ++ records) three_datastores)
    /\ (verdict = true -> records = []).
Proof.
  destruct (heap three_datastores !! 1%nat) as [least |] eqn:Hl;
    [| vm_compute in Hl; discriminate Hl].
  destruct (heap three_datastores !! 0%nat) as [most |] eqn:Hm;
    [| vm_compute in Hm; discriminate Hm].
  destruct (sanity_checks_verdict binary64 1 0 60 0 2500 2 three_datastores least most Hl Hm)
    as (verdict & records & Hrun & _ & Hnone & _).
  exists verdict, records. split; [exact Hrun | exact Hnone].
Defined.

(** ** The listing of the datastores *)

Lemma only_logs_ret {A : Type} (a : A) : only_logs (mret a).
Proof.
  intros w. exists a, []. unfold mret, M_ret. rewrite app_nil_r. destruct w; reflexivity.
Qed.

Lemma only_logs_tell (l : list LogRecord) : only_logs (tell l).
Proof. intros w. exists tt, l. reflexivity. Qed.

Lemma only_logs_bind {A B : Type} (c : M A) (k : A -> M B) :
  only_logs c -> (forall a, only_logs (k a)) -> only_logs (c ≫= k).
Proof.
  intros Hc Hk w. destruct (Hc w) as (a & l1 & H1).
  destruct (Hk a (set_log (log w ++ l1) w)) as (b & l2 & H2).
  exists b, (l1 ++ l2). rewrite (bind_Ok _ _ _ _ _ H1), H2. cbn. rewrite app_assoc.
  reflexivity.
Qed.

Lemma only_logs_for_each {A B : Type} (l : list A) (acc : B) (body : A -> B -> M B) :
  (forall x acc', only_logs (body x acc')) -> only_logs (for_each l acc body).
Proof.
  intros Hb. revert acc. induction l as [| x l IH]; intros acc.
  - apply only_logs_ret.
  - cbn [for_each]. apply only_logs_bind; [apply Hb | intros a; apply IH].
Qed.

Section Listing.

Variable rnd : Q -> Q.

Lemma only_logs_get_shadow_vms (vm_info : list VM.t) (hs : list nat) :
  only_logs (get_shadow_vms vm_info hs).
Proof.
  unfold get_shadow_vms. apply only_logs_bind; [apply only_logs_tell |].
  intros _. apply only_logs_ret.
Qed.

(** X14: the loop that lists the datastores before a pass stops at the
    first one that is on the configured deny list: whatever comes after it
    in [ds_info.elements] is not listed. *)
Theorem listing_stops_at_denied (vm_info : list VM.t) (args : Args)
    (before after : list nat) (i : nat) (w : World) (d : DS.t) (x : string)
    (denylist : list string) :
  heap w !! i = Some d ->
  ds_denylist w = Some (x :: denylist) ->
  DS.name d ∈ x :: denylist ->
  log_ds_and_shadow_vms rnd vm_info args (before ++ i :: after) w
  = log_ds_and_shadow_vms rnd vm_info args (before ++ [i]) w.
Proof.
  revert w. induction before as [| j before IH]; intros w Hd Hdl Hin.
  - cbn [app log_ds_and_shadow_vms].
    rewrite !(bind_Ok _ _ _ _ _ (deref_Some _ _ _ Hd)). rewrite !bind_run. cbn [get_world].
    rewrite Hdl. cbn [truthy default andb]. rewrite bool_decide_eq_true_2 by exact Hin.
    reflexivity.
  - cbn [app log_ds_and_shadow_vms]. rewrite !bind_run.
    destruct (deref j w) as [[dj | e |] w1] eqn:Hj; [| reflexivity ..].
    apply deref_Ok_inv in Hj as [Hj ->]. rewrite !bind_run. cbn [get_world].
    destruct (truthy (ds_denylist w)
              && bool_decide (DS.name dj ∈ default [] (ds_denylist w))); [reflexivity |].
    rewrite !bind_run. cbn [log_info tell modify].
    destruct (only_logs_get_shadow_vms vm_info (DS.vm_handles dj)
                (set_log (log w ++ [ {| levelname := INFO;
                    msg := DsLine (DS.name dj) (DS.usage dj)
                             (div_const rnd (of_int (DS.freespace dj)) GiB) |} ]) w))
      as (vms & l1 & Hrun1).
    rewrite !(bind_Ok _ _ _ _ _ Hrun1).
    match goal with
    | |- (for_each ?l ?acc ?body ≫= _) ?w1 = _ =>
        destruct (only_logs_for_each l acc body) with (w := w1) as (n & l2 & Hrun2)
    end.
    { intros vm printed. destruct (printed <? print_max args); [| apply only_logs_ret].
      apply only_logs_bind; [apply only_logs_tell | intros _; apply only_logs_ret]. }
    rewrite !(bind_Ok _ _ _ _ _ Hrun2). apply IH; assumption.
Qed.

End Listing.

Lemma listing_stops_at_denied_witness :
  (exists d, heap listed_world !! 1%nat = Some d /\ DS.name d ∈ [ds_002])
  /\ log_ds_and_shadow_vms binary64 [volume_50] default_args [0; 1; 2]%nat listed_world
     = log_ds_and_shadow_vms binary64 [volume_50] default_args [0; 1]%nat listed_world.
Proof.
  destruct (heap listed_world !! 1%nat) as [d |] eqn:Hd;
    [| vm_compute in Hd; discriminate Hd].
  assert (Hin : DS.name d ∈ [ds_002])
    by (vm_compute in Hd; injection Hd as <-; apply list_elem_of_here).
  split; [exists d; split; [reflexivity | exact Hin] |].
  exact (listing_stops_at_denied binary64 [volume_50] default_args [0%nat] [2%nat] 1
           listed_world d ds_002 [] Hd eq_refl Hin).
Defined.

(** ** Edges of the two passes *)

Section PassEdges.

Variable rnd : Q -> Q.

(** X15: every datastore-level pass ends, with a result or an exception,
    and logs at most [max_move_vms + 1] moves (none when that is negative);
    neither the source nor the target of any of its moves is on the derived
    deny list. *)
Theorem ds_pass_terminates_within_cap (na_info : list NA.t) (vm_info : list VM.t)
    (args : Args) (w : World) (extra : nat) :
  let fuel := S (Z.to_nat (max_move_vms args + 1) + extra) in
  fst (vmfs_ds_balancing rnd fuel na_info vm_info args w) <> OutOfFuel
  /\ exists l,
       log (snd (vmfs_ds_balancing rnd fuel na_info vm_info args w)) = log w ++ l
       /\ Z.of_nat (moves_in l) <= Z.max 0 (max_move_vms args + 1)
       /\ Forall (between_allowed
                    (derived_denylist (ds_denylist w) (max_usage_luns na_info))) l.
Proof.
  cbv zeta.
  destruct (ds_pass_effect rnd (S (Z.to_nat (max_move_vms args + 1) + extra))
              na_info vm_info args w ltac:(lia)) as (Hne & _ & l & Hl & Hm & Hall).
  split; [exact Hne |]. exists l. split; [exact Hl |]. split; [lia | exact Hall].
Qed.

Lemma no_candidate_loop (args : Args) (luns : list NALun.t) (acc : list (option nat))
    (w : World) :
  Forall (fun lun => source_candidate args lun = false) luns ->
  for_each luns acc (fun lun acc =>
      match NALun.type lun with
      | vvol => mret acc
      | vmfs =>
          if lun_name_re (hdd args) (NALun.name lun) then
            log_info (SourceLun (NALun.name lun));;
            found ← get_by_name (NALun.name lun);
            mret (acc ++ [found])
          else mret acc
      end) w
  = (Ok acc, w).
Proof.
  induction 1 as [| lun luns Hlun Hluns IH]; [reflexivity |].
  cbn [for_each]. rewrite bind_run. unfold source_candidate in Hlun.
  destruct (NALun.type lun); [exact IH |]. rewrite Hlun. exact IH.
Qed.

(** X16: when the pool-level pass finds balancing required, and no lun
    of the most used aggregate is a vmfs lun of the medium asked for, the
    pass raises [IndexError] right after the record that says so: the list
    of sources is empty, and its last element is asked for. *)
Theorem pool_pass_without_source_raises (fuel : nat) (na_info : list NA.t)
    (vm_info : list VM.t) (args : Args) (w w1 w2 : World) (ds_weight : gmap string Q)
    (max_usage_aggr : NAAggr.t) (avg_aggr_usage : Q) :
  get_aggr_and_ds_stats rnd na_info w = (Ok ds_weight, w1) ->
  get_max_usage_aggr rnd na_info w1 = (Ok (max_usage_aggr, avg_aggr_usage), w2) ->
  Qltb (of_int (NAAggr.usage max_usage_aggr))
       (add rnd avg_aggr_usage (of_int (autopilot_range args))) = false ->
  Forall (fun lun => source_candidate args lun = false) (NAAggr.luns max_usage_aggr) ->
  vmfs_aggr_balancing rnd fuel na_info vm_info args w
  = (Raise IndexError,
     set_log (log w2 ++ [ {| levelname := INFO; msg := AggrBalancingRequired |} ]) w2).
Proof.
  intros H1 H2 Hgate Hnone. unfold vmfs_aggr_balancing.
  rewrite (bind_Ok _ _ _ _ _ H1), (bind_Ok _ _ _ _ _ H2), Hgate.
  rewrite bind_run. cbn [log_info tell modify].
  unfold find_balancing_source_ds. rewrite !bind_run.
  rewrite (no_candidate_loop args _ [] _ Hnone). reflexivity.
Qed.

Lemma find_by_name_absent (ds_name : string) (l : list nat) (w : World) :
  (forall r d, r ∈ l -> heap w !! r = Some d -> DS.name d <> ds_name) ->
  find_by_name ds_name l w = (Ok None, w)
  \/ find_by_name ds_name l w = (Raise AttributeError, w).
Proof.
  induction l as [| r l IH]; intros Habs; [left; reflexivity |].
  cbn [find_by_name]. rewrite bind_run. unfold deref.
  destruct (heap w !! r) as [d |] eqn:Hd; [| right; reflexivity].
  destruct (String.eqb_spec (DS.name d) ds_name) as [Heq | _].
  - exfalso. apply (Habs r d); [left | exact Hd | exact Heq].
  - apply IH. intros r' d' Hr'. apply Habs. right. exact Hr'.
Qed.

Lemma source_keys_none (l : list (option nat)) (w : World) :
  None ∈ l -> fst (source_keys l w) = Raise AttributeError.
Proof.
  induction l as [| [r |] l IH]; intros H.
  - inversion H.
  - apply elem_of_cons in H as [H | H]; [discriminate H |].
    cbn [source_keys]. rewrite bind_run. unfold deref.
    destruct (heap w !! r) as [d |]; [| reflexivity].
    rewrite bind_run. specialize (IH H).
    destruct (source_keys l w) as [[ks | e |] w1]; cbn [fst] in IH |- *;
      [discriminate IH | exact IH | discriminate IH].
  - reflexivity.
Qed.

Lemma candidates_loop_none (args : Args) (h : list DS.t) (els : list nat)
    (luns : list NALun.t) (acc : list (option nat)) (w : World) :
  heap w = h -> elements w = els ->
  (None ∈ acc
   \/ exists lun, lun ∈ luns /\ source_candidate args lun = true
                   /\ forall r d, r ∈ els -> h !! r = Some d ->
                                   DS.name d <> NALun.name lun) ->
  let run :=
    for_each luns acc (fun lun acc =>
      match NALun.type lun with
      | vvol => mret acc
      | vmfs =>
          if lun_name_re (hdd args) (NALun.name lun) then
            log_info (SourceLun (NALun.name lun));;
            found ← get_by_name (NALun.name lun);
            mret (acc ++ [found])
          else mret acc
      end) w in
  fst run = Raise AttributeError
  \/ exists acc', fst run = Ok acc' /\ None ∈ acc'
                   /\ heap (snd run) = h /\ elements (snd run) = els.
Proof.
  cbv zeta. revert acc w. induction luns as [| lun luns IH]; intros acc w Hh He Hcase.
  - right. exists acc. destruct Hcase as [Hn | (lun & Hl & _)]; [| inversion Hl].
    repeat split; assumption.
  - cbn [for_each]. rewrite bind_run.
    assert (Hskip : source_candidate args lun = false ->
              (None ∈ acc
               \/ exists lun, lun ∈ luns /\ source_candidate args lun = true
                     /\ forall r d, r ∈ els -> h !! r = Some d ->
                                     DS.name d <> NALun.name lun)).
    { intros Hc. destruct Hcase as [Hn | (lun' & Hl & Hc' & Habs)]; [left; exact Hn |].
      apply elem_of_cons in Hl as [-> | Hl]; [congruence |].
      right. exists lun'. repeat split; assumption. }
    unfold source_candidate in Hskip at 1.
    destruct (NALun.type lun) eqn:Ht.
    + apply IH; [exact Hh | exact He | apply Hskip; reflexivity].
    + destruct (lun_name_re (hdd args) (NALun.name lun)) eqn:Hre.
      2:{ apply IH; [exact Hh | exact He | apply Hskip; reflexivity]. }
      rewrite bind_run. cbn [log_info tell modify]. rewrite bind_run.
      unfold get_by_name. rewrite bind_run. cbn [get_world elements set_log].
      set (w1 := set_log _ w).
      destruct (find_by_name (NALun.name lun) (elements w) w1) as [[found | e |] w2] eqn:Hf.
      * assert (Hw2 : w2 = w1).
        { pose proof (reads_find_by_name (NALun.name lun) (elements w) w1) as [_ Hr].
          rewrite Hf in Hr. exact Hr. }
        subst w2. cbn [mret M_ret]. apply IH; [exact Hh | exact He |].
        destruct Hcase as [Hn | (lun' & Hl & Hc' & Habs)].
        { left. apply elem_of_app. left. exact Hn. }
        apply elem_of_cons in Hl as [-> | Hl].
        -- left. apply elem_of_app. right. apply list_elem_of_singleton.
           destruct (find_by_name_absent (NALun.name lun) (elements w) w1) as [H | H].
           { intros r d Hr Hd. apply (Habs r d); [rewrite <- He; exact Hr |].
             rewrite <- Hh. exact Hd. }
           ++ rewrite Hf in H. injection H as ->. reflexivity.
           ++ rewrite Hf in H. discriminate H.
        -- right. exists lun'. repeat split; assumption.
      * left. assert (He' : e = AttributeError).
        { clear -Hf. revert Hf. generalize (elements w). intros l.
          induction l as [| r l IHl]; cbn [find_by_name]; [discriminate |].
          rewrite bind_run. unfold deref. destruct (heap w1 !! r) as [d |].
          - destruct (String.eqb (DS.name d) (NALun.name lun)); [discriminate | exact IHl].
          - intros [= <- _]. reflexivity. }
        subst e. reflexivity.
      * left. exfalso.
        pose proof (reads_find_by_name (NALun.name lun) (elements w) w1) as [Hne _].
        rewrite Hf in Hne. apply Hne. reflexivity.
Qed.

(** X17: when a vmfs lun of the medium asked for, on the most used
    aggregate, has the name of no datastore of [ds_info.elements], the
    source search raises [AttributeError]: [get_by_name] answers [None],
    which has no usage to sort by. *)
Theorem source_search_without_datastore_raises (args : Args) (max_usage_aggr : NAAggr.t)
    (w : World) (lun : NALun.t) :
  lun ∈ NAAggr.luns max_usage_aggr ->
  source_candidate args lun = true ->
  (forall r d, r ∈ elements w -> heap w !! r = Some d -> DS.name d <> NALun.name lun) ->
  fst (find_balancing_source_ds args max_usage_aggr w) = Raise AttributeError.
Proof.
  intros Hl Hc Habs. unfold find_balancing_source_ds. rewrite bind_run.
  pose proof (candidates_loop_none args (heap w) (elements w) (NAAggr.luns max_usage_aggr)
                [] w eq_refl eq_refl) as Hloop.
  cbv zeta in Hloop.
  destruct Hloop as [Hr | (acc & Hok & Hn & _)].
  { right. exists lun. repeat split; assumption. }
  - destruct (for_each _ _ _ w) as [[acc | e |] w1]; cbn [fst] in Hr;
      [discriminate Hr | injection Hr as -> | discriminate Hr]. reflexivity.
  - destruct (for_each _ _ _ w) as [[acc' | e |] w1]; cbn [fst] in Hok;
      [injection Hok as -> | discriminate Hok | discriminate Hok].
    rewrite bind_run. pose proof (source_keys_none acc w1 Hn) as Hk.
    destruct (source_keys acc w1) as [[ks | e |] w2]; cbn [fst] in Hk |- *;
      [discriminate Hk | injection Hk as -> | discriminate Hk]. reflexivity.
Qed.

(** X18: when the statistics are there and no datastore has a name of
    the vmfs pattern, the datastore-level pass logs a warning and returns,
    with [ds_info.elements] empty; it does not come to the average usage,
    which would divide by zero. *)
Theorem ds_pass_without_vmfs_datastores (fuel : nat) (na_info : list NA.t)
    (vm_info : list VM.t) (args : Args) (w w1 w2 : World) (ds_weight : gmap string Q)
    (max_usage_aggr : NAAggr.t) (avg_aggr_usage : Q) :
  get_aggr_and_ds_stats rnd na_info w = (Ok ds_weight, w1) ->
  get_max_usage_aggr rnd na_info w1 = (Ok (max_usage_aggr, avg_aggr_usage), w2) ->
  Forall (fun r => exists d, heap w2 !! r = Some d
                             /\ ds_name_regex_pattern (DS.name d) = false) (elements w2) ->
  vmfs_ds_balancing rnd fuel na_info vm_info args w
  = (Ok ReturnNone,
     set_log (log w2 ++ [ {| levelname := WARNING; msg := NoVmfsDs |} ])
       (set_elements [] w2)).
Proof.
  intros H1 H2 Hnone. unfold vmfs_ds_balancing.
  rewrite (bind_Ok _ _ _ _ _ H1), (bind_Ok _ _ _ _ _ H2).
  assert (Hv : vmfs_ds [] w2 = (Ok tt, set_elements [] w2)).
  { unfold vmfs_ds. rewrite bind_run. cbn [get_world].
    assert (Hf : filter_refs (kept_by_vmfs_ds []) (elements w2) w2 = (Ok [], w2)).
    { apply filter_refs_none. eapply Forall_impl; [exact Hnone |].
      intros r (d & Hd & Hre). exists d. split; [exact Hd |].
      unfold kept_by_vmfs_ds. rewrite Hre. reflexivity. }
    exact (bind_Ok _ _ _ _ _ Hf). }
  rewrite (bind_Ok _ _ _ _ _ Hv). reflexivity.
Qed.

(** X19: when no deny list is configured, or an empty one, neither pass
    touches [args.ds_denylist]: the names of the luns of the most used
    aggregate go to a list of the pass's own. *)
Theorem unconfigured_denylist_untouched (na_info : list NA.t) (vm_info : list VM.t)
    (args : Args) (w : World) (extra : nat) :
  truthy (ds_denylist w) = false ->
  let fuel := S (Z.to_nat (max_move_vms args + 1) + extra) in
  ds_denylist (snd (vmfs_aggr_balancing rnd fuel na_info vm_info args w)) = ds_denylist w
  /\ ds_denylist (snd (vmfs_ds_balancing rnd fuel na_info vm_info args w)) = ds_denylist w.
Proof.
  intros Hcfg. cbv zeta.
  assert (Hext : forall names, denylist_extended (ds_denylist w) names = ds_denylist w).
  { intros names. unfold denylist_extended. rewrite Hcfg. reflexivity. }
  split.
  - destruct (aggr_pass_effect rnd (S (Z.to_nat (max_move_vms args + 1) + extra))
                na_info vm_info args w ltac:(lia)) as (_ & [Hd | Hd] & _);
      [exact Hd | rewrite Hd; apply Hext].
  - destruct (ds_pass_effect rnd (S (Z.to_nat (max_move_vms args + 1) + extra))
                na_info vm_info args w ltac:(lia)) as (_ & [Hd | Hd] & _);
      [exact Hd | rewrite Hd; apply Hext].
Qed.

End PassEdges.

Lemma pool_pass_without_source_raises_witness :
  vmfs_aggr_balancing binary64 10 (inv_netapps pool_inventory) (inv_vms pool_inventory)
    hdd_args balanced_pools_world
  = (Raise IndexError,
     set_log (log (snd pool_most) ++ [ {| levelname := INFO; msg := AggrBalancingRequired |} ])
       (snd pool_most)).
Proof.
  refine (pool_pass_without_source_raises binary64 10 (inv_netapps pool_inventory)
            (inv_vms pool_inventory) hdd_args balanced_pools_world
            (snd pool_stats) (snd pool_most)
            (result_of ∅ (fst pool_stats))
            (fst (result_of (aggregate "none" 0 0 [], 0%Q) (fst pool_most)))
            (snd (result_of (aggregate "none" 0 0 [], 0%Q) (fst pool_most)))
            _ _ _ _);
    [vm_compute; reflexivity | vm_compute; reflexivity | vm_compute; reflexivity |].
  vm_compute. repeat constructor.
Defined.

Lemma source_search_without_datastore_raises_witness :
  vmfs_lun "vmfs_vc_a_0_p_ssd_bb009_001"
    ∈ NAAggr.luns (aggregate "aggr_ssd_04" 50 (GB 2000) ["vmfs_vc_a_0_p_ssd_bb009_001"])
  /\ fst (find_balancing_source_ds default_args
            (aggregate "aggr_ssd_04" 50 (GB 2000) ["vmfs_vc_a_0_p_ssd_bb009_001"])
            three_datastores)
     = Raise AttributeError.
Proof.
  assert (Hin : vmfs_lun "vmfs_vc_a_0_p_ssd_bb009_001"
                  ∈ NAAggr.luns (aggregate "aggr_ssd_04" 50 (GB 2000)
                                   ["vmfs_vc_a_0_p_ssd_bb009_001"]))
    by apply list_elem_of_here.
  split; [exact Hin |].
  apply (source_search_without_datastore_raises default_args _ three_datastores _ Hin);
    [reflexivity |].
  intros r d Hr Hd.
  change (elements three_datastores) with [0; 1; 2]%nat in Hr.
  repeat (apply elem_of_cons in Hr as [-> | Hr]);
    try (vm_compute in Hd; injection Hd as <-; discriminate).
  inversion Hr.
Defined.

Lemma ds_pass_without_vmfs_datastores_witness :
  vmfs_ds_balancing binary64 10 legacy_pools [] default_args legacy_world
  = (Ok ReturnNone,
     set_log (log (snd legacy_most) ++ [ {| levelname := WARNING; msg := NoVmfsDs |} ])
       (set_elements [] (snd legacy_most))).
Proof.
  refine (ds_pass_without_vmfs_datastores binary64 10 legacy_pools [] default_args
            legacy_world (snd legacy_stats) (snd legacy_most)
            (result_of ∅ (fst legacy_stats))
            (fst (result_of (aggregate "none" 0 0 [], 0%Q) (fst legacy_most)))
            (snd (result_of (aggregate "none" 0 0 [], 0%Q) (fst legacy_most)))
            _ _ _);
    [vm_compute; reflexivity | vm_compute; reflexivity |].
  change (elements (snd legacy_most)) with [0%nat].
  constructor; [| constructor].
  destruct (heap (snd legacy_most) !! 0%nat) as [d |] eqn:Hd;
    [| vm_compute in Hd; discriminate Hd].
  exists d. split; [reflexivity |].
  vm_compute in Hd. injection Hd as <-. reflexivity.
Defined.

Lemma unconfigured_denylist_untouched_witness :
  truthy (ds_denylist three_datastores) = false
  /\ ds_denylist (snd (vmfs_aggr_balancing binary64 10 pools_matched [volume_50]
                         default_args three_datastores))
     = ds_denylist three_datastores
  /\ ds_denylist (snd (vmfs_ds_balancing binary64 10 pools_matched [volume_50]
                         default_args three_datastores))
     = ds_denylist three_datastores.
Proof.
  split; [reflexivity |].
  exact (unconfigured_denylist_untouched binary64 pools_matched [volume_50] default_args
           three_datastores 3 eq_refl).
Defined.

(** ** The source of a pool-level pass *)

Lemma moved_from_no_decision (source : string) (r : LogRecord) :
  is_decision r = false -> moved_from source r.
Proof.
  unfold is_decision, moved_from. destruct (msg r); try (intros; exact I). discriminate.
Qed.

(** *** Computations that only log *)

Lemma keeps_ret {A : Type} (a : A) : keeps_store (mret a).
Proof. intros w. apply logged_refl. Qed.

Lemma keeps_raise {A : Type} (e : exn) : keeps_store (raise e : M A).
Proof. intros w. apply logged_refl. Qed.

Lemma keeps_lift {A : Type} (c : outcome A) : keeps_store (lift c).
Proof. intros w. apply logged_refl. Qed.

Lemma keeps_tell (l : list LogRecord) : keeps_store (tell l).
Proof. intros w. apply logged_tell. Qed.

Lemma keeps_reads {A : Type} (c : M A) : reads c -> keeps_store c.
Proof. intros H w. destruct (H w) as [_ ->]. apply logged_refl. Qed.

Lemma keeps_bind {A B : Type} (c : M A) (k : A -> M B) :
  keeps_store c -> (forall a, keeps_store (k a)) -> keeps_store (c ≫= k).
Proof.
  intros Hc Hk w. rewrite bind_run. pose proof (Hc w) as H.
  destruct (c w) as [[a | e |] w1]; cbn [fst snd] in *; [| exact H | exact H].
  eapply logged_trans; [exact H | apply Hk].
Qed.

Lemma keeps_for_each {A B : Type} (l : list A) (acc : B) (body : A -> B -> M B) :
  (forall x acc', keeps_store (body x acc')) -> keeps_store (for_each l acc body).
Proof.
  intros Hb. revert acc. induction l as [| x l IH]; intros acc.
  - apply keeps_ret.
  - cbn [for_each]. apply keeps_bind; [apply Hb | intros a; apply IH].
Qed.

Lemma keeps_run {A : Type} (c : M A) (w w' : World) (o : outcome A) :
  keeps_store c -> c w = (o, w') -> logged w w'.
Proof. intros H Hrun. pose proof (H w) as Hw. rewrite Hrun in Hw. exact Hw. Qed.

(** Breaks a goal [keeps_store c] down along the shape of [c]. *)
Ltac keeps_step :=
  lazymatch goal with
  | |- keeps_store (mbind _ _) => apply keeps_bind; [| intros ?]
  | |- keeps_store (mret _) => apply keeps_ret
  | |- keeps_store (raise _) => apply keeps_raise
  | |- keeps_store (lift _) => apply keeps_lift
  | |- keeps_store (log_info _) => apply keeps_tell
  | |- keeps_store (log_warning _) => apply keeps_tell
  | |- keeps_store (for_each _ _ _) => apply keeps_for_each; intros ? ?
  | |- keeps_store (if ?b then _ else _) => destruct b
  | |- keeps_store (match ?x with _ => _ end) => destruct x
  | |- keeps_store (let _ := _ in _) => cbv zeta
  | |- _ => solve [apply keeps_reads; eauto with calm]
  end.

Ltac keeps_auto := repeat keeps_step.

Section SingleSource.

Variable rnd : Q -> Q.

Lemma keeps_get_aggr_and_ds_stats (na_info : list NA.t) :
  keeps_store (get_aggr_and_ds_stats rnd na_info).
Proof. unfold get_aggr_and_ds_stats, stats_of_aggr, stats_of_lun. keeps_auto. Qed.

Lemma keeps_get_max_usage_aggr (na_info : list NA.t) :
  keeps_store (get_max_usage_aggr rnd na_info).
Proof. unfold get_max_usage_aggr. keeps_auto. Qed.

(** *** The source search, step by step *)

Lemma find_by_name_Ok_inv (ds_name : string) (l : list ref) (w w' : World)
    (found : option ref) :
  find_by_name ds_name l w = (Ok found, w') ->
  w' = w /\ found = fst <$> ds_named (heap w) ds_name l.
Proof.
  induction l as [| r0 l IH]; cbn [find_by_name ds_named]; intros H.
  - injection H as <- <-. split; reflexivity.
  - apply bind_Ok_inv in H as (d & w1 & Hd & H).
    apply deref_Ok_inv in Hd as [Hd ->]. rewrite Hd.
    destruct (String.eqb (DS.name d) ds_name).
    + injection H as <- <-. split; reflexivity.
    + exact (IH H).
Qed.

Lemma get_by_name_Ok_inv (ds_name : string) (w w' : World) (found : option ref) :
  get_by_name ds_name w = (Ok found, w') ->
  w' = w /\ found = fst <$> ds_named (heap w) ds_name (elements w).
Proof.
  unfold get_by_name. rewrite bind_run. cbn [get_world]. apply find_by_name_Ok_inv.
Qed.

Lemma source_luns_Ok (args : Args) (luns : list NALun.t) (acc found : list (option ref))
    (w w' : World) :
  for_each luns acc (fun lun acc =>
    match NALun.type lun with
    | vvol => mret acc
    | vmfs =>
        if lun_name_re (hdd args) (NALun.name lun) then
          log_info (SourceLun (NALun.name lun));;
          found ← get_by_name (NALun.name lun);
          mret (acc ++ [found])
        else mret acc
    end) w = (Ok found, w') ->
  logged w w'
  /\ found = acc ++ map (fun lun => fst <$> ds_named (heap w) (NALun.name lun) (elements w))
                        (filter (fun lun => source_candidate args lun = true) luns).
Proof.
  revert acc w. induction luns as [| lun luns IH]; intros acc w H; cbn [for_each] in H.
  - injection H as <- <-. split; [apply logged_refl |]. rewrite app_nil_r. reflexivity.
  - apply bind_Ok_inv in H as (acc1 & w1 & Hbody & H).
    apply IH in H as [Hlog ->]. rewrite filter_cons.
    destruct (source_candidate args lun) eqn:Hc; unfold source_candidate in Hc.
    + destruct (NALun.type lun); [discriminate Hc |]. rewrite Hc in Hbody.
      apply bind_Ok_inv in Hbody as ([] & w2 & Ht & Hbody).
      apply bind_Ok_inv in Hbody as (o & w3 & Hget & Hbody).
      injection Hbody as <- <-.
      apply get_by_name_Ok_inv in Hget as [-> ->].
      assert (Hw2 : logged w w2) by (eapply keeps_run; [apply keeps_tell | exact Ht]).
      destruct (logged_store _ _ Hw2) as (Hh2 & He2 & _).
      rewrite decide_True by reflexivity.
      split; [eapply logged_trans; eassumption |].
      rewrite Hh2, He2. cbn [map]. rewrite <- app_assoc. reflexivity.
    + rewrite decide_False by discriminate.
      assert (Hsame : acc1 = acc /\ w1 = w).
      { destruct (NALun.type lun); [| rewrite Hc in Hbody];
          injection Hbody as <- <-; split; reflexivity. }
      destruct Hsame as [-> ->]. split; [exact Hlog | reflexivity].
Qed.

Lemma source_keys_Ok_inv (l : list (option ref)) (w w' : World)
    (keyed : list (ref * DS.t)) :
  source_keys l w = (Ok keyed, w') ->
  w' = w
  /\ l = map (fun rd => Some (fst rd)) keyed
  /\ Forall (fun rd => heap w !! fst rd = Some (snd rd)) keyed.
Proof.
  revert keyed w'. induction l as [| [r |] l IH]; intros keyed w' H; cbn [source_keys] in H.
  - injection H as <- <-. split; [reflexivity |]. split; [reflexivity | apply Forall_nil; trivial].
  - apply bind_Ok_inv in H as (d & w1 & Hd & H).
    apply deref_Ok_inv in Hd as [Hd ->].
    apply bind_Ok_inv in H as (rest & w2 & Hrest & H).
    injection H as <- <-. destruct (IH _ _ Hrest) as (-> & Hl & Hall).
    split; [reflexivity |]. split; [cbn; rewrite <- Hl; reflexivity |].
    apply Forall_cons. split; [exact Hd | exact Hall].
  - discriminate H.
Qed.

(** What the search has found when it returns: the sorted datastores that
    [get_by_name] finds for the candidate luns, each with its object. *)
Lemma find_balancing_source_ds_Ok_inv (args : Args) (max_usage_aggr : NAAggr.t)
    (w w' : World) (sources : list ref) :
  find_balancing_source_ds args max_usage_aggr w = (Ok sources, w') ->
  logged w w'
  /\ exists keyed,
       sources = map fst (sorted Qle_bool (fun rd => DS.usage (snd rd)) keyed)
       /\ map Some keyed
          = map (fun lun => ds_named (heap w) (NALun.name lun) (elements w))
                (filter (fun lun => source_candidate args lun = true)
                        (NAAggr.luns max_usage_aggr)).
Proof.
  unfold find_balancing_source_ds. intros H.
  apply bind_Ok_inv in H as (found & w1 & Hloop & H).
  apply bind_Ok_inv in H as (keyed & w2 & Hkeys & H).
  injection H as <- <-.
  apply source_luns_Ok in Hloop as [Hlog Hfound]. cbn [app] in Hfound.
  apply source_keys_Ok_inv in Hkeys as (-> & Hl & Hall).
  destruct (logged_store _ _ Hlog) as (Hh & _ & _). rewrite Hh in Hall.
  split; [exact Hlog |]. exists keyed. split; [reflexivity |].
  rewrite Hfound in Hl. clear Hfound.
  revert keyed Hl Hall.
  induction (filter (fun lun => source_candidate args lun = true) (NAAggr.luns max_usage_aggr))
    as [| lun luns IH]; intros keyed Hl Hall.
  - destruct keyed; [reflexivity | discriminate Hl].
  - destruct keyed as [| [r d] keyed]; [discriminate Hl |].
    cbn [map fst] in Hl. injection Hl as Hr Hl.
    apply Forall_cons in Hall as [Hd Hall]. cbn [fst snd] in Hd.
    cbn [map]. rewrite <- (IH keyed Hl Hall). f_equal.
    destruct (ds_named (heap w) (NALun.name lun) (elements w)) as [[r' d'] |] eqn:Hn;
      [| discriminate Hr].
    cbn in Hr. injection Hr as ->.
    apply ds_named_Some in Hn as (_ & Hd' & _). rewrite Hd in Hd'. injection Hd' as <-.
    reflexivity.
Qed.

Lemma max_usage_aggr_of_most (na_info : list NA.t) (aggr : NAAggr.t) :
  max_usage_aggr_of na_info = Some aggr ->
  exists before after,
    all_aggregates na_info = before ++ aggr :: after
    /\ (forall a, a ∈ before -> NAAggr.usage a <= NAAggr.usage aggr)
    /\ (forall a, a ∈ after -> NAAggr.usage a < NAAggr.usage aggr).
Proof.
  unfold max_usage_aggr_of. intros H.
  apply (sorted_last Z.leb NAAggr.usage Zleb_total Zleb_trans) in H
    as (l1 & l2 & Hl & H1 & H2).
  exists l1, l2. split; [exact Hl |]. split.
  - intros a Ha. apply Z.leb_le, H1, Ha.
  - intros a Ha. apply Z.leb_gt, H2, Ha.
Qed.

(** The last of the sources found is the most used of them. *)
Lemma last_source_most_used (na_info : list NA.t) (args : Args)
    (max_usage_aggr : NAAggr.t) (w w' : World) (sources : list ref) (source : ref) :
  max_usage_aggr_of na_info = Some max_usage_aggr ->
  find_balancing_source_ds args max_usage_aggr w = (Ok sources, w') ->
  last_item sources = Ok source ->
  exists d, heap w !! source = Some d /\ most_used_source na_info args w (DS.name d).
Proof.
  intros Hmax Hfind Hlast.
  apply find_balancing_source_ds_Ok_inv in Hfind as (_ & keyed & -> & Hkeyed).
  unfold last_item in Hlast.
  rewrite fmap_last in Hlast.
  destruct (last (sorted _ _ keyed)) as [[r d] |] eqn:Hl; [| discriminate Hlast].
  cbn in Hlast. injection Hlast as ->.
  apply (sorted_last Qle_bool _ Qle_bool_total Qle_bool_trans) in Hl
    as (l1 & l2 & -> & H1 & H2).
  assert (Hin : forall rd, rd ∈ l1 ++ (source, d) :: l2 ->
            exists lun, lun ∈ NAAggr.luns max_usage_aggr
                        /\ source_candidate args lun = true
                        /\ ds_named (heap w) (NALun.name lun) (elements w) = Some rd).
  { intros rd Hrd.
    assert (H : Some rd ∈ map Some (l1 ++ (source, d) :: l2))
      by (apply list_elem_of_fmap; exists rd; split; [reflexivity | exact Hrd]).
    rewrite Hkeyed in H. apply list_elem_of_fmap in H as (lun & Hn & Hlun).
    apply list_elem_of_filter in Hlun as [Hc Hlun].
    exists lun. split; [exact Hlun |]. split; [exact Hc | symmetry; exact Hn]. }
  destruct (Hin (source, d)) as (lun & Hlun & Hc & Hn);
    [apply elem_of_app; right; apply list_elem_of_here |].
  pose proof (ds_named_Some _ _ _ _ _ Hn) as (_ & Hd & Hname).
  exists d. split; [exact Hd |].
  destruct (max_usage_aggr_of_most _ _ Hmax) as (before & after & Hall & Hb & Ha).
  exists max_usage_aggr, before, after, lun, source, d.
  split; [exact Hall |]. split; [exact Hb |]. split; [exact Ha |].
  split; [exact Hlun |]. split; [exact Hc |]. split; [symmetry; exact Hname |].
  split; [rewrite Hname; exact Hn |].
  intros lun' r' d' Hlun' Hc' Hn'.
  assert (H : Some (r', d') ∈ map Some (l1 ++ (source, d) :: l2)).
  { rewrite Hkeyed, <- Hn'. apply list_elem_of_fmap. exists lun'.
    split; [reflexivity |]. apply list_elem_of_filter. split; assumption. }
  apply list_elem_of_fmap in H as (rd & Hrd & H). injection Hrd as <-.
  apply elem_of_app in H as [H | H].
  - apply H1 in H. cbn [snd] in H. apply Qle_bool_iff, H.
  - apply elem_of_cons in H as [H | H].
    + injection H as _ ->. apply Qle_refl.
    + apply H2 in H. cbn [snd] in H.
      destruct (Qle_bool_total (DS.usage d) (DS.usage d')) as [Ht | Ht];
        [rewrite Ht in H; discriminate H | apply Qle_bool_iff, Ht].
Qed.

Lemma aggr_pass_source (fuel : nat) (na_info : list NA.t) (vm_info : list VM.t)
    (args : Args) (w : World) :
  (Z.to_nat (max_move_vms args + 1) < fuel)%nat ->
  exists source,
    pass_effect (Z.to_nat (max_move_vms args + 1))
      (fun r => moved_from source r
                /\ (is_decision r = true -> most_used_source na_info args w source))
      (max_usage_luns na_info) w
      (fst (vmfs_aggr_balancing rnd fuel na_info vm_info args w))
      (snd (vmfs_aggr_balancing rnd fuel na_info vm_info args w)).
Proof.
  intros Hfuel.
  set (names := max_usage_luns na_info).
  set (bound := Z.to_nat (max_move_vms args + 1)).
  set (good := fun (source : string) (r : LogRecord) =>
                 moved_from source r
                 /\ (is_decision r = true -> most_used_source na_info args w source)).
  set (P := fun (o : outcome retval) (w' : World) =>
              exists source, pass_effect bound (good source) names w o w').
  change (P (fst (vmfs_aggr_balancing rnd fuel na_info vm_info args w))
            (snd (vmfs_aggr_balancing rnd fuel na_info vm_info args w))).
  assert (Hq : forall source r, is_decision r = false -> good source r).
  { intros source r Hr. split; [apply moved_from_no_decision; exact Hr |].
    rewrite Hr. discriminate. }
  assert (Hfail : forall e w1, calmly w w1 -> P (Raise e) w1).
  { intros e w1 Hc. exists EmptyString.
    apply pass_effect_calm; [apply Hq | exact Hc | discriminate]. }
  unfold vmfs_aggr_balancing.
  apply (step_calm P _ _ w);
    [exact Hfail | apply calm_get_aggr_and_ds_stats | apply calmly_refl |].
  intros ds_weight w1 Hstats Hc1.
  apply (keeps_run _ _ _ _ (keeps_get_aggr_and_ds_stats na_info)) in Hstats.
  apply (step_calm P _ _ w); [exact Hfail | apply calm_get_max_usage_aggr | exact Hc1 |].
  intros [max_usage_aggr avg] w2 Hmax Hc2.
  pose proof (keeps_run _ _ _ _ (keeps_get_max_usage_aggr na_info) Hmax) as Hw2.
  apply get_max_usage_aggr_Ok in Hmax.
  assert (Hnames : names = map NALun.name (NAAggr.luns max_usage_aggr))
    by (unfold names, max_usage_luns; rewrite Hmax; reflexivity).
  cbv beta iota zeta.
  destruct (Qltb _ _).
  { exists EmptyString. apply pass_effect_of_calm; [apply Hq | calm_auto | exact Hc2]. }
  apply (step_calm P _ _ w); [exact Hfail | calm_auto | exact Hc2 |]. intros [] w3 Hw3 Hc3.
  apply (keeps_run _ _ _ _ (keeps_tell _)) in Hw3.
  assert (Hlog3 : logged w w3).
  { eapply logged_trans; [exact Hstats |]. eapply logged_trans; eassumption. }
  destruct (logged_store _ _ Hlog3) as (Hh3 & He3 & _).
  apply (step_calm P _ _ w);
    [exact Hfail | apply calm_find_balancing_source_ds | exact Hc3 |].
  intros sources w4 Hsrc Hc4.
  apply (step_calm P _ _ w); [exact Hfail | calm_auto | exact Hc4 |].
  intros source w5 Hlast Hc5.
  apply lift_run in Hlast. destruct Hlast as [Hlast ->].
  destruct (last_source_most_used _ _ _ _ _ _ _ Hmax Hsrc Hlast) as (d & Hd & Hmost).
  unfold most_used_source in Hmost. rewrite Hh3 in Hd. rewrite Hh3, He3 in Hmost.
  fold (most_used_source na_info args w (DS.name d)) in Hmost.
  apply names_lookup in Hd.
  apply (step_calm P _ _ w); [exact Hfail | calm_auto | exact Hc5 |]. intros [] w6 _ Hc6.
  apply (step_calm P _ _ w); [exact Hfail | calm_auto | exact Hc6 |]. intros [] w7 _ Hc7.
  apply (step_calm P _ _ w); [exact Hfail | calm_auto | exact Hc7 |]. intros w7' w8 _ Hc8.
  destruct (elements w7') as [| r0 els].
  { exists EmptyString. apply pass_effect_of_calm; [apply Hq | calm_auto | exact Hc8]. }
  rewrite bind_run.
  destruct (prepare_pass_effect rnd vm_info args max_usage_aggr w8)
    as (Hne & Hquiet & Hdl & Hok).
  rewrite <- Hnames in Hdl, Hok.
  destruct Hc8 as [Hq8 Hd8]. rewrite Hd8 in Hdl, Hok.
  assert (Hq9 : quietly w (snd (prepare_pass rnd vm_info args max_usage_aggr w8)))
    by (eapply quietly_trans; eassumption).
  destruct (prepare_pass rnd vm_info args max_usage_aggr w8) as [[avg' | e |] w9] eqn:Hrun;
    cbn [fst snd] in *; [| | contradiction].
  - destruct (Hok avg' eq_refl) as [Hdl9 Hels]. exists (DS.name d).
    apply (pass_effect_of_loop bound (good (DS.name d)) names (fun _ x => x = source)).
    + exact Hq9.
    + exact Hdl9.
    + apply aggr_loop_effect. exact Hfuel.
    + apply Hq.
    + intros x Hx _. split; [| intros _; exact Hmost].
      unfold moved_from. unfold move_between in Hx.
      destruct (msg x); try exact I.
      destruct Hx as (src & tgt & -> & Htgt & Hs & Ht).
      destruct Hq9 as (Hn9 & _). rewrite Hn9 in Hs.
      rewrite Hd in Hs. injection Hs as <-. reflexivity.
  - exists EmptyString.
    apply pass_effect_quiet; [apply Hq | exact Hq9 | exact Hdl | discriminate].
Qed.

(** X20: all moves of one pool-level pass leave the same datastore: the
    source is chosen once, before the loop, and the loop does not choose
    again.  When the pass logs a decision, this source is the most used
    datastore that [get_by_name] finds, in the world the pass starts
    from, for a vmfs lun of the wanted medium of the most used
    aggregate. *)
Theorem pool_pass_single_source (na_info : list NA.t) (vm_info : list VM.t)
    (args : Args) (w : World) (extra : nat) :
  let fuel := S (Z.to_nat (max_move_vms args + 1) + extra) in
  exists source l,
    log (snd (vmfs_aggr_balancing rnd fuel na_info vm_info args w)) = log w ++ l
    /\ Forall (moved_from source) l
    /\ ((exists r, r ∈ l /\ is_decision r = true) ->
        most_used_source na_info args w source).
Proof.
  cbv zeta.
  destruct (aggr_pass_source (S (Z.to_nat (max_move_vms args + 1) + extra))
              na_info vm_info args w ltac:(lia)) as (source & _ & _ & l & Hl & _ & Hall).
  exists source, l. split; [exact Hl |]. rewrite Forall_forall in Hall. split.
  - apply Forall_forall. intros r Hr. apply Hall, Hr.
  - intros (r & Hr & Hd). exact (proj2 (Hall r Hr) Hd).
Qed.

End SingleSource.

(** On the inventory of the pool-level pass both moves leave the
    datastore 001. *)
Example pool_pass_moves_from_001 :
  Forall (moved_from ds_001) (log (snd pool_pass_run))
  /\ moves_in (log (snd pool_pass_run)) = 2%nat.
Proof.
  split; [| vm_compute; reflexivity].
  apply Forall_forall. intros r Hr.
  unfold moved_from. destruct (msg r) eqn:Hm; try exact I.
  assert (Hin : (vm, source, target) ∈ moves_of (log (snd pool_pass_run))).
  { unfold moves_of. apply list_elem_of_omap. exists r. split; [exact Hr |].
    rewrite Hm. reflexivity. }
  vm_compute in Hin.
  repeat (apply elem_of_cons in Hin as [Hin | Hin]; [injection Hin as _ -> _; reflexivity |]).
  inversion Hin.
Qed.

(** On that inventory the datastores are 90%, 50%, 40% and 70% used; the
    most used pool backs the first and the last of them, and the first is
    the source. *)
Example pool_pass_source_is_most_used :
  map DS.usage (heap balanced_pools_world) = [90; 50; 40; 70]%Q
  /\ most_used_source (inv_netapps pool_inventory) default_args balanced_pools_world ds_001.
Proof.
  split; [vm_compute; reflexivity |].
  exists (aggregate "aggr_ssd_01" 80 (GB 1000) [ds_001; ds_004]), [],
         [aggregate "aggr_ssd_02" 40 (GB 3000) [ds_002; ds_003]], (vmfs_lun ds_001), 0%nat,
         (built_from binary64 (datastore ds_001 (GB 100) (GB 1000) [7%nat; 8%nat] 1%nat)).
  split; [reflexivity |]. split; [intros a Ha; inversion Ha |]. split.
  { intros a Ha. apply list_elem_of_singleton in Ha as ->. vm_compute. reflexivity. }
  split; [apply list_elem_of_here |]. split; [vm_compute; reflexivity |].
  split; [reflexivity |]. split; [vm_compute; reflexivity |].
  intros lun' r' d' Hlun _ Hn.
  change (NAAggr.luns (aggregate "aggr_ssd_01" 80 (GB 1000) [ds_001; ds_004]))
    with [vmfs_lun ds_001; vmfs_lun ds_004] in Hlun.
  apply elem_of_cons in Hlun as [-> | Hlun]; [| apply list_elem_of_singleton in Hlun as ->];
    vm_compute in Hn; injection Hn as <- <-; vm_compute; discriminate.
Qed.

(** ** What a turn of a balancing loop chooses *)

Lemma min_le_l (a b : Q) : (Py.min a b <= a)%Q.
Proof.
  unfold Py.min, Qltb. destruct (Qle_bool a b) eqn:E; cbn [negb].
  - apply Qle_refl.
  - apply Qlt_le_weak, Qnot_le_lt. intros H. apply Qle_bool_iff in H. congruence.
Qed.

Lemma min_le_r (a b : Q) : (Py.min a b <= b)%Q.
Proof.
  unfold Py.min, Qltb. destruct (Qle_bool a b) eqn:E; cbn [negb].
  - apply Qle_bool_iff, E.
  - apply Qle_refl.
Qed.

Section SortRun.

Variable rnd : Q -> Q.

Lemma sort_by_usage_Ok_inv (ds_weight : gmap string Q) (w w' : World) :
  sort_by_usage rnd ds_weight w = (Ok tt, w') ->
  exists l,
    w' = set_elements l w
    /\ l ≡ₚ elements w
    /\ StronglySorted
         (fun r1 r2 => forall d1 d2,
            heap w !! r1 = Some d1 -> heap w !! r2 = Some d2 ->
            (weighted_usage rnd ds_weight d2 <= weighted_usage rnd ds_weight d1)%Q) l.
Proof.
  unfold sort_by_usage. rewrite bind_run. cbn [get_world]. intros H.
  apply bind_Ok_inv in H as (ds & w1 & Hrun & H).
  apply deref_all_Ok in Hrun as (-> & Hfst & Hds).
  cbn [modify] in H. injection H as <-.
  eexists. split; [reflexivity |]. split.
  - rewrite <- Hfst. apply fmap_Permutation, sorted_reverse_perm.
  - apply (ordered_refs (fun d1 d2 =>
             (weighted_usage rnd ds_weight d2 <= weighted_usage rnd ds_weight d1)%Q)).
    + eapply Forall_forall. intros rd Hrd. rewrite Forall_forall in Hds. apply Hds.
      eapply elem_of_Permutation_proper; [| exact Hrd].
      symmetry. apply (sorted_reverse_perm Qle_bool).
    + eapply ordered_impl;
        [| apply (sorted_reverse_ordered Qle_bool _ Qle_bool_total Qle_bool_trans)].
      intros a b H. cbv beta in H. apply Qle_bool_iff in H. exact H.
Qed.

(** The last of a list that goes down is not above any of the list. *)
Lemma last_of_ordered {A : Type} (R : A -> A -> Prop) (l : list A) (z : A) :
  (forall x, R x x) ->
  StronglySorted R l -> last l = Some z -> forall x, x ∈ l -> R x z.
Proof.
  intros Hrefl Hs Hl x Hx. apply last_Some in Hl as [l' ->].
  apply elem_of_app in Hx as [Hx | Hx].
  - clear -Hs Hx. induction l' as [| y l' IH]; [inversion Hx |].
    cbn in Hs. inversion Hs as [| ? ? Hs' Hall]; subst.
    apply elem_of_cons in Hx as [-> | Hx].
    + rewrite Forall_forall in Hall. apply Hall, elem_of_app.
      right. apply list_elem_of_here.
    + apply IH; assumption.
  - apply list_elem_of_singleton in Hx as ->. apply Hrefl.
Qed.

End SortRun.

Section StepChoice.

Variable rnd : Q -> Q.

Lemma get_shadow_vms_Ok_inv (vm_info : list VM.t) (hs : list nat) (w w' : World)
    (shadow_vms : list VM.t) :
  get_shadow_vms vm_info hs w = (Ok shadow_vms, w') ->
  (exists warnings, w' = set_log (log w ++ warnings) w
                    /\ Forall (fun r => levelname r = WARNING) warnings)
  /\ forall vm, vm ∈ shadow_vms <->
       vm ∈ vm_info /\ VM.handle vm ∈ hs /\ fst (VM.is_shadow_vm vm) = true.
Proof.
  unfold get_shadow_vms. rewrite bind_run. cbn [tell modify]. unfold mret, M_ret.
  intros [= <- <-]. split.
  - eexists. split; [reflexivity |].
    apply Forall_forall. intros r Hr. apply list_elem_of_In, in_flat_map in Hr.
    destruct Hr as (vm & _ & Hr). unfold VM.is_shadow_vm in Hr.
    repeat case_match; cbn in Hr; destruct Hr as [<- | []] || destruct Hr; reflexivity.
  - intros vm. rewrite !list_elem_of_filter. tauto.
Qed.

(** What a move between two different datastores leaves behind, told by
    the objects before and after it. *)
Lemma move_Ok_between (ds1 ds2 : nat) (vm : VM.t) (w w' : World) (d1 d2 : DS.t) :
  move_shadow_vm_from_ds_to_ds rnd ds1 ds2 vm w = (Ok tt, w') ->
  heap w !! ds1 = Some d1 ->
  heap w !! ds2 = Some d2 ->
  elements w' = elements w
  /\ ds_denylist w' = ds_denylist w
  /\ (forall r, r <> ds1 -> r <> ds2 -> heap w' !! r = heap w !! r)
  /\ (exists u1 u2 u3 u4,
        log w' = log w
                 ++ decision_records (VM.name vm)
                      (div_const rnd (of_int (VM.get_total_disksize vm)) GiB)
                      (DS.name d1) (DS.name d2) u1 u2 u3 u4)
  /\ (ds1 <> ds2 ->
      exists d1' d2',
        heap w' !! ds1 = Some d1' /\ heap w' !! ds2 = Some d2'
        /\ DS.freespace d1' = DS.freespace d1 + VM.get_total_disksize vm
        /\ DS.freespace d2' = DS.freespace d2 - VM.get_total_disksize vm
        /\ DS.capacity d1' = DS.capacity d1 /\ DS.capacity d2' = DS.capacity d2
        /\ DS.usage d1' = usage_value rnd (DS.freespace d1') (DS.capacity d1')
        /\ DS.usage d2' = usage_value rnd (DS.freespace d2') (DS.capacity d2')
        /\ DS.vm_handles d1' ++ [VM.handle vm] ≡ₚ DS.vm_handles d1
        /\ DS.vm_handles d2' = DS.vm_handles d2 ++ [VM.handle vm]).
Proof.
  intros Hm Hd1 Hd2.
  destruct (move_Ok_inv rnd _ _ _ _ _ Hm)
    as (e1 & hs & u1 & e2 & u2 & He1 & Hhs & Hu1 & He2 & Hu2 & Hheap & Hels & Hdl & Hlog).
  rewrite Hd1 in He1. injection He1 as <-.
  assert (Hl1 : (ds1 < length (heap w))%nat) by (eapply lookup_lt_Some; eassumption).
  assert (Hl2 : (ds2 < length (heap w))%nat) by (eapply lookup_lt_Some; eassumption).
  assert (Hn2 : DS.name e2 = DS.name d2).
  { destruct (decide (ds1 = ds2)) as [<- | Hne].
    - rewrite list_lookup_insert_eq in He2 by exact Hl1. injection He2 as <-.
      rewrite Hd1 in Hd2. injection Hd2 as <-. reflexivity.
    - rewrite list_lookup_insert_ne in He2 by exact Hne.
      rewrite Hd2 in He2. injection He2 as <-. reflexivity. }
  split; [exact Hels |]. split; [exact Hdl |]. split; [| split].
  - intros r Hr1 Hr2. rewrite Hheap. rewrite !list_lookup_insert_ne by congruence.
    reflexivity.
  - exists (DS.usage d1), u1, (DS.usage e2), u2. rewrite Hlog, Hn2. reflexivity.
  - intros Hne. rewrite list_lookup_insert_ne in He2 by exact Hne.
    rewrite Hd2 in He2. injection He2 as <-.
    apply usage_of_Ok_inv in Hu1 as [_ ->]. apply usage_of_Ok_inv in Hu2 as [_ ->].
    eexists _, _. split; [| split].
    + rewrite Hheap, list_lookup_insert_ne by (intros H; apply Hne; symmetry; exact H).
      apply list_lookup_insert_eq. exact Hl1.
    + rewrite Hheap. apply list_lookup_insert_eq. rewrite length_insert. exact Hl2.
    + cbn. repeat (split; [reflexivity |]). split; [| reflexivity].
      apply list_remove_perm in Hhs. rewrite Hhs. symmetry. apply Permutation_cons_append.
Qed.

Lemma least_used_is_minimal (ds_weight : gmap string Q) (w w1 : World) (target : nat) :
  sort_by_usage rnd ds_weight w = (Ok tt, w1) ->
  last_item (elements w1) = Ok target ->
  heap w1 = heap w
  /\ target ∈ elements w
  /\ forall r d tgt_d, r ∈ elements w -> heap w !! r = Some d ->
       heap w !! target = Some tgt_d ->
       (weighted_usage rnd ds_weight tgt_d <= weighted_usage rnd ds_weight d)%Q.
Proof.
  intros Hsort Hlast. apply sort_by_usage_Ok_inv in Hsort as (l & -> & Hperm & Hsorted).
  cbn [elements set_elements heap] in *. split; [reflexivity |].
  unfold last_item in Hlast. destruct (last l) as [z |] eqn:Hl; [| discriminate Hlast].
  injection Hlast as ->. split.
  - rewrite <- Hperm. apply last_Some in Hl as [l' ->]. apply elem_of_app. right.
    apply list_elem_of_here.
  - intros r d tgt_d Hr Hd Ht. rewrite <- Hperm in Hr.
    refine (last_of_ordered _ l target _ Hsorted Hl r Hr d tgt_d Hd Ht).
    intros x d1 d2 H1 H2. rewrite H1 in H2. injection H2 as <-. apply Qle_refl.
Qed.

Lemma largest_of_sorted (vms : list VM.t) (largest : VM.t) :
  first_item (sort_vms_by_total_disksize vms) = Ok largest ->
  largest ∈ vms
  /\ forall vm, vm ∈ vms -> VM.get_total_disksize vm <= VM.get_total_disksize largest.
Proof.
  unfold sort_vms_by_total_disksize. intros H. split.
  - apply first_item_elem in H.
    apply (proj1 (sorted_reverse_elem Z.leb VM.get_total_disksize _ _)), H.
  - destruct (sorted_reverse Z.leb VM.get_total_disksize vms) as [| z rest] eqn:Hs;
      [discriminate H |].
    injection H as ->.
    destruct (sorted_reverse_first Z.leb VM.get_total_disksize Zleb_total Zleb_trans _ _ _ Hs)
      as (l1 & l2 & -> & H1 & H2).
    intros vm Hvm. apply elem_of_app in Hvm as [Hvm | Hvm].
    + apply H1 in Hvm. apply Z.leb_gt in Hvm. lia.
    + apply elem_of_cons in Hvm as [-> | Hvm]; [lia |]. apply Z.leb_le, H2, Hvm.
Qed.

(** X21: a turn of the loop of the pool-level pass that goes on has moved
    one vm from the source to a target.  Before the turn: the vm is a
    shadow vm of [vm_info] on the source, whose size in GiB is within
    [aggr_volume_min_size] and [aggr_volume_max_size] and not above the
    free space of the target beyond [min_freespace], and the largest of
    these; the target is a datastore of [ds_info.elements] of the least
    weighted usage; the cap was not passed.  After the turn: the counts
    are up by one move and by the size of the vm; the log has grown by
    warnings of the search for shadow vms and then by the three records
    of the move of this vm from the source to the target;
    [ds_info.elements] holds the same datastores, [args.ds_denylist] is
    the same and every other datastore is as it was; and, for a target
    other than the source, the source has lost the vm and gained its size
    as free space, the target has got the vm as its last one and lost its
    size, and both usages are those of the new free space. *)
Theorem pool_turn_choice (vm_info : list VM.t) (args : Args) (ds_weight : gmap string Q)
    (size_to_free_on_max_used_aggr : Q) (source : nat) (ds_overall_average_usage : Q)
    (moves_done moved_size : Z) (w w' : World) (vars' : Z * Z) :
  aggr_balancing_step rnd vm_info args ds_weight size_to_free_on_max_used_aggr source
    ds_overall_average_usage (moves_done, moved_size) w
  = (Ok (Continue vars'), w') ->
  exists vm target src_d tgt_d,
    moves_done <= max_move_vms args
    /\ vars' = (moves_done + 1, moved_size + VM.get_total_disksize vm)
    /\ heap w !! source = Some src_d
    /\ heap w !! target = Some tgt_d
    /\ target ∈ elements w
    /\ (forall r d, r ∈ elements w -> heap w !! r = Some d ->
          (weighted_usage rnd ds_weight tgt_d <= weighted_usage rnd ds_weight d)%Q)
    /\ vm ∈ vm_info
    /\ VM.handle vm ∈ DS.vm_handles src_d
    /\ fst (VM.is_shadow_vm vm) = true
    /\ (of_int (aggr_volume_min_size args)
        <= div_const rnd (of_int (VM.get_total_disksize vm)) GiB)%Q
    /\ (div_const rnd (of_int (VM.get_total_disksize vm)) GiB
        <= of_int (aggr_volume_max_size args))%Q
    /\ (div_const rnd (of_int (VM.get_total_disksize vm)) GiB
        <= div_const rnd (of_int (DS.freespace tgt_d - min_freespace args * GiB)) GiB)%Q
    /\ (forall vm',
          vm' ∈ vm_info -> VM.handle vm' ∈ DS.vm_handles src_d ->
          fst (VM.is_shadow_vm vm') = true ->
          aggr_movable rnd args (DS.freespace tgt_d - min_freespace args * GiB) vm' = true ->
          VM.get_total_disksize vm' <= VM.get_total_disksize vm)
    /\ elements w' ≡ₚ elements w
    /\ ds_denylist w' = ds_denylist w
    /\ (forall r, r <> source -> r <> target -> heap w' !! r = heap w !! r)
    /\ (exists warnings u1 u2 u3 u4,
          Forall (fun r => levelname r = WARNING) warnings
          /\ log w' = log w ++ warnings
                      ++ decision_records (VM.name vm)
                           (div_const rnd (of_int (VM.get_total_disksize vm)) GiB)
                           (DS.name src_d) (DS.name tgt_d) u1 u2 u3 u4)
    /\ (source <> target ->
        exists src_d' tgt_d',
          heap w' !! source = Some src_d' /\ heap w' !! target = Some tgt_d'
          /\ DS.freespace src_d' = DS.freespace src_d + VM.get_total_disksize vm
          /\ DS.freespace tgt_d' = DS.freespace tgt_d - VM.get_total_disksize vm
          /\ DS.capacity src_d' = DS.capacity src_d
          /\ DS.capacity tgt_d' = DS.capacity tgt_d
          /\ DS.usage src_d' = usage_value rnd (DS.freespace src_d') (DS.capacity src_d')
          /\ DS.usage tgt_d' = usage_value rnd (DS.freespace tgt_d') (DS.capacity tgt_d')
          /\ DS.vm_handles src_d' ++ [VM.handle vm] ≡ₚ DS.vm_handles src_d
          /\ DS.vm_handles tgt_d' = DS.vm_handles tgt_d ++ [VM.handle vm]).
Proof.
  unfold aggr_balancing_step. cbn [fst snd]. intros H.
  destruct (max_move_vms args <? moves_done) eqn:E1; [discriminate H |].
  destruct (Qltb size_to_free_on_max_used_aggr (of_int moved_size)); [discriminate H |].
  apply bind_Ok_inv in H as (src_d & w0 & Hsrc & H).
  apply deref_Ok_inv in Hsrc as [Hsrc ->].
  destruct (Qltb (DS.usage src_d) _); [discriminate H |].
  apply bind_Ok_inv in H as ([] & w1 & Hsort & H).
  apply bind_Ok_inv in H as (w1' & w2 & Hg & H). apply get_world_run in Hg as [-> ->].
  apply bind_Ok_inv in H as (target & w3 & Hlast & H). apply lift_run in Hlast as [Hlast ->].
  destruct (least_used_is_minimal _ _ _ _ Hsort Hlast) as (Hheap & Htin & Hmin).
  apply sort_by_usage_Ok_inv in Hsort as (l1 & -> & Hperm1 & _).
  apply bind_Ok_inv in H as (tgt_d & w4 & Htgt & H).
  apply deref_Ok_inv in Htgt as [Htgt ->]. rewrite Hheap in Htgt.
  apply bind_Ok_inv in H as (shadow_vms & w5 & Hsh & H).
  apply get_shadow_vms_Ok_inv in Hsh as ((warnings & -> & Hwarn) & Hshadow).
  destruct (filter _ shadow_vms) as [| vm0 vms] eqn:Hf; [discriminate H |].
  apply bind_Ok_inv in H as (vm & w6 & Hfirst & H). apply lift_run in Hfirst as [Hfirst ->].
  apply largest_of_sorted in Hfirst as [Hfirst Hlargest].
  rewrite <- Hf in Hfirst, Hlargest. apply list_elem_of_filter in Hfirst as [Hmov Hvm].
  apply bind_Ok_inv in H as ([] & w7 & Hmove & H).
  apply bind_Ok_inv in H as ([] & w8 & Hsort2 & H).
  injection H as <- <-.
  apply sort_by_usage_Ok_inv in Hsort2 as (l2 & -> & Hperm2 & _).
  destruct (move_Ok_between _ _ _ _ _ src_d tgt_d Hmove Hsrc Htgt)
    as (Hels & Hdl & Hrest & (u1 & u2 & u3 & u4 & Hlog) & Hboth).
  cbn [heap elements ds_denylist log set_log set_elements] in *.
  destruct (proj1 (Hshadow vm) Hvm) as (Hin & Hh & Hs).
  pose proof Hmov as Hmov'. unfold aggr_movable in Hmov. apply andb_true_iff in Hmov as [Hlo Hhi].
  apply Qle_bool_iff in Hlo, Hhi.
  exists vm, target, src_d, tgt_d.
  split; [apply Z.ltb_ge, E1 |]. split; [reflexivity |].
  split; [exact Hsrc |]. split; [exact Htgt |]. split; [exact Htin |].
  split; [intros r d Hr Hd; exact (Hmin r d tgt_d Hr Hd Htgt) |].
  split; [exact Hin |]. split; [exact Hh |]. split; [exact Hs |].
  split; [exact Hlo |].
  split; [eapply Qle_trans; [exact Hhi | apply min_le_r] |].
  split; [eapply Qle_trans; [exact Hhi | apply min_le_l] |].
  split.
  { intros vm' Hin' Hh' Hs' Hm'. apply Hlargest, list_elem_of_filter.
    split; [exact Hm' | apply Hshadow; tauto]. }
  split; [rewrite Hperm2, Hels; exact Hperm1 |].
  split; [exact Hdl |]. split; [exact Hrest |]. split; [| exact Hboth].
  exists warnings, u1, u2, u3, u4. split; [exact Hwarn |].
  rewrite Hlog, <- app_assoc. reflexivity.
Qed.

(** X22: a turn of the loop of the datastore-level pass that goes on has
    moved one vm from the first datastore of [ds_info.elements] to a
    target.  Before the turn: the vm is a shadow vm of [vm_info] on that
    first datastore, whose size in GiB is within [flexvol_volume_min_size]
    and [flexvol_volume_max_size] and not above half the gap of free
    space between target and source, and the largest of these; the target
    is a datastore of [ds_info.elements] of the least weighted usage; the
    cap was not passed.  After the turn: the count is up by one; the log
    has grown by warnings of the search for shadow vms and then by the
    three records of the move of this vm from the first datastore to the
    target; [ds_info.elements] holds the same datastores,
    [args.ds_denylist] is the same and every other datastore is as it
    was; and, for a target other than the source, the source has lost the
    vm and gained its size as free space, the target has got the vm as
    its last one and lost its size, and both usages are those of the new
    free space. *)
Theorem ds_turn_choice (vm_info : list VM.t) (args : Args) (ds_weight : gmap string Q)
    (moves_done : Z) (w w' : World) (moves_done' : Z) :
  ds_balancing_step rnd vm_info args ds_weight moves_done w
  = (Ok (Continue moves_done'), w') ->
  exists vm most_used_ds others target most_d tgt_d,
    moves_done <= max_move_vms args
    /\ moves_done' = moves_done + 1
    /\ elements w = most_used_ds :: others
    /\ heap w !! most_used_ds = Some most_d
    /\ heap w !! target = Some tgt_d
    /\ target ∈ elements w
    /\ (forall r d, r ∈ elements w -> heap w !! r = Some d ->
          (weighted_usage rnd ds_weight tgt_d <= weighted_usage rnd ds_weight d)%Q)
    /\ vm ∈ vm_info
    /\ VM.handle vm ∈ DS.vm_handles most_d
    /\ fst (VM.is_shadow_vm vm) = true
    /\ (of_int (flexvol_volume_min_size args)
        <= div_const rnd (of_int (VM.get_total_disksize vm)) GiB)%Q
    /\ (div_const rnd (of_int (VM.get_total_disksize vm)) GiB
        <= of_int (flexvol_volume_max_size args))%Q
    /\ (div_const rnd (of_int (VM.get_total_disksize vm)) GiB
        <= div_const rnd (of_int (DS.freespace tgt_d - DS.freespace most_d)) (2 * GiB))%Q
    /\ (forall vm',
          vm' ∈ vm_info -> VM.handle vm' ∈ DS.vm_handles most_d ->
          fst (VM.is_shadow_vm vm') = true ->
          ds_movable rnd args (DS.freespace tgt_d) (DS.freespace most_d) vm' = true ->
          VM.get_total_disksize vm' <= VM.get_total_disksize vm)
    /\ elements w' ≡ₚ elements w
    /\ ds_denylist w' = ds_denylist w
    /\ (forall r, r <> most_used_ds -> r <> target -> heap w' !! r = heap w !! r)
    /\ (exists warnings u1 u2 u3 u4,
          Forall (fun r => levelname r = WARNING) warnings
          /\ log w' = log w ++ warnings
                      ++ decision_records (VM.name vm)
                           (div_const rnd (of_int (VM.get_total_disksize vm)) GiB)
                           (DS.name most_d) (DS.name tgt_d) u1 u2 u3 u4)
    /\ (most_used_ds <> target ->
        exists most_d' tgt_d',
          heap w' !! most_used_ds = Some most_d' /\ heap w' !! target = Some tgt_d'
          /\ DS.freespace most_d' = DS.freespace most_d + VM.get_total_disksize vm
          /\ DS.freespace tgt_d' = DS.freespace tgt_d - VM.get_total_disksize vm
          /\ DS.capacity most_d' = DS.capacity most_d
          /\ DS.capacity tgt_d' = DS.capacity tgt_d
          /\ DS.usage most_d' = usage_value rnd (DS.freespace most_d') (DS.capacity most_d')
          /\ DS.usage tgt_d' = usage_value rnd (DS.freespace tgt_d') (DS.capacity tgt_d')
          /\ DS.vm_handles most_d' ++ [VM.handle vm] ≡ₚ DS.vm_handles most_d
          /\ DS.vm_handles tgt_d' = DS.vm_handles tgt_d ++ [VM.handle vm]).
Proof.
  unfold ds_balancing_step. intros H.
  destruct (max_move_vms args <? moves_done) eqn:E1; [discriminate H |].
  apply bind_Ok_inv in H as (w0' & w0 & Hg & H). apply get_world_run in Hg as [-> ->].
  apply bind_Ok_inv in H as (most & w1 & Hfirst & H). apply lift_run in Hfirst as [Hfirst ->].
  destruct (elements w) as [| most' others] eqn:Hels0; [discriminate Hfirst |].
  injection Hfirst as ->.
  apply bind_Ok_inv in H as ([] & w1 & Hsort & H).
  apply bind_Ok_inv in H as (w1' & w2 & Hg & H). apply get_world_run in Hg as [-> ->].
  apply bind_Ok_inv in H as (target & w3 & Hlast & H). apply lift_run in Hlast as [Hlast ->].
  destruct (least_used_is_minimal _ _ _ _ Hsort Hlast) as (Hheap & Htin & Hmin).
  apply sort_by_usage_Ok_inv in Hsort as (l1 & -> & Hperm1 & _).
  apply bind_Ok_inv in H as (most_d & w4 & Hmost & H).
  apply deref_Ok_inv in Hmost as [Hmost ->]. rewrite Hheap in Hmost.
  apply bind_Ok_inv in H as (tgt_d & w4 & Htgt & H).
  apply deref_Ok_inv in Htgt as [Htgt ->]. rewrite Hheap in Htgt.
  apply bind_Ok_inv in H as (shadow_vms & w5 & Hsh & H).
  apply get_shadow_vms_Ok_inv in Hsh as ((warnings & -> & Hwarn) & Hshadow).
  destruct (filter _ shadow_vms) as [| vm0 vms] eqn:Hf; [discriminate H |].
  apply bind_Ok_inv in H as (vm & w6 & Hlargest & H).
  apply lift_run in Hlargest as [Hlargest ->].
  apply largest_of_sorted in Hlargest as [Hvm Hlargest].
  rewrite <- Hf in Hvm, Hlargest. apply list_elem_of_filter in Hvm as [Hmov Hvm].
  apply bind_Ok_inv in H as ([] & w7 & Hmove & H).
  apply bind_Ok_inv in H as ([] & w8 & Hsort2 & H).
  injection H as <- <-.
  apply sort_by_usage_Ok_inv in Hsort2 as (l2 & -> & Hperm2 & _).
  destruct (move_Ok_between _ _ _ _ _ most_d tgt_d Hmove Hmost Htgt)
    as (Hels & Hdl & Hrest & (u1 & u2 & u3 & u4 & Hlog) & Hboth).
  cbn [heap elements ds_denylist log set_log set_elements] in *.
  destruct (proj1 (Hshadow vm) Hvm) as (Hin & Hh & Hs).
  pose proof Hmov as Hmov'. unfold ds_movable, vm_maxdisksize in Hmov.
  apply andb_true_iff in Hmov as [Hlo Hhi]. apply Qle_bool_iff in Hlo, Hhi.
  exists vm, most, others, target, most_d, tgt_d. rewrite <- Hels0.
  split; [apply Z.ltb_ge, E1 |]. split; [reflexivity |]. split; [reflexivity |].
  split; [exact Hmost |]. split; [exact Htgt |]. split; [exact Htin |].
  split; [intros r d Hr Hd; exact (Hmin r d tgt_d Hr Hd Htgt) |].
  split; [exact Hin |]. split; [exact Hh |]. split; [exact Hs |].
  split; [exact Hlo |].
  split; [eapply Qle_trans; [exact Hhi | apply min_le_r] |].
  split; [eapply Qle_trans; [exact Hhi | apply min_le_l] |].
  split.
  { intros vm' Hin' Hh' Hs' Hm'. apply Hlargest, list_elem_of_filter.
    split; [exact Hm' | apply Hshadow; tauto]. }
  split; [rewrite Hperm2, Hels; exact Hperm1 |].
  split; [exact Hdl |]. split; [exact Hrest |]. split; [| exact Hboth].
  exists warnings, u1, u2, u3, u4. split; [exact Hwarn |].
  rewrite Hlog, <- app_assoc. reflexivity.
Qed.

End StepChoice.

Lemma two_datastores_least_used (target : nat) (tgt_d : DS.t) :
  target ∈ elements two_datastores ->
  heap two_datastores !! target = Some tgt_d ->
  (forall r d, r ∈ elements two_datastores -> heap two_datastores !! r = Some d ->
     (weighted_usage binary64 ∅ tgt_d <= weighted_usage binary64 ∅ d)%Q) ->
  target = 1%nat.
Proof.
  intros Ht Htgt Hmin.
  change (elements two_datastores) with [0%nat; 1%nat] in Ht.
  apply elem_of_cons in Ht as [-> | Ht].
  - exfalso. vm_compute in Htgt. injection Htgt as <-.
    assert (H1 : (1%nat : nat) ∈ elements two_datastores)
      by (change (elements two_datastores) with [0%nat; 1%nat];
          apply list_elem_of_further, list_elem_of_here).
    specialize (Hmin 1%nat _ H1 eq_refl). vm_compute in Hmin. apply Hmin. reflexivity.
  - apply list_elem_of_singleton in Ht. exact Ht.
Qed.

Lemma pool_turn_choice_witness :
  exists vm source_after target_after,
    vm ∈ [volume_50]
    /\ fst pool_turn_run = Ok (Continue (0 + 1, 0 + VM.get_total_disksize vm))
    /\ heap (snd pool_turn_run) !! 0%nat = Some source_after
    /\ heap (snd pool_turn_run) !! 1%nat = Some target_after
    /\ DS.freespace source_after = GB 100 + VM.get_total_disksize vm
    /\ DS.freespace target_after = GB 600 - VM.get_total_disksize vm
    /\ DS.vm_handles target_after = [VM.handle vm]
    /\ exists warnings u1 u2 u3 u4,
         log (snd pool_turn_run)
         = log two_datastores ++ warnings
           ++ decision_records (VM.name vm)
                (div_const binary64 (of_int (VM.get_total_disksize vm)) GiB)
                ds_001 ds_002 u1 u2 u3 u4.
Proof.
  assert (Hrun : aggr_balancing_step binary64 [volume_50] roomy_args ∅ 1000 0 65 (0, 0)
                   two_datastores
                 = (Ok (Continue (1, GB 50)), snd pool_turn_run))
    by (vm_compute; reflexivity).
  destruct (pool_turn_choice binary64 _ _ _ _ _ _ _ _ _ _ _ Hrun)
    as (vm & target & src_d & tgt_d & _ & Hv & Hsrc & Htgt & Ht & Hmin & Hin & _ & _ & _ & _
        & _ & _ & _ & _ & _ & (warnings & u1 & u2 & u3 & u4 & _ & Hlog) & Hboth).
  assert (target = 1%nat) as -> by (eapply two_datastores_least_used; eassumption).
  destruct Hboth as (src_d' & tgt_d' & H0 & H1 & Hf0 & Hf1 & _ & _ & _ & _ & _ & Hh);
    [discriminate |].
  vm_compute in Hsrc. injection Hsrc as <-. vm_compute in Htgt. injection Htgt as <-.
  exists vm, src_d', tgt_d'. split; [exact Hin |].
  split; [rewrite <- Hv; vm_compute; reflexivity |].
  split; [exact H0 |]. split; [exact H1 |]. split; [exact Hf0 |]. split; [exact Hf1 |].
  split; [exact Hh |]. exists warnings, u1, u2, u3, u4. exact Hlog.
Defined.

Lemma ds_turn_choice_witness :
  exists vm source_after target_after,
    vm ∈ [volume_50]
    /\ fst ds_turn_run = Ok (Continue (0 + 1))
    /\ heap (snd ds_turn_run) !! 0%nat = Some source_after
    /\ heap (snd ds_turn_run) !! 1%nat = Some target_after
    /\ DS.freespace source_after = GB 100 + VM.get_total_disksize vm
    /\ DS.freespace target_after = GB 600 - VM.get_total_disksize vm
    /\ DS.vm_handles target_after = [VM.handle vm]
    /\ exists warnings u1 u2 u3 u4,
         log (snd ds_turn_run)
         = log two_datastores ++ warnings
           ++ decision_records (VM.name vm)
                (div_const binary64 (of_int (VM.get_total_disksize vm)) GiB)
                ds_001 ds_002 u1 u2 u3 u4.
Proof.
  assert (Hrun : ds_balancing_step binary64 [volume_50] default_args ∅ 0 two_datastores
                 = (Ok (Continue 1), snd ds_turn_run))
    by (vm_compute; reflexivity).
  destruct (ds_turn_choice binary64 _ _ _ _ _ _ _ Hrun)
    as (vm & most & others & target & most_d & tgt_d & _ & Hm & Hels & Hmost & Htgt & Ht
        & Hmin & Hin & _ & _ & _ & _ & _ & _ & _ & _ & _
        & (warnings & u1 & u2 & u3 & u4 & _ & Hlog) & Hboth).
  assert (target = 1%nat) as -> by (eapply two_datastores_least_used; eassumption).
  change (elements two_datastores) with [0%nat; 1%nat] in Hels. injection Hels as <- <-.
  destruct Hboth as (most_d' & tgt_d' & H0 & H1 & Hf0 & Hf1 & _ & _ & _ & _ & _ & Hh);
    [discriminate |].
  vm_compute in Hmost. injection Hmost as <-. vm_compute in Htgt. injection Htgt as <-.
  exists vm, most_d', tgt_d'. split; [exact Hin |].
  split; [vm_compute; reflexivity |].
  split; [exact H0 |]. split; [exact H1 |]. split; [exact Hf0 |]. split; [exact Hf1 |].
  split; [exact Hh |]. exists warnings, u1, u2, u3, u4. exact Hlog.
Defined.

(** ** What a move leaves as it was *)

Section StaleUsed.

Variable rnd : Q -> Q.

(** X23: a move changes neither the name, the capacity, the used bytes
    nor the handle of the two datastores: the Move Simulator adjusts the
    free space and leaves [used] as it was, so that [used] is no longer
    [capacity - freespace] after the move of a vm that has a size. *)
Theorem move_leaves_used_stale (ds1 ds2 : nat) (vm : VM.t) (w w' : World) :
  ds1 <> ds2 ->
  move_shadow_vm_from_ds_to_ds rnd ds1 ds2 vm w = (Ok tt, w') ->
  exists d1 d2 d1' d2',
    heap w !! ds1 = Some d1 /\ heap w !! ds2 = Some d2
    /\ heap w' !! ds1 = Some d1' /\ heap w' !! ds2 = Some d2'
    /\ DS.name d1' = DS.name d1 /\ DS.name d2' = DS.name d2
    /\ DS.capacity d1' = DS.capacity d1 /\ DS.capacity d2' = DS.capacity d2
    /\ DS.used d1' = DS.used d1 /\ DS.used d2' = DS.used d2
    /\ DS.ds_handle d1' = DS.ds_handle d1 /\ DS.ds_handle d2' = DS.ds_handle d2
    /\ (VM.get_total_disksize vm <> 0 ->
        DS.used d1 = DS.capacity d1 - DS.freespace d1 ->
        DS.used d1' <> DS.capacity d1' - DS.freespace d1')
    /\ (VM.get_total_disksize vm <> 0 ->
        DS.used d2 = DS.capacity d2 - DS.freespace d2 ->
        DS.used d2' <> DS.capacity d2' - DS.freespace d2').
Proof.
  intros Hne Hm.
  destruct (move_Ok_inv rnd _ _ _ _ _ Hm)
    as (d1 & hs & u1 & d2 & u2 & Hd1 & _ & _ & Hd2 & _ & Hheap & _).
  rewrite list_lookup_insert_ne in Hd2 by exact Hne.
  assert (Hl1 : (ds1 < length (heap w))%nat) by (eapply lookup_lt_Some; eassumption).
  assert (Hl2 : (ds2 < length (heap w))%nat) by (eapply lookup_lt_Some; eassumption).
  exists d1, d2, (DS.set_usage u1 (without_vm vm hs d1)), (DS.set_usage u2 (with_vm vm d2)).
  split; [exact Hd1 |]. split; [exact Hd2 |]. split; [| split].
  - rewrite Hheap, list_lookup_insert_ne by (intros H; apply Hne; symmetry; exact H).
    apply list_lookup_insert_eq. exact Hl1.
  - rewrite Hheap. apply list_lookup_insert_eq. rewrite length_insert. exact Hl2.
  - cbn. repeat (split; [reflexivity |]). split; intros Hs Hu; lia.
Qed.

End StaleUsed.

Lemma move_leaves_used_stale_witness :
  exists d1 d1',
    heap two_datastores !! 0%nat = Some d1
    /\ heap (snd (move_shadow_vm_from_ds_to_ds binary64 0 1 volume_50 two_datastores)) !! 0%nat
       = Some d1'
    /\ DS.used d1' = DS.used d1
    /\ DS.used d1' <> DS.capacity d1' - DS.freespace d1'.
Proof.
  assert (Hrun : move_shadow_vm_from_ds_to_ds binary64 0 1 volume_50 two_datastores
                 = (Ok tt,
                    snd (move_shadow_vm_from_ds_to_ds binary64 0 1 volume_50 two_datastores)))
    by (vm_compute; reflexivity).
  destruct (move_leaves_used_stale binary64 0 1 volume_50 two_datastores _
              ltac:(discriminate) Hrun)
    as (d1 & d2 & d1' & d2' & Hd1 & _ & Hd1' & _ & _ & _ & _ & _ & Hu & _ & _ & _ & Hstale & _).
  exists d1, d1'. split; [exact Hd1 |]. split; [exact Hd1' |]. split; [exact Hu |].
  apply Hstale; [vm_compute; discriminate |].
  vm_compute in Hd1. injection Hd1 as <-. reflexivity.
Defined.

(** ** The gate of the pool-level pass *)

Section Gate.

Variable rnd : Q -> Q.

(** [get_max_usage_aggr] raises, or returns the last of the most used
    aggregates and the average, with three records logged. *)
Lemma get_max_usage_aggr_cases (na_info : list NA.t) (w : World) :
  (exists e, get_max_usage_aggr rnd na_info w = (Raise e, w))
  \/ (total_aggr_capacity na_info <> 0
      /\ exists least most,
           least ∈ all_aggregates na_info
           /\ max_usage_aggr_of na_info = Some most
           /\ get_max_usage_aggr rnd na_info w
              = (Ok (most, average_aggr_usage rnd na_info),
                 set_log (log w ++ max_usage_records least most
                                     (average_aggr_usage rnd na_info)) w)).
Proof.
  unfold get_max_usage_aggr, max_usage_aggr_of, average_aggr_usage. cbv zeta.
  fold (all_aggregates na_info).
  rewrite foldl_capacity, Z.add_0_l. fold (total_aggr_capacity na_info).
  destruct (sorted Z.leb NAAggr.usage (all_aggregates na_info)) as [| a l] eqn:Hs.
  { left. exists IndexError. reflexivity. }
  rewrite bind_run. cbn [first_item lift]. rewrite bind_run.
  unfold lift at 1. unfold last_item.
  destruct (last (a :: l)) as [m |] eqn:Hl; [| apply last_None in Hl; discriminate Hl].
  rewrite bind_run. unfold lift, div_int.
  destruct (total_aggr_capacity na_info =? 0) eqn:Ez.
  { left. exists ZeroDivisionError. reflexivity. }
  right. apply Z.eqb_neq in Ez. split; [exact Ez |]. exists a, m.
  split; [| split; [reflexivity |]].
  - apply (proj1 (sorted_elem Z.leb NAAggr.usage _ _)). rewrite Hs. apply list_elem_of_here.
  - repeat (rewrite bind_run; try rewrite log_info_run; cbn beta iota).
    unfold mret, M_ret, max_usage_records, set_log. cbn. rewrite <- !app_assoc. reflexivity.
Qed.

(** Neither of the two statistics logs a move. *)
Lemma stats_log_no_move (na_info : list NA.t) (w : World) :
  exists l, log (snd (get_aggr_and_ds_stats rnd na_info w)) = log w ++ l
            /\ moves_in l = 0%nat.
Proof.
  destruct (calm_get_aggr_and_ds_stats rnd na_info w) as (_ & ((_ & _ & l & Hl & Hd) & _)).
  exists l. split; [exact Hl | apply no_decisions_no_moves, Hd].
Qed.

(** The usage of a most used aggregate is the usage of any other. *)
Lemma most_used_usage (na_info : list NA.t) (most aggr : NAAggr.t) :
  max_usage_aggr_of na_info = Some most ->
  aggr ∈ all_aggregates na_info ->
  (forall a, a ∈ all_aggregates na_info -> NAAggr.usage a <= NAAggr.usage aggr) ->
  most ∈ all_aggregates na_info
  /\ (forall a, a ∈ all_aggregates na_info -> NAAggr.usage a <= NAAggr.usage most)
  /\ NAAggr.usage most = NAAggr.usage aggr.
Proof.
  intros Hmost Hin Hmax.
  destruct (max_usage_aggr_of_most _ _ Hmost) as (before & after & Hall & Hb & Ha).
  assert (Hm : most ∈ all_aggregates na_info)
    by (rewrite Hall; apply elem_of_app; right; apply list_elem_of_here).
  assert (Hle : forall a, a ∈ all_aggregates na_info -> NAAggr.usage a <= NAAggr.usage most).
  { intros a H. rewrite Hall in H. apply elem_of_app in H as [H | H]; [apply Hb, H |].
    apply elem_of_cons in H as [-> | H]; [lia |]. apply Ha in H. lia. }
  split; [exact Hm |]. split; [exact Hle |].
  pose proof (Hmax most Hm). pose proof (Hle aggr Hin). lia.
Qed.

(** C6: a pool-level pass that logs a move has found the usage of the most
    used aggregate to be at least the average usage of the aggregates,
    weighted by capacity, plus [autopilot_range]; when that usage is below
    the average plus the range, the pass returns [False] from the world
    the first statistics left, with the four records of the second
    statistics and of the gate added to the log and nothing else done: no
    source is searched, and no move is logged. *)
Theorem aggr_balancing_gate (fuel : nat) (na_info : list NA.t) (vm_info : list VM.t)
    (args : Args) (w : World) :
  (forall l,
     log_since w (snd (vmfs_aggr_balancing rnd fuel na_info vm_info args w)) l ->
     (0 < moves_in l)%nat ->
     exists aggr,
       aggr ∈ all_aggregates na_info
       /\ (forall a, a ∈ all_aggregates na_info -> NAAggr.usage a <= NAAggr.usage aggr)
       /\ total_aggr_capacity na_info <> 0
       /\ (add rnd (average_aggr_usage rnd na_info) (of_int (autopilot_range args))
           <= of_int (NAAggr.usage aggr))%Q)
  /\ (forall ds_weight w1 aggr,
        get_aggr_and_ds_stats rnd na_info w = (Ok ds_weight, w1) ->
        aggr ∈ all_aggregates na_info ->
        (forall a, a ∈ all_aggregates na_info -> NAAggr.usage a <= NAAggr.usage aggr) ->
        total_aggr_capacity na_info <> 0 ->
        (of_int (NAAggr.usage aggr)
         < add rnd (average_aggr_usage rnd na_info) (of_int (autopilot_range args)))%Q ->
        (exists least most,
           least ∈ all_aggregates na_info
           /\ most ∈ all_aggregates na_info
           /\ NAAggr.usage most = NAAggr.usage aggr
           /\ vmfs_aggr_balancing rnd fuel na_info vm_info args w
              = (Ok ReturnFalse,
                 set_log (log w1 ++ gate_records least most (average_aggr_usage rnd na_info))
                         w1))
        /\ exists l,
             log_since w (snd (vmfs_aggr_balancing rnd fuel na_info vm_info args w)) l
             /\ moves_in l = 0%nat).
Proof.
  split.
  - intros l Hl Hmoves. unfold log_since in Hl.
    destruct (stats_log_no_move na_info w) as (l1 & Hl1 & Hm1).
    destruct (calm_get_aggr_and_ds_stats rnd na_info w) as (Hne1 & _).
    unfold vmfs_aggr_balancing in Hl. rewrite bind_run in Hl.
    destruct (get_aggr_and_ds_stats rnd na_info w) as [[dw | e |] w1] eqn:H1;
      cbn [fst snd] in Hl1, Hne1; [| | exfalso; apply Hne1; reflexivity].
    2:{ exfalso. cbn [snd] in Hl. rewrite Hl1 in Hl. apply app_inv_head in Hl. subst l. lia. }
    rewrite bind_run in Hl.
    destruct (get_max_usage_aggr_cases na_info w1)
      as [[e He] | (Hz & least & most & Hleast & Hmost & Hrun)].
    { exfalso. rewrite He in Hl. cbn [snd] in Hl.
      rewrite Hl1 in Hl. apply app_inv_head in Hl. subst l. lia. }
    rewrite Hrun in Hl. cbv beta iota zeta in Hl.
    destruct (Qltb (of_int (NAAggr.usage most))
                   (add rnd (average_aggr_usage rnd na_info) (of_int (autopilot_range args))))
      eqn:Hlt.
    + exfalso. cbn [snd log set_log log_info tell modify mbind M_bind mret M_ret] in Hl.
      rewrite bind_run in Hl. cbn [log_info tell modify snd fst mret M_ret log set_log] in Hl.
      rewrite Hl1, <- !app_assoc in Hl. apply app_inv_head in Hl. subst l.
      rewrite !moves_in_app, Hm1 in Hmoves. cbn in Hmoves. lia.
    + destruct (max_usage_aggr_of_most _ _ Hmost) as (before & after & Hall & Hb & Ha).
      exists most. split; [rewrite Hall; apply elem_of_app; right; apply list_elem_of_here |].
      split.
      { intros a H. rewrite Hall in H. apply elem_of_app in H as [H | H]; [apply Hb, H |].
        apply elem_of_cons in H as [-> | H]; [lia |]. apply Ha in H. lia. }
      split; [exact Hz |].
      unfold Qltb in Hlt. apply negb_false_iff in Hlt. apply Qle_bool_iff, Hlt.
  - intros dw w1 aggr H1 Hin Hmax Hz Hlt.
    destruct (get_max_usage_aggr_cases na_info w1)
      as [[e He] | (_ & least & most & Hleast & Hmost & Hrun)].
    { exfalso. revert He. unfold get_max_usage_aggr, div_int. cbv zeta.
      fold (all_aggregates na_info).
      rewrite foldl_capacity, Z.add_0_l. fold (total_aggr_capacity na_info).
      destruct (sorted Z.leb NAAggr.usage (all_aggregates na_info)) as [| a l] eqn:Hs.
      { apply sorted_nil_inv in Hs. rewrite Hs in Hin. inversion Hin. }
      rewrite bind_run. cbn [first_item lift]. rewrite bind_run.
      unfold lift at 1. unfold last_item.
      destruct (last (a :: l)) as [m |] eqn:Hl; [| apply last_None in Hl; discriminate Hl].
      rewrite bind_run. unfold lift.
      destruct (Z.eqb_spec (total_aggr_capacity na_info) 0) as [E | _]; [contradiction |].
      discriminate. }
    destruct (most_used_usage _ _ _ Hmost Hin Hmax) as (Hm & _ & Hu).
    assert (Hgate : Qltb (of_int (NAAggr.usage most))
                      (add rnd (average_aggr_usage rnd na_info)
                         (of_int (autopilot_range args))) = true).
    { rewrite Hu. unfold Qltb. apply negb_true_iff.
      destruct (Qle_bool _ _) eqn:E; [| reflexivity].
      apply Qle_bool_iff in E. exfalso. exact (Qlt_not_le _ _ Hlt E). }
    assert (Hpass : vmfs_aggr_balancing rnd fuel na_info vm_info args w
                    = (Ok ReturnFalse,
                       set_log (log w1 ++ gate_records least most
                                            (average_aggr_usage rnd na_info)) w1)).
    { unfold vmfs_aggr_balancing.
      rewrite (bind_Ok _ _ _ _ _ H1), (bind_Ok _ _ _ _ _ Hrun). cbv beta iota zeta.
      rewrite Hgate, bind_run, log_info_run.
      unfold mret, M_ret, gate_records, set_log. cbn. rewrite <- !app_assoc. reflexivity. }
    split.
    + exists least, most. split; [exact Hleast |]. split; [exact Hm |].
      split; [exact Hu | exact Hpass].
    + rewrite Hpass. cbn [snd]. unfold log_since. cbn [log set_log].
      destruct (stats_log_no_move na_info w) as (l1 & Hl1 & Hm1).
      rewrite H1 in Hl1. cbn [snd] in Hl1.
      exists (l1 ++ gate_records least most (average_aggr_usage rnd na_info)). split.
      * rewrite Hl1, <- !app_assoc. reflexivity.
      * rewrite !moves_in_app, Hm1. reflexivity.
Qed.

End Gate.

(** The gate on the inventory whose pools are 50% and 48% used: the pass
    returns [False], its last record is the one of the gate, and the
    datastores and their order are as they were before the pass. *)
Example gate_closed_on_balanced_pools :
  fst balanced_pools_run = Ok ReturnFalse
  /\ last (log (snd balanced_pools_run))
     = Some {| levelname := INFO; msg := AggrWithinAutopilotRange |}
  /\ moves_of (log (snd balanced_pools_run)) = []
  /\ heap (snd balanced_pools_run) = heap balanced_pools_world
  /\ elements (snd balanced_pools_run) = elements balanced_pools_world.
Proof. repeat split; vm_compute; reflexivity. Qed.

Lemma aggr_balancing_gate_witness :
  average_aggr_usage binary64 balanced_pools = (97 # 2)%Q
  /\ exists least most,
       NAAggr.usage most = 50
       /\ balanced_pools_run
          = (Ok ReturnFalse,
             set_log (log (snd balanced_pools_stats)
                        ++ gate_records least most (average_aggr_usage binary64 balanced_pools))
                     (snd balanced_pools_stats)).
Proof.
  split; [vm_compute; reflexivity |].
  assert (Hstats : get_aggr_and_ds_stats binary64 balanced_pools balanced_pools_world
                   = (Ok (result_of ∅ (fst balanced_pools_stats)), snd balanced_pools_stats))
    by (vm_compute; reflexivity).
  assert (Hin : aggregate "aggr_ssd_01" 50 (GB 1000) [ds_001; ds_004]
                ∈ all_aggregates balanced_pools) by apply list_elem_of_here.
  assert (Hmax : forall a, a ∈ all_aggregates balanced_pools ->
                   NAAggr.usage a
                   <= NAAggr.usage (aggregate "aggr_ssd_01" 50 (GB 1000) [ds_001; ds_004])).
  { intros a Ha.
    change (all_aggregates balanced_pools)
      with [aggregate "aggr_ssd_01" 50 (GB 1000) [ds_001; ds_004];
            aggregate "aggr_ssd_02" 48 (GB 3000) [ds_002; ds_003]] in Ha.
    apply elem_of_cons in Ha as [-> | Ha]; [cbn; lia |].
    apply list_elem_of_singleton in Ha as ->. cbn. lia. }
  assert (Hz : total_aggr_capacity balanced_pools <> 0) by (vm_compute; discriminate).
  assert (Hlt : (of_int (NAAggr.usage (aggregate "aggr_ssd_01" 50 (GB 1000) [ds_001; ds_004]))
                 < add binary64 (average_aggr_usage binary64 balanced_pools)
                       (of_int (autopilot_range default_args)))%Q)
    by (vm_compute; reflexivity).
  destruct (proj2 (aggr_balancing_gate binary64 10 balanced_pools (inv_vms pool_inventory)
                     default_args balanced_pools_world)
              _ _ _ Hstats Hin Hmax Hz Hlt) as [(least & most & _ & _ & Hu & Hrun) _].
  exists least, most. split; [exact Hu | exact Hrun].
Defined.

(** ** The corridor of the datastore-level pass *)


Section Corridor.

Variable rnd : Q -> Q.







End Corridor.


(** ** Rounding to the nearest float keeps the order *)

Lemma Qdiv_lt_iff (N D K : Z) :
  0 < D -> (inject_Z N / inject_Z D < inject_Z K)%Q <-> N < K * D.
Proof.
  intros HD. destruct D as [| p | p]; try lia.
  unfold Qlt, Qdiv, Qmult, Qinv, inject_Z. cbn. lia.
Qed.

Lemma Qdiv_le_iff (N D K : Z) :
  0 < D -> (inject_Z K <= inject_Z N / inject_Z D)%Q <-> K * D <= N.
Proof.
  intros HD. destruct D as [| p | p]; try lia.
  unfold Qle, Qdiv, Qmult, Qinv, inject_Z. cbn. lia.
Qed.

Lemma pow2_Q (n : Z) : 0 <= n -> (inject_Z (2 ^ n) == Qpower 2 n)%Q.
Proof. intros Hn. apply (Zpower_Qpower 2 n Hn). Qed.

Lemma pow2_Q_pos (e : Z) : (0 < Qpower 2 e)%Q.
Proof. apply Qpower_0_lt. reflexivity. Qed.

Lemma pow2_Q_plus (n m : Z) : (Qpower 2 (n + m) == Qpower 2 n * Qpower 2 m)%Q.
Proof. apply Qpower_plus. discriminate. Qed.

(** The fraction [scaled a d e] is [a / d / 2^e]. *)
Lemma scaled_value (a d e : Z) :
  0 < a -> 0 < d ->
  0 < fst (scaled a d e) /\ 0 < snd (scaled a d e)
  /\ (inject_Z (fst (scaled a d e)) / inject_Z (snd (scaled a d e))
      == inject_Z a / inject_Z d * Qpower 2 (- e))%Q.
Proof.
  intros Ha Hd. unfold scaled.
  assert (Hdq : ~ (inject_Z d == 0)%Q).
  { intros H. unfold Qeq, inject_Z in H. cbn in H. lia. }
  destruct (0 <=? e) eqn:E; cbn [fst snd].
  - apply Z.leb_le in E. pose proof (pow2_pos e E) as Hp.
    split; [exact Ha |]. split; [nia |].
    rewrite inject_Z_mult, (pow2_Q e E), Qpower_opp.
    pose proof (pow2_Q_pos e) as Hq.
    field. split; [intros H; rewrite H in Hq; inversion Hq | exact Hdq].
  - apply Z.leb_gt in E. assert (E' : 0 <= - e) by lia.
    pose proof (pow2_pos (- e) E') as Hp.
    split; [nia |]. split; [exact Hd |].
    rewrite inject_Z_mult, (pow2_Q (- e) E'). field. exact Hdq.
Qed.

Lemma pow2_Q_opp (e : Z) : (Qpower 2 (- e) * Qpower 2 e == 1)%Q.
Proof.
  rewrite <- pow2_Q_plus. replace (- e + e) with 0 by lia. reflexivity.
Qed.

(** The quotient of two positive integers lies between the powers of two
    that their binary logarithms give. *)
Lemma log2_bounds (a d : Z) :
  0 < a -> 0 < d ->
  (Qpower 2 (Z.log2 a - Z.log2 d - 1) < inject_Z a / inject_Z d)%Q
  /\ (inject_Z a / inject_Z d < Qpower 2 (Z.log2 a - Z.log2 d + 1))%Q.
Proof.
  intros Ha Hd.
  destruct (Z.log2_spec a Ha) as [Ha1 Ha2]. destruct (Z.log2_spec d Hd) as [Hd1 Hd2].
  pose proof (Z.log2_nonneg a) as HA. pose proof (Z.log2_nonneg d) as HD.
  assert (Hdq : (0 < inject_Z d)%Q) by (change 0%Q with (inject_Z 0); rewrite <- Zlt_Qlt; lia).
  split.
  - apply Qlt_shift_div_l; [exact Hdq |].
    apply Qlt_le_trans with (Qpower 2 (Z.log2 a - Z.log2 d - 1) * Qpower 2 (Z.succ (Z.log2 d)))%Q.
    + apply Qmult_lt_l; [apply pow2_Q_pos |].
      rewrite <- pow2_Q by lia. rewrite <- Zlt_Qlt. exact Hd2.
    + rewrite <- pow2_Q_plus.
      replace (Z.log2 a - Z.log2 d - 1 + Z.succ (Z.log2 d)) with (Z.log2 a) by lia.
      rewrite <- pow2_Q by lia. rewrite <- Zle_Qle. exact Ha1.
  - apply Qlt_shift_div_r; [exact Hdq |].
    apply Qlt_le_trans with (Qpower 2 (Z.log2 a - Z.log2 d + 1) * Qpower 2 (Z.log2 d))%Q.
    + rewrite <- pow2_Q_plus.
      replace (Z.log2 a - Z.log2 d + 1 + Z.log2 d) with (Z.succ (Z.log2 a)) by lia.
      rewrite <- pow2_Q by lia. rewrite <- Zlt_Qlt. exact Ha2.
    + apply Qmult_le_l; [apply pow2_Q_pos |].
      rewrite <- pow2_Q by lia. rewrite <- Zle_Qle. exact Hd1.
Qed.

(** The exponent puts the mantissa between [2^52] and [2^53]. *)
Lemma exponent_spec (a d : Z) :
  0 < a -> 0 < d ->
  (Qpower 2 52 <= inject_Z a / inject_Z d * Qpower 2 (- exponent a d))%Q
  /\ (inject_Z a / inject_Z d * Qpower 2 (- exponent a d) < Qpower 2 53)%Q.
Proof.
  intros Ha Hd. unfold exponent. cbv zeta.
  set (e0 := Z.log2 a - Z.log2 d - 52).
  destruct (log2_bounds a d Ha Hd) as [Hlo Hhi].
  destruct (scaled_value a d e0 Ha Hd) as (HN & HD & Hv).
  set (X := (inject_Z a / inject_Z d)%Q) in *.
  assert (Hlo0 : (Qpower 2 51 < X * Qpower 2 (- e0))%Q).
  { apply Qle_lt_trans with (Qpower 2 (Z.log2 a - Z.log2 d - 1) * Qpower 2 (- e0))%Q.
    - rewrite <- pow2_Q_plus.
      replace (Z.log2 a - Z.log2 d - 1 + - e0) with 51 by (unfold e0; lia). apply Qle_refl.
    - apply Qmult_lt_r; [apply pow2_Q_pos | exact Hlo]. }
  assert (Hhi0 : (X * Qpower 2 (- e0) < Qpower 2 53)%Q).
  { apply Qlt_le_trans with (Qpower 2 (Z.log2 a - Z.log2 d + 1) * Qpower 2 (- e0))%Q.
    - apply Qmult_lt_r; [apply pow2_Q_pos | exact Hhi].
    - rewrite <- pow2_Q_plus.
      replace (Z.log2 a - Z.log2 d + 1 + - e0) with 53 by (unfold e0; lia). apply Qle_refl. }
  destruct (fst (scaled a d e0) / snd (scaled a d e0) <? 2 ^ 52) eqn:E.
  - apply Z.ltb_lt in E.
    assert (Hlt : (X * Qpower 2 (- e0) < Qpower 2 52)%Q).
    { rewrite <- Hv. rewrite <- (pow2_Q 52) by lia. apply Qdiv_lt_iff; [exact HD |].
      destruct (Z.lt_ge_cases (fst (scaled a d e0)) (2 ^ 52 * snd (scaled a d e0)))
        as [H | H]; [exact H |].
      exfalso. rewrite Z.mul_comm in H. apply (Z.div_le_lower_bound _ _ _ HD) in H. lia. }
    replace (- (e0 - 1)) with (- e0 + 1) by lia. rewrite pow2_Q_plus.
    change (Qpower 2 1) with 2%Q. split.
    + assert (H52 : (Qpower 2 52 == Qpower 2 51 * 2)%Q) by (vm_compute; reflexivity).
      rewrite H52, Qmult_assoc. apply Qmult_le_r; [reflexivity | apply Qlt_le_weak, Hlo0].
    + assert (H53 : (Qpower 2 53 == Qpower 2 52 * 2)%Q) by (vm_compute; reflexivity).
      rewrite H53, Qmult_assoc. apply Qmult_lt_r; [reflexivity | exact Hlt].
  - apply Z.ltb_ge in E. split; [| exact Hhi0].
    rewrite <- Hv. rewrite <- (pow2_Q 52) by lia. apply Qdiv_le_iff; [exact HD |].
    pose proof (Z.mul_div_le (fst (scaled a d e0)) (snd (scaled a d e0)) HD). nia.
Qed.

(** Rounding a fraction to the nearest integer gives its floor or the
    next integer, and keeps the order of fractions. *)
Lemma round_half_even_floor (n d : Z) :
  n / d <= round_half_even n d <= n / d + 1.
Proof.
  unfold round_half_even. cbv zeta.
  destruct (2 * (n mod d) ?= d); [destruct (Z.even (n / d)) | |]; lia.
Qed.

Lemma round_half_even_monotone (n1 d1 n2 d2 : Z) :
  0 < d1 -> 0 < d2 -> n1 * d2 <= n2 * d1 ->
  round_half_even n1 d1 <= round_half_even n2 d2.
Proof.
  intros H1 H2 Hle.
  pose proof (Z.div_mod n1 d1 ltac:(lia)) as E1.
  pose proof (Z.div_mod n2 d2 ltac:(lia)) as E2.
  pose proof (Z.mod_pos_bound n1 d1 H1) as B1.
  pose proof (Z.mod_pos_bound n2 d2 H2) as B2.
  pose proof (round_half_even_floor n1 d1) as F1.
  pose proof (round_half_even_floor n2 d2) as F2.
  unfold round_half_even in *. cbv zeta in *.
  set (q1 := n1 / d1) in *. set (q2 := n2 / d2) in *.
  set (r1 := n1 mod d1) in *. set (r2 := n2 mod d2) in *.
  clearbody q1 q2 r1 r2. subst n1 n2.
  assert (Hcross : d1 * d2 * q1 + r1 * d2 <= d1 * d2 * q2 + r2 * d1) by lia.
  assert (Hq : q1 <= q2).
  { destruct (Z.le_gt_cases q1 q2) as [H | H]; [exact H |]. exfalso.
    assert (Hd : 0 < d1 * d2) by nia.
    assert (H3 : d1 * d2 * (q2 + 1) <= d1 * d2 * q1) by (apply Z.mul_le_mono_nonneg_l; lia).
    assert (H4 : r2 * d1 < d1 * d2) by nia.
    assert (H5 : 0 <= r1 * d2) by nia. lia. }
  destruct (Z.eq_dec q1 q2) as [Heq | Hne]; [| lia].
  subst q2.
  assert (Hr : r1 * d2 <= r2 * d1) by lia.
  destruct (Z.compare_spec (2 * r1) d1) as [C1 | C1 | C1];
    destruct (Z.compare_spec (2 * r2) d2) as [C2 | C2 | C2];
    try (destruct (Z.even q1)); try lia; exfalso; nia.
Qed.

Lemma Qdiv_le_cross (n1 d1 n2 d2 : Z) :
  0 < d1 -> 0 < d2 ->
  (inject_Z n1 / inject_Z d1 <= inject_Z n2 / inject_Z d2)%Q -> n1 * d2 <= n2 * d1.
Proof.
  intros H1 H2. destruct d1 as [| p1 | p1]; try lia. destruct d2 as [| p2 | p2]; try lia.
  unfold Qle, Qdiv, Qmult, Qinv, inject_Z. cbn. lia.
Qed.

Lemma mantissa_bounds (a d : Z) :
  0 < a -> 0 < d ->
  2 ^ 52 <= round_half_even (fst (scaled a d (exponent a d)))
                            (snd (scaled a d (exponent a d))) <= 2 ^ 53.
Proof.
  intros Ha Hd.
  destruct (exponent_spec a d Ha Hd) as [Hlo Hhi].
  destruct (scaled_value a d (exponent a d) Ha Hd) as (HN & HD & Hv).
  rewrite <- Hv in Hlo, Hhi.
  rewrite <- (pow2_Q 52) in Hlo by lia. rewrite <- (pow2_Q 53) in Hhi by lia.
  apply (proj1 (Qdiv_le_iff _ _ _ HD)) in Hlo. apply (proj1 (Qdiv_lt_iff _ _ _ HD)) in Hhi.
  pose proof (round_half_even_floor (fst (scaled a d (exponent a d)))
                (snd (scaled a d (exponent a d)))) as F.
  assert (Hq1 : 2 ^ 52 <= fst (scaled a d (exponent a d)) / snd (scaled a d (exponent a d)))
    by (apply Z.div_le_lower_bound; [exact HD | lia]).
  assert (Hq2 : fst (scaled a d (exponent a d)) / snd (scaled a d (exponent a d)) < 2 ^ 53)
    by (apply Z.div_lt_upper_bound; [exact HD | lia]).
  lia.
Qed.

Lemma magnitude_pos (a d : Z) : 0 < a -> 0 < d -> (0 < magnitude a d)%Q.
Proof.
  intros Ha Hd. unfold magnitude. pose proof (mantissa_bounds a d Ha Hd) as [Hm _].
  apply Qmult_lt_0_compat; [| apply pow2_Q_pos].
  change 0%Q with (inject_Z 0). rewrite <- Zlt_Qlt.
  pose proof (pow2_pos 52 ltac:(lia)). lia.
Qed.

Lemma shift_exponent_le (A X : Q) (e : Z) :
  (A <= X * Qpower 2 (- e))%Q -> (A * Qpower 2 e <= X)%Q.
Proof.
  intros H. apply (Qmult_le_compat_r _ _ (Qpower 2 e)) in H;
    [| apply Qlt_le_weak, pow2_Q_pos].
  rewrite <- Qmult_assoc, pow2_Q_opp, Qmult_1_r in H. exact H.
Qed.

Lemma shift_exponent_lt (A X : Q) (e : Z) :
  (X * Qpower 2 (- e) < A)%Q -> (X < A * Qpower 2 e)%Q.
Proof.
  intros H. apply (Qmult_lt_compat_r _ _ (Qpower 2 e)) in H; [| apply pow2_Q_pos].
  rewrite <- Qmult_assoc, pow2_Q_opp, Qmult_1_r in H. exact H.
Qed.

Lemma exponent_monotone (a1 d1 a2 d2 : Z) :
  0 < a1 -> 0 < d1 -> 0 < a2 -> 0 < d2 ->
  (inject_Z a1 / inject_Z d1 <= inject_Z a2 / inject_Z d2)%Q ->
  exponent a1 d1 <= exponent a2 d2.
Proof.
  intros Ha1 Hd1 Ha2 Hd2 Hle.
  destruct (exponent_spec a1 d1 Ha1 Hd1) as [Hlo1 _].
  destruct (exponent_spec a2 d2 Ha2 Hd2) as [_ Hhi2].
  apply shift_exponent_le in Hlo1. apply shift_exponent_lt in Hhi2.
  destruct (Z.le_gt_cases (exponent a1 d1) (exponent a2 d2)) as [H | H]; [exact H |].
  exfalso.
  assert (Hp : (Qpower 2 53 * Qpower 2 (exponent a2 d2)
                <= Qpower 2 52 * Qpower 2 (exponent a1 d1))%Q).
  { rewrite <- !pow2_Q_plus. apply Qpower_le_compat_l; [lia | discriminate]. }
  apply (Qlt_irrefl (inject_Z a2 / inject_Z d2)).
  eapply Qlt_le_trans; [exact Hhi2 |].
  eapply Qle_trans; [exact Hp |]. eapply Qle_trans; [exact Hlo1 | exact Hle].
Qed.

Lemma magnitude_monotone (a1 d1 a2 d2 : Z) :
  0 < a1 -> 0 < d1 -> 0 < a2 -> 0 < d2 ->
  a1 * d2 <= a2 * d1 ->
  (magnitude a1 d1 <= magnitude a2 d2)%Q.
Proof.
  intros Ha1 Hd1 Ha2 Hd2 Hle.
  assert (HX : (inject_Z a1 / inject_Z d1 <= inject_Z a2 / inject_Z d2)%Q).
  { destruct d1 as [| p1 | p1]; try lia. destruct d2 as [| p2 | p2]; try lia.
    unfold Qle, Qdiv, Qmult, Qinv, inject_Z. cbn. lia. }
  pose proof (exponent_monotone _ _ _ _ Ha1 Hd1 Ha2 Hd2 HX) as He.
  pose proof (mantissa_bounds a1 d1 Ha1 Hd1) as [_ Hm1].
  pose proof (mantissa_bounds a2 d2 Ha2 Hd2) as [Hm2 _].
  unfold magnitude.
  destruct (Z.eq_dec (exponent a1 d1) (exponent a2 d2)) as [Heq | Hne].
  - destruct (scaled_value a1 d1 (exponent a1 d1) Ha1 Hd1) as (_ & HD1 & Hv1).
    destruct (scaled_value a2 d2 (exponent a2 d2) Ha2 Hd2) as (_ & HD2 & Hv2).
    rewrite <- Heq in *.
    apply Qmult_le_compat_r; [| apply Qlt_le_weak, pow2_Q_pos].
    rewrite <- Zle_Qle. apply round_half_even_monotone; [exact HD1 | exact HD2 |].
    apply Qdiv_le_cross; [exact HD1 | exact HD2 |].
    rewrite Hv1, Hv2. apply Qmult_le_compat_r; [exact HX | apply Qlt_le_weak, pow2_Q_pos].
  - apply Qle_trans with (Qpower 2 53 * Qpower 2 (exponent a1 d1))%Q.
    { apply Qmult_le_compat_r; [| apply Qlt_le_weak, pow2_Q_pos].
      rewrite <- (pow2_Q 53) by lia. rewrite <- Zle_Qle. exact Hm1. }
    apply Qle_trans with (Qpower 2 52 * Qpower 2 (exponent a2 d2))%Q.
    { rewrite <- !pow2_Q_plus. apply Qpower_le_compat_l; [lia | discriminate]. }
    apply Qmult_le_compat_r; [| apply Qlt_le_weak, pow2_Q_pos].
    rewrite <- (pow2_Q 52) by lia. rewrite <- Zle_Qle. exact Hm2.
Qed.

Lemma binary64_value (x : Q) :
  Qnum x <> 0 ->
  (binary64 x == inject_Z (Z.sgn (Qnum x)) * magnitude (Z.abs (Qnum x)) (Z.pos (Qden x)))%Q.
Proof.
  intros Hn. unfold binary64, magnitude. cbv zeta.
  destruct (Z.eqb_spec (Qnum x) 0) as [E | _]; [contradiction |].
  rewrite Qred_correct.
  set (e := exponent (Z.abs (Qnum x)) (Z.pos (Qden x))).
  set (m := round_half_even _ _). set (s := Z.sgn (Qnum x)).
  destruct (0 <=? e) eqn:E.
  - apply Z.leb_le in E. rewrite !inject_Z_mult, (pow2_Q e E). ring.
  - apply Z.leb_gt in E. assert (E' : 0 <= - e) by lia.
    pose proof (pow2_pos (- e) E') as Hp.
    rewrite Qmake_Qdiv, Z2Pos.id by exact Hp.
    rewrite inject_Z_mult, (pow2_Q (- e) E'), Qpower_opp.
    pose proof (pow2_Q_pos e) as Hq.
    field. intros H. rewrite H in Hq. inversion Hq.
Qed.

(** Rounding to the nearest float keeps the order. *)
Lemma binary64_monotone : monotone_rounding binary64.
Proof.
  intros x y Hxy.
  assert (Hcross : Qnum x * Z.pos (Qden y) <= Qnum y * Z.pos (Qden x)) by exact Hxy.
  destruct (Z.eq_dec (Qnum x) 0) as [Ex | Ex]; destruct (Z.eq_dec (Qnum y) 0) as [Ey | Ey].
  - unfold binary64. rewrite Ex, Ey. cbn. apply Qle_refl.
  - assert (Hy : 0 < Qnum y) by (rewrite Ex in Hcross; nia).
    rewrite (binary64_value y Ey).
    unfold binary64 at 1. rewrite Ex. cbn [Z.eqb].
    rewrite (Z.sgn_pos _ Hy), Qmult_1_l, Z.abs_eq by lia.
    apply Qlt_le_weak, magnitude_pos; lia.
  - assert (Hx : Qnum x < 0) by (rewrite Ey in Hcross; nia).
    rewrite (binary64_value x Ex).
    unfold binary64 at 1. rewrite Ey. cbn [Z.eqb].
    rewrite (Z.sgn_neg _ Hx).
    pose proof (magnitude_pos (Z.abs (Qnum x)) (Z.pos (Qden x)) ltac:(lia) ltac:(lia)) as Hm.
    apply Qle_trans with (- magnitude (Z.abs (Qnum x)) (Z.pos (Qden x)))%Q.
    + apply Qle_lteq. right. ring.
    + apply (Qopp_le_compat 0), Qlt_le_weak, Hm.
  - rewrite (binary64_value x Ex), (binary64_value y Ey).
    destruct (Z.lt_total (Qnum x) 0) as [Hx | [Hx | Hx]]; [| contradiction |];
      destruct (Z.lt_total (Qnum y) 0) as [Hy | [Hy | Hy]]; try contradiction.
    + rewrite (Z.sgn_neg _ Hx), (Z.sgn_neg _ Hy).
      assert (Hm : (magnitude (Z.abs (Qnum y)) (Z.pos (Qden y))
                    <= magnitude (Z.abs (Qnum x)) (Z.pos (Qden x)))%Q)
        by (apply magnitude_monotone; lia).
      apply Qopp_le_compat in Hm.
      eapply Qle_trans; [| eapply Qle_trans; [exact Hm |]]; apply Qle_lteq; right; ring.
    + rewrite (Z.sgn_neg _ Hx), (Z.sgn_pos _ Hy).
      pose proof (magnitude_pos (Z.abs (Qnum x)) (Z.pos (Qden x)) ltac:(lia) ltac:(lia)) as H1.
      pose proof (magnitude_pos (Z.abs (Qnum y)) (Z.pos (Qden y)) ltac:(lia) ltac:(lia)) as H2.
      apply Qle_trans with 0%Q.
      * apply Qle_trans with (- magnitude (Z.abs (Qnum x)) (Z.pos (Qden x)))%Q;
          [apply Qle_lteq; right; ring | apply (Qopp_le_compat 0), Qlt_le_weak, H1].
      * rewrite Qmult_1_l. apply Qlt_le_weak, H2.
    + exfalso. nia.
    + rewrite (Z.sgn_pos _ Hx), (Z.sgn_pos _ Hy), !Qmult_1_l.
      apply magnitude_monotone; lia.
Qed.

(** ** The damping of the datastore-level pass *)

Lemma min_monotone (a b c : Q) : (a <= b)%Q -> (min a c <= min b c)%Q.
Proof.
  intros Hab. unfold min, Qltb.
  destruct (Qle_bool a c) eqn:E1; destruct (Qle_bool b c) eqn:E2; cbn [negb].
  - exact Hab.
  - apply Qle_bool_iff, E1.
  - exfalso. apply Qle_bool_iff in E2.
    assert (H : Qle_bool a c = true) by (apply Qle_bool_iff; eapply Qle_trans; eassumption).
    rewrite H in E1. discriminate E1.
  - apply Qle_refl.
Qed.

Lemma min_le_max_size (a c : Q) : (min a c <= c)%Q.
Proof.
  unfold min, Qltb. destruct (Qle_bool a c) eqn:E; cbn [negb].
  - apply Qle_bool_iff, E.
  - apply Qle_refl.
Qed.

Section Damping.

Variable rnd : Q -> Q.

Lemma half_gap_monotone (gap gap' : Z) :
  monotone_rounding rnd -> gap <= gap' ->
  (rnd (of_int gap / of_int (2 * GiB)) <= rnd (of_int gap' / of_int (2 * GiB)))%Q.
Proof.
  intros Hrnd Hgap. apply Hrnd. unfold Qdiv. apply Qmult_le_compat_r.
  - unfold of_int. rewrite <- Zle_Qle. exact Hgap.
  - apply Qinv_le_0_compat. unfold of_int. change 0%Q with (inject_Z 0).
    rewrite <- Zle_Qle. vm_compute. discriminate.
Qed.

(** C8, as amended: the damped maximum of a turn is the smaller of half
    the gap of free space, in GiB, and [flexvol_volume_max_size]; for a
    rounding that keeps the order it does not decrease when the gap of
    free space grows, it is never above [flexvol_volume_max_size], and a
    vm that may be moved at one gap may be moved at any wider one. *)
Theorem damped_maximum_monotone (args : Args)
    (least_free most_free least_free' most_free' : Z) :
  monotone_rounding rnd ->
  least_free - most_free <= least_free' - most_free' ->
  vm_maxdisksize rnd args least_free most_free
  = damped_maximum rnd (least_free - most_free) (flexvol_volume_max_size args)
  /\ (vm_maxdisksize rnd args least_free most_free
      <= vm_maxdisksize rnd args least_free' most_free')%Q
  /\ (vm_maxdisksize rnd args least_free most_free
      <= of_int (flexvol_volume_max_size args))%Q
  /\ forall vm,
       ds_movable rnd args least_free most_free vm = true ->
       ds_movable rnd args least_free' most_free' vm = true.
Proof.
  intros Hrnd Hgap.
  assert (Hle : (vm_maxdisksize rnd args least_free most_free
                 <= vm_maxdisksize rnd args least_free' most_free')%Q).
  { unfold vm_maxdisksize, div_const. apply min_monotone, half_gap_monotone; assumption. }
  split; [reflexivity |]. split; [exact Hle |]. split.
  - unfold vm_maxdisksize. apply min_le_max_size.
  - intros vm. unfold ds_movable. cbv zeta. rewrite !andb_true_iff.
    intros [Hlo Hhi]. split; [exact Hlo |].
    apply Qle_bool_iff. apply Qle_bool_iff in Hhi. eapply Qle_trans; eassumption.
Qed.

End Damping.

Lemma damped_maximum_monotone_witness :
  (vm_maxdisksize binary64 damping_args (GB 175) (GB 16)
   <= vm_maxdisksize binary64 damping_args (GB 7500) (GB 66))%Q
  /\ vm_maxdisksize binary64 damping_args (GB 175) (GB 16)
     = damped_maximum binary64 (GB 175 - GB 16) 2500
  /\ ds_movable binary64 damping_args (GB 7500) (GB 66) volume_50 = true.
Proof.
  destruct (damped_maximum_monotone binary64 damping_args (GB 175) (GB 16) (GB 7500) (GB 66)
              binary64_monotone ltac:(vm_compute; discriminate)) as (He & Hle & _ & Hmov).
  split; [exact Hle |]. split; [exact He |]. apply Hmov. vm_compute. reflexivity.
Defined.

(** C8 as the specification states it fails: in this pass the most and
    the least used datastore are 87.5% and 12.5% used in the first turn,
    and 48.4375% and 25% in the second, so that the gap of usage has
    narrowed from 75 to less than 24; but the least used datastore of the
    second turn is another and a larger one, the gap of free space has
    grown from 159 GB to 7434 GB, and the damped maximum from 79.5 to
    2500. *)
Lemma damping_counterexample :
  fst damping_run = Ok ReturnNone
  /\ moves_of (log (snd damping_run))
     = [("volume-50", ds_002, ds_003); ("volume-20", ds_002, ds_004)]
  /\ fst damping_first_turn = Ok (Continue 1)
  /\ fst damping_second_turn = Ok (Continue 2)
  /\ heap (snd damping_second_turn) = heap (snd damping_run)
  /\ moves_of (log (snd damping_second_turn)) = moves_of (log (snd damping_run))
  /\ map (fun u => (fst (fst (fst u)), snd (fst u))) (usages_of (log (snd damping_run)))
     = [(175 # 2, 25 # 2); (775 # 16, 25)]%Q
  /\ map DS.freespace (heap damping_start) = [GB 500; GB 16; GB 175; GB 7500]
  /\ map DS.freespace (heap (snd damping_first_turn)) = [GB 500; GB 66; GB 125; GB 7500]
  /\ vm_maxdisksize binary64 damping_args (GB 175) (GB 16) = (159 # 2)%Q
  /\ vm_maxdisksize binary64 damping_args (GB 7500) (GB 66) = 2500%Q
  /\ ((775 # 16) - 25 < (175 # 2) - (25 # 2))%Q
  /\ ((159 # 2) < 2500)%Q.
Proof. repeat split; vm_compute; reflexivity. Qed.
